(** * The flux execution core: a shallow embedding and its properties

  The development follows the Go sources package by package:
  - [codes], [errors], [plan], [arrow] : what the executor and the
                 operators ask of these packages,
  - [execute]  : execute/executor.go (graph builder, quota defaulting,
                 validation, abort, the watcher of a run),
  - [testing]  : the two-parent diff transformation,
  - [universe] : the two implementations of limit and the digest free
                 list of the quantile aggregate,
  - [samples]  : small plans to run the executor on.
  The definitions come first, the properties after them.

  Go's [int], [int64] and [execute.Time] are modelled as [Z]; where the
  source accumulates, the 64-bit wrap-around is written out. State that
  the source mutates in place is passed explicitly. *)

From Stdlib Require Import ZArith Lia.
From stdpp Require Import gmap strings list fin_maps.

#[local] Open Scope Z_scope.

(** ** Arrow arrays *)

Module arrow.

(** Modelled from the spec: [arrow.Slice], defined in another file of the
    arrow package. It is the half-open window [i, j) of an array, as a Go
    slice expression; a window outside the array is a fault. *)
Definition Slice {V : Type} (arr : list V) (i j : Z) : option (list V) :=
  if bool_decide (0 ≤ i ∧ i ≤ j ∧ j ≤ Z.of_nat (length arr))
  then Some (take (Z.to_nat (j - i)) (drop (Z.to_nat i) arr))
  else None.

(** [arrow.TableBuffer]: the columnar batch behind both [flux.ColReader]
    and [table.Chunk]. *)
Record TableBuffer (V : Type) := mkTableBuffer {
  Len : Z;
  Values : list (list V);
}.
Arguments mkTableBuffer {V} _ _.
Arguments Len {V} _.
Arguments Values {V} _.

End arrow.

(** ** Error values *)

Module codes.

Inductive Code :=
| Inherit
| Invalid
| Internal
| Unknown
| FailedPrecondition
| Unimplemented.

End codes.

Module errors.

(** A flux error made by [errors.New]/[errors.Newf], one made by
    [errors.Wrap] around another error, or a plain Go error made by
    [fmt.Errorf]. *)
Inductive Error :=
| New (code : codes.Code) (msg : string)
| Wrap (err : Error) (code : codes.Code) (msg : string)
| Errorf (msg : string).

(** Modelled from the spec: [errors.Code], the classification of an error,
    defined in the errors package. An error wrapped with [codes.Inherit]
    keeps the classification of the error it wraps; an error that carries
    no code of its own is [codes.Unknown]. *)
Fixpoint Code (e : Error) : codes.Code :=
  match e with
  | New codes.Inherit _ => codes.Unknown
  | New c _ => c
  | Wrap e' codes.Inherit _ => Code e'
  | Wrap _ c _ => c
  | Errorf _ => codes.Unknown
  end.

End errors.

(** A call returns, fails with an error value, or panics (an index out of
    range, a nil dereference, a negative length given to [make]). *)
Inductive outcome (A : Type) :=
| Ok (a : A)
| Fail (e : errors.Error)
| Panic.
Arguments Ok {A} a.
Arguments Fail {A} e.
Arguments Panic {A}.

Definition outcome_bind {A B : Type} (m : outcome A) (f : A → outcome B) : outcome B :=
  match m with
  | Ok a => f a
  | Fail e => Fail e
  | Panic => Panic
  end.

#[global] Instance outcome_ret : MRet outcome := λ A a, Ok a.
#[global] Instance outcome_fmap : FMap outcome := λ A B f m,
  match m with
  | Ok a => Ok (f a)
  | Fail e => Fail e
  | Panic => Panic
  end.
#[global] Instance outcome_mbind : MBind outcome := λ A B f m, outcome_bind m f.

(** Go's 64-bit [int]: the largest value and the wrap-around of a sum. *)
Definition MaxInt64 : Z := 2 ^ 63 - 1.
Definition wrap64 (z : Z) : Z := (z + 2 ^ 63) mod 2 ^ 64 - 2 ^ 63.

(** ** The physical plan, as the executor reads it *)

Module plan.

Definition NodeID := string.
Definition ProcedureKind := string.

Definition DefaultYieldName : string := "_result".

(** A procedure spec: its kind; its yield name when it implements
    [plan.YieldProcedureSpec].

    Modelled from the spec: [plan.HasSideEffect], defined in the plan
    package; a spec is flagged as side-effecting or not. *)
Record ProcedureSpec := mkProcedureSpec {
  Kind : ProcedureKind;
  YieldName : option string;
  HasSideEffect : bool;
}.

Record Bounds := mkBounds { Start : Z; Stop : Z }.

Inductive TriggerSpec :=
| DefaultTriggerSpec
| NarrowTransformationTriggerSpec
| OtherTriggerSpec (name : string).

(** A plan node with what the executor asks of it. [Predecessors] holds
    the predecessor nodes themselves, so a node stands for the part of
    the graph below it; a node is identified by its [ID]. [physical]
    tells a [*plan.PhysicalPlanNode] from any other node;
    [ParallelRun] and [ParallelMerge] are the factors of the two output
    attributes, when present. *)
Inductive Node := mkNode {
  physical : bool;
  ID : NodeID;
  ProcedureSpec_ : ProcedureSpec;
  Bounds_ : option Bounds;
  Predecessors : list Node;
  Successors : list NodeID;
  ParallelRun : option Z;
  ParallelMerge : option Z;
  TriggerSpec_ : option TriggerSpec;
}.

(** [flux.ResourceManagement] *)
Record ResourceManagement := mkResources {
  MemoryBytesQuota : Z;
  ConcurrencyQuota : Z;
}.

Record Spec := mkSpec {
  Roots : list Node;
  Resources : ResourceManagement;
  Now : Z;
}.

(** Modelled from the spec: the two walks of [plan.Spec], defined in the
    plan package. Both start from the roots, follow [Predecessors] and
    visit every node once; [TopDownWalk] visits a node before its
    predecessors, [BottomUpWalk] after them. [topDown n seen] extends the
    nodes seen so far, in visiting order. *)
Fixpoint topDown (n : Node) (seen : list Node) : list Node :=
  if bool_decide (ID n ∈ ID <$> seen) then seen
  else
    (fix preds (ps : list Node) (seen : list Node) : list Node :=
       match ps with
       | [] => seen
       | p :: ps' => preds ps' (topDown p seen)
       end) (Predecessors n) (seen ++ [n]).

Definition TopDownOrder (p : Spec) : list Node :=
  foldl (λ seen r, topDown r seen) [] (Roots p).

(** [bottomUp n (visited, done)]: the IDs entered so far and the nodes
    left so far, in leaving order. *)
Fixpoint bottomUp (n : Node) (st : list NodeID * list Node) : list NodeID * list Node :=
  if bool_decide (ID n ∈ st.1) then st
  else
    let st' :=
      (fix preds (ps : list Node) (st : list NodeID * list Node) :=
         match ps with
         | [] => st
         | p :: ps' => preds ps' (bottomUp p st)
         end) (Predecessors n) (ID n :: st.1, st.2) in
    (st'.1, st'.2 ++ [n]).

Definition BottomUpOrder (p : Spec) : list Node :=
  (foldl (λ st r, bottomUp r st) ([], []) (Roots p)).2.

End plan.

(** ** execute/executor.go *)

Module execute.

(** Modelled from the spec: [DatasetID] and [datasetIDFromNodeID], defined
    in another file of the package. A [DatasetID] is derived deterministically
    from the plan-node identity and the replica index, and no two node
    replicas share one; the zero value is what [make] fills a fresh slice
    of IDs with. *)
Inductive DatasetID :=
| ZeroDatasetID
| DatasetIDOf (id : plan.NodeID) (copy : Z).

#[global] Instance DatasetID_eq_dec : EqDecision DatasetID.
Proof. solve_decision. Defined.

#[global] Instance DatasetID_countable : Countable DatasetID.
Proof.
  refine (inj_countable'
            (λ d, match d with
                  | ZeroDatasetID => None
                  | DatasetIDOf id copy => Some (id, copy)
                  end)
            (λ o, match o with
                  | None => ZeroDatasetID
                  | Some (id, copy) => DatasetIDOf id copy
                  end) _).
  by intros [].
Defined.

Definition datasetIDFromNodeID (id : plan.NodeID) (copy : Z) : DatasetID :=
  DatasetIDOf id copy.

Record ParallelOpts := mkParallelOpts { Group : Z; Factor : Z }.

Record executionContext := mkExecutionContext {
  parents : list DatasetID;
  streamContext : option plan.Bounds;
  parallelOpts : ParallelOpts;
}.

(** What [AddTransformation] attaches to an execution node: the transport
    towards a transformation, or a result. *)
Inductive consumer :=
| ConsumerTransport (to : DatasetID)
| ConsumerResult (name : string).

(** An execution node (a source, or the dataset of a transformation):
    its ID, the label of a source, the trigger spec of a dataset, and the
    consumers attached to it. *)
Record Node := mkNode {
  nodeID : DatasetID;
  label : string;
  triggerSpec : option plan.TriggerSpec;
  consumers : list consumer;
}.

Record transport := mkTransport {
  transformation : DatasetID;
  planNode : plan.NodeID;
}.

(** Modelled from the spec: [result], [newResult] and [result.abort],
    defined in another file of the package. A result is a named sink;
    aborting it marks it as failed with the error. *)
Record result := mkResult {
  resultName : string;
  failed : option errors.Error;
}.

Definition newResult (name : string) : result := mkResult name None.

Definition result_abort (err : errors.Error) (r : result) : result :=
  mkResult (resultName r) (Some err).

(** The run state. [ctxErr] is the error of the cancellable run context:
    [None] while it is not done. [sources] holds the sources by ID. *)
Record executionState := mkExecutionState {
  resources : plan.ResourceManagement;
  results : gmap string result;
  sources : list DatasetID;
  transports : list transport;
  ctxErr : option errors.Error;
}.

Definition contextCanceled : errors.Error := errors.Errorf "context canceled".

Definition cancel (es : executionState) : executionState :=
  mkExecutionState (resources es) (results es) (sources es) (transports es)
    (Some (default contextCanceled (ctxErr es))).

Definition setResources (r : plan.ResourceManagement) (es : executionState) : executionState :=
  mkExecutionState r (results es) (sources es) (transports es) (ctxErr es).

Definition setResults (rs : gmap string result) (es : executionState) : executionState :=
  mkExecutionState (resources es) rs (sources es) (transports es) (ctxErr es).

Definition addSource (s : DatasetID) (es : executionState) : executionState :=
  mkExecutionState (resources es) (results es) (sources es ++ [s]) (transports es) (ctxErr es).

Definition addTransport (t : transport) (es : executionState) : executionState :=
  mkExecutionState (resources es) (results es) (sources es) (transports es ++ [t]) (ctxErr es).

(** [createExecutionNodeVisitor]: [nodes] maps a plan node (by ID) to its
    replicas; an entry is nil until the replica has been created. *)
Record createExecutionNodeVisitor := mkVisitor {
  es : executionState;
  nodes : gmap plan.NodeID (list (option Node));
}.

(** The visitor is mutated in place and a call returns, fails or panics:
    a state monad over [outcome]. The state at a failure is kept, it is
    what the source leaves behind. *)
Definition M (A : Type) : Type :=
  createExecutionNodeVisitor → createExecutionNodeVisitor * outcome A.

#[global] Instance M_ret : MRet M := λ A a v, (v, Ok a).
#[global] Instance M_bind : MBind M := λ A B f m v,
  match m v with
  | (v', Ok a) => f a v'
  | (v', Fail e) => (v', Fail e)
  | (v', Panic) => (v', Panic)
  end.

(** [keepsResults m]: however [m] ends, it leaves the results map as it
    found it. *)
Definition keepsResults {A : Type} (m : M A) : Prop :=
  ∀ v v' o, m v = (v', o) → results (es v') = results (es v).

Definition liftO {A : Type} (o : outcome A) : M A := λ v, (v, o).
Definition modify (f : createExecutionNodeVisitor → createExecutionNodeVisitor) : M unit :=
  λ v, (f v, Ok tt).
Definition modifyEs (f : executionState → executionState) : M unit :=
  modify (λ v, mkVisitor (f (es v)) (nodes v)).

Fixpoint forEach {A : Type} (l : list A) (body : A → M unit) : M unit :=
  match l with
  | [] => mret tt
  | x :: l' => body x ;; forEach l' body
  end.

Fixpoint skipYields (pn : plan.Node) : outcome plan.Node :=
  match plan.YieldName (plan.ProcedureSpec_ pn) with
  | Some _ =>
      match plan.Predecessors pn with
      | [] => Panic
      | p :: _ => skipYields p
      end
  | None => Ok pn
  end.

Definition nonYieldPredecessors (pn : plan.Node) : outcome (list plan.Node) :=
  mapM skipYields (plan.Predecessors pn).

(** The [parents] slice of replica [i]: made with
    [len(node.Predecessors())*predCopies] zero entries, then filled by the
    two loops. *)
Definition buildParents (node : plan.Node) (predCopies i : Z) : outcome (list DatasetID) :=
  let len := Z.of_nat (length (plan.Predecessors node)) * predCopies in
  if len <? 0 then Panic
  else
    preds ← nonYieldPredecessors node;
    Ok (foldl
          (λ parents '(pi, pred),
             foldl (λ parents j,
                      <[Z.to_nat (Z.of_nat pi * predCopies + j) :=
                          datasetIDFromNodeID (plan.ID pred) (i + j)]> parents)
                   parents (seqZ 0 predCopies))
          (replicate (Z.to_nat len) ZeroDatasetID)
          (imap pair preds)).

(** The slice [ec]: one execution context per copy. *)
Definition buildContexts (node : plan.Node) (copies predCopies : Z)
    (sc : option plan.Bounds) : outcome (list executionContext) :=
  if copies <? 0 then Panic
  else
    mapM (λ i, parents ← buildParents node predCopies i;
               Ok (mkExecutionContext parents sc (mkParallelOpts i copies)))
         (seqZ 0 copies).

(** The contexts [Visit] builds for a node: [copies] is the factor of the
    parallel-run attribute, [predCopies] that of the parallel-merge
    attribute, 1 when the attribute is absent. *)
Definition executionContexts (node : plan.Node) : outcome (list executionContext) :=
  buildContexts node (default 1 (plan.ParallelRun node))
    (default 1 (plan.ParallelMerge node)) (plan.Bounds_ node).

(** The wiring rule in one piece: for every predecessor in order, the
    [predCopies] replicas starting at replica [i]. *)
Definition wiredParents (preds : list plan.Node) (predCopies i : Z) : list DatasetID :=
  flat_map (λ pred, (λ j, datasetIDFromNodeID (plan.ID pred) (i + j)) <$> seqZ 0 predCopies)
           preds.

(** [v.nodes[id][i] = n] *)
Definition setNode (id : plan.NodeID) (i : Z) (n : Node) : M unit :=
  modify (λ v, mkVisitor (es v)
                 (<[id := <[Z.to_nat i := Some n]> (default [] (nodes v !! id))]> (nodes v))).

(** [v.nodes[id][k]]: an index out of range panics. *)
Definition getNode (id : plan.NodeID) (k : Z) : M (option Node) := λ v,
  if k <? 0 then (v, Panic)
  else
    match default [] (nodes v !! id) !! Z.to_nat k with
    | Some n => (v, Ok n)
    | None => (v, Panic)
    end.

(** [n.AddTransformation(c)] on the node found at [v.nodes[id][k]]; a nil
    node panics. *)
Definition AddTransformation (id : plan.NodeID) (k : Z) (n : option Node) (c : consumer)
  : M unit :=
  match n with
  | Some n =>
      setNode id k (mkNode (nodeID n) (label n) (triggerSpec n) (consumers n ++ [c]))
  | None => liftO Panic
  end.

Definition generateResult (resultName : string) (node : plan.Node) (idx : Z) : M unit := λ v,
  match results (es v) !! resultName with
  | Some _ =>
      (v, Fail (errors.New codes.Invalid
                  ("tried to produce more than one result with the name " +:+ resultName)))
  | None =>
      (modifyEs (setResults (<[resultName := newResult resultName]> (results (es v))));;
       target ← liftO (skipYields node);
       n ← getNode (plan.ID target) idx;
       AddTransformation (plan.ID target) idx n (ConsumerResult resultName)) v
  end.

Definition getResultName (node : plan.Node) (spec : plan.ProcedureSpec)
    (isParallelMerge : bool) : outcome string :=
  let name := plan.DefaultYieldName in
  spec ← (if isParallelMerge then
            if negb (length (plan.Predecessors node) =? 1)%nat then
              Fail (errors.New codes.Internal "parallel merge must have a single predecessor")
            else
              match plan.Predecessors node with
              | p :: _ => Ok (plan.ProcedureSpec_ p)
              | [] => Panic
              end
          else Ok spec);
  Ok (if plan.HasSideEffect spec then plan.ID node else name).

Section registries.

(** The registries [procedureToSource] and [procedureToTransformation],
    filled by the operator packages. A registered constructor is seen
    through whether it fails. *)
Variable procedureToSource :
  plan.ProcedureKind →
  option (plan.ProcedureSpec → DatasetID → executionContext → option errors.Error).
Variable procedureToTransformation :
  plan.ProcedureKind →
  option (DatasetID → plan.ProcedureSpec → executionContext → option errors.Error).

Definition createSources (node : plan.Node) (copies : Z) (ec : list executionContext)
  : M unit :=
  let spec := plan.ProcedureSpec_ node in
  match procedureToSource (plan.Kind spec) with
  | None => liftO (Fail (errors.Errorf ("unsupported source kind " +:+ plan.Kind spec)))
  | Some createSourceFn =>
      forEach (seqZ 0 copies) (λ i,
        let id := datasetIDFromNodeID (plan.ID node) i in
        match ec !! Z.to_nat i with
        | None => liftO Panic
        | Some eci =>
            match createSourceFn spec id eci with
            | Some err => liftO (Fail err)
            | None =>
                modifyEs (addSource id);;
                setNode (plan.ID node) i (mkNode id (plan.ID node) None [])
            end
        end)
  end.

Definition createTransformations (node : plan.Node) (copies predCopies : Z)
    (ec : list executionContext) : M unit :=
  let spec := plan.ProcedureSpec_ node in
  match procedureToTransformation (plan.Kind spec) with
  | None => liftO (Fail (errors.Errorf ("unsupported procedure " +:+ plan.Kind spec)))
  | Some createTransformationFn =>
      forEach (seqZ 0 copies) (λ i,
        let id := datasetIDFromNodeID (plan.ID node) i in
        match ec !! Z.to_nat i with
        | None => liftO Panic
        | Some eci =>
            match createTransformationFn id spec eci with
            | Some err => liftO (Fail err)
            | None =>
                let trigger := default plan.DefaultTriggerSpec (plan.TriggerSpec_ node) in
                setNode (plan.ID node) i (mkNode id "" (Some trigger) []);;
                preds ← liftO (nonYieldPredecessors node);
                forEach preds (λ p,
                  forEach (seqZ 0 predCopies) (λ j,
                    executionNode ← getNode (plan.ID p) (i + j);
                    modifyEs (addTransport (mkTransport id (plan.ID node)));;
                    AddTransformation (plan.ID p) (i + j) executionNode
                      (ConsumerTransport id)))
            end
        end)
  end.

(** The first part of [Visit] for a node that is not a yield: the
    execution contexts, the slice of replicas, and the sources or
    transformations with their transports. *)
Definition instantiate (node : plan.Node) : M unit :=
  let copies := default 1 (plan.ParallelRun node) in
  let predCopies := default 1 (plan.ParallelMerge node) in
  ec ← liftO (executionContexts node);
  modify (λ v, mkVisitor (es v)
                 (<[plan.ID node := replicate (Z.to_nat copies) None]> (nodes v)));;
  if (length (plan.Predecessors node) =? 0)%nat
  then createSources node copies ec
  else createTransformations node copies predCopies ec.

(** [Visit] creates the node that will execute a particular plan node. *)
Definition Visit (node : plan.Node) : M unit :=
  if negb (plan.physical node) then
    liftO (Fail (errors.Errorf "cannot execute plan node of type *plan.LogicalNode"))
  else
    let spec := plan.ProcedureSpec_ node in
    match plan.YieldName spec with
    | Some yieldName => generateResult yieldName node 0
    | None =>
        let isParallelMerge := bool_decide (is_Some (plan.ParallelMerge node)) in
        instantiate node;;
        if (length (plan.Successors node) =? 0)%nat then
          resultName ← liftO (getResultName node spec isParallelMerge);
          generateResult resultName node 0
        else mret tt
    end.

(** [p.BottomUpWalk(v.Visit)]: the walk stops at the first error. *)
Definition BottomUpWalk (p : plan.Spec) : M unit :=
  forEach (plan.BottomUpOrder p) Visit.

End registries.

Definition validate (es : executionState) : option errors.Error :=
  if plan.ConcurrencyQuota (resources es) =? 0 then
    Some (errors.New codes.Invalid "execution state must have a non-zero concurrency quota")
  else None.

(** The execution options found in the context by
    [GetExecutionDependencies]. *)
Record ExecutionOptions := mkExecutionOptions {
  DefaultMemoryLimit : Z;
  ConcurrencyLimit : Z;
}.

(** [ambient] is [None] when the context has no execution dependencies
    ([HaveExecutionDependencies] is false). *)
Definition getResourceLimits (ambient : option ExecutionOptions) : Z * Z :=
  match ambient with
  | None => (0, MaxInt64)
  | Some execOptions => (DefaultMemoryLimit execOptions, ConcurrencyLimit execOptions)
  end.

(** The function handed to [TopDownWalk]: sources are left out. The type
    assertion panics on a node that is not physical. *)
Definition addParallelFactor (concurrencyQuota : Z) (node : plan.Node) : outcome Z :=
  if (0 <? length (plan.Predecessors node))%nat then
    if plan.physical node then
      let addend := default 1 (plan.ParallelRun node) in
      Ok (wrap64 (concurrencyQuota + addend))
    else Panic
  else Ok concurrencyQuota.

Fixpoint TopDownWalk_sum (ns : list plan.Node) (concurrencyQuota : Z) : outcome Z :=
  match ns with
  | [] => Ok concurrencyQuota
  | node :: rest =>
      q ← addParallelFactor concurrencyQuota node;
      TopDownWalk_sum rest q
  end.

Definition chooseDefaultResources (ambient : option ExecutionOptions) (p : plan.Spec)
    (es : executionState) : outcome executionState :=
  let '(defaultMemoryLimit, concurrencyLimit) := getResourceLimits ambient in
  let memoryBytesQuota :=
    if plan.MemoryBytesQuota (resources es) =? 0 then defaultMemoryLimit
    else plan.MemoryBytesQuota (resources es) in
  if plan.ConcurrencyQuota (resources es) =? 0 then
    if concurrencyLimit >? 0 then
      concurrencyQuota ← TopDownWalk_sum (plan.TopDownOrder p) 0;
      let concurrencyQuota :=
        if concurrencyQuota >? concurrencyLimit then concurrencyLimit
        else if concurrencyQuota =? 0 then 1
        else concurrencyQuota in
      Ok (setResources (plan.mkResources memoryBytesQuota concurrencyQuota) es)
    else
      Ok (setResources
            (plan.mkResources memoryBytesQuota (Z.of_nat (length (plan.Roots p)))) es)
  else
    Ok (setResources
          (plan.mkResources memoryBytesQuota (plan.ConcurrencyQuota (resources es))) es).

(** [r.abort(err)] for every result, then [es.cancel()]. Every iteration
    touches its own result only, so the order of the map does not show. *)
Definition abort (err : errors.Error) (es : executionState) : executionState :=
  cancel (setResults (result_abort err <$> results es) es).

(** What the watcher goroutine of [do] meets while it waits for one
    transport: the transport finishes, the run context is done, or the
    dispatcher reports an error (possibly nil). [ContextDone err] carries
    the error of a cancellation from outside; a context that is already
    done keeps its own error. *)
Inductive selectCase :=
| TransportFinished
| ContextDone (err : errors.Error)
| DispatcherErr (err : option errors.Error).

(** The run as the watcher sees it: the case met for the [k]-th transport,
    and what [dispatcher.Stop] returns. *)
Record runOracle := mkRunOracle {
  selects : nat → selectCase;
  stopErr : option errors.Error;
}.

Definition contextDone (err : errors.Error) (es : executionState) : executionState :=
  mkExecutionState (resources es) (results es) (sources es) (transports es)
    (Some (default err (ctxErr es))).

Definition watchTransport (o : runOracle) (es : executionState) (k : nat) : executionState :=
  match selects o k with
  | TransportFinished => es
  | ContextDone err =>
      let es := contextDone err es in
      abort (default err (ctxErr es)) es
  | DispatcherErr (Some err) => abort err es
  | DispatcherErr None => es
  end.

Definition watcher (o : runOracle) (es : executionState) : executionState :=
  let es := foldl (watchTransport o) es (seq 0 (length (transports es))) in
  match stopErr o with
  | Some err => abort err es
  | None => es
  end.

(** What [do] starts: one goroutine per source, and the dispatcher with
    the concurrency quota. *)
Record launch := mkLaunch {
  sourcesRun : list DatasetID;
  dispatcherStart : Z;
}.

(** [do] starts the sources, the dispatcher and the watcher; the state is
    given as the run leaves it. *)
Definition do (o : runOracle) (es : executionState) : executionState * launch :=
  (watcher o es, mkLaunch (sources es) (plan.ConcurrencyQuota (resources es))).

(** What [Execute] hands back: the error, the results map (shared with
    the run, so read here as the run leaves it), and what was started. *)
Record execution := mkExecution {
  returnedErr : option errors.Error;
  returnedResults : option (gmap string result);
  started : option launch;
}.

(** The execution state and the visitor as [createExecutionState] makes
    them, before the walk. *)
Definition newVisitor (p : plan.Spec) : createExecutionNodeVisitor :=
  mkVisitor (mkExecutionState (plan.Resources p) ∅ [] [] None) ∅.

Section executor.

Variable procedureToSource :
  plan.ProcedureKind →
  option (plan.ProcedureSpec → DatasetID → executionContext → option errors.Error).
Variable procedureToTransformation :
  plan.ProcedureKind →
  option (DatasetID → plan.ProcedureSpec → executionContext → option errors.Error).
Variable ambient : option ExecutionOptions.

Definition createExecutionState (p : plan.Spec) : outcome executionState :=
  match BottomUpWalk procedureToSource procedureToTransformation p (newVisitor p) with
  | (_, Fail err) => Fail err
  | (_, Panic) => Panic
  | (v, Ok _) =>
      es ← chooseDefaultResources ambient p (execute.es v);
      match validate es with
      | Some err => Fail (errors.Wrap err codes.Invalid "execution state")
      | None => Ok es
      end
  end.

(** [None] when the call panics instead of returning. *)
Definition Execute (o : runOracle) (p : plan.Spec) : option execution :=
  match createExecutionState p with
  | Fail err =>
      Some (mkExecution
              (Some (errors.Wrap err codes.Inherit "failed to initialize execute state"))
              None None)
  | Panic => None
  | Ok es =>
      let '(es, l) := do o es in
      Some (mkExecution None (Some (results es)) (Some l))
  end.

End executor.

(** The factors that [chooseDefaultResources] adds up: of the nodes with
    a predecessor, the parallel-run factor, 1 when the attribute is
    absent. *)
Definition internalNodes (ns : list plan.Node) : list plan.Node :=
  filter (λ n, plan.Predecessors n ≠ []) ns.

Definition parallelFactor (n : plan.Node) : Z := default 1 (plan.ParallelRun n).

Definition sumFactors (ns : list plan.Node) : Z :=
  foldr Z.add 0 (parallelFactor <$> internalNodes ns).

(** [preserves P m]: however [m] ends, it leaves a visitor that satisfies
    [P] when it found one. *)
Definition preserves {A : Type} (P : createExecutionNodeVisitor → Prop) (m : M A) : Prop :=
  ∀ v v' o, P v → m v = (v', o) → P v'.

(** A case of the watcher's [select] that makes it abort the run. *)
Definition aborting (c : selectCase) : bool :=
  match c with
  | TransportFinished => false
  | ContextDone _ => true
  | DispatcherErr err => bool_decide (is_Some err)
  end.


(** [frame c R S T es]: the run context and the resources of [es] are [c]
    and [R], and its sources and transports begin with [S] and [T]. *)
Definition frame (c : option errors.Error) (R : plan.ResourceManagement)
    (S : list DatasetID) (T : list transport) (es : executionState) : Prop :=
  ctxErr es = c ∧ resources es = R ∧ S `prefix_of` sources es ∧ T `prefix_of` transports es.

(** [aborted es0 es]: [es] is [es0] after the run has been aborted. Every
    result has failed, all with the error of the last abort; the run
    context is done, with the error it had if it was done before; the
    rest is as in [es0]. *)
Definition aborted (es0 es : executionState) : Prop :=
  ∃ e c,
    es = mkExecutionState (resources es0) (result_abort e <$> results es0)
           (sources es0) (transports es0) (Some c)
    ∧ ∀ c0, ctxErr es0 = Some c0 → c = c0.
End execute.

(** ** Small plans to run the executor on *)

Module samples.

Definition fromSpec : plan.ProcedureSpec := plan.mkProcedureSpec "from" None false.
Definition opSpec (kind : string) : plan.ProcedureSpec := plan.mkProcedureSpec kind None false.
Definition toSpec : plan.ProcedureSpec := plan.mkProcedureSpec "to" None true.
Definition yieldSpec (name : string) : plan.ProcedureSpec :=
  plan.mkProcedureSpec "yield" (Some name) false.

Definition node (id : plan.NodeID) (spec : plan.ProcedureSpec)
    (preds : list plan.Node) (succs : list plan.NodeID) : plan.Node :=
  plan.mkNode true id spec None preds succs None None None.

Definition parallelNode (id : plan.NodeID) (spec : plan.ProcedureSpec)
    (preds : list plan.Node) (succs : list plan.NodeID) (factor : Z) : plan.Node :=
  plan.mkNode true id spec None preds succs (Some factor) None None.

Definition mergeNode (id : plan.NodeID) (preds : list plan.Node)
    (succs : list plan.NodeID) (factor : Z) : plan.Node :=
  plan.mkNode true id (opSpec "merge") None preds succs None (Some factor) None.

(** The registries: one source kind, a few transformations, none of which
    fails. *)
Definition procedureToSource (kind : plan.ProcedureKind)
  : option (plan.ProcedureSpec → execute.DatasetID → execute.executionContext
            → option errors.Error) :=
  if decide (kind = "from") then Some (λ _ _ _, None) else None.

Definition procedureToTransformation (kind : plan.ProcedureKind)
  : option (execute.DatasetID → plan.ProcedureSpec → execute.executionContext
            → option errors.Error) :=
  if decide (kind ∈ ["filter"; "map"; "merge"; "to"]) then Some (λ _ _ _, None) else None.

Definition unset : plan.ResourceManagement := plan.mkResources 0 0.

(** [from |> filter |> map]: one root, two nodes with a predecessor. *)
Definition from0 : plan.Node := node "from0" fromSpec [] ["filter1"].
Definition filter1 : plan.Node := node "filter1" (opSpec "filter") [from0] ["map2"].
Definition map2 : plan.Node := node "map2" (opSpec "map") [filter1] [].
Definition linear : plan.Spec := plan.mkSpec [map2] unset 0.

(** A filter run twice in parallel over a source that is not parallel. *)
Definition fromOnce : plan.Node := node "from0" fromSpec [] ["filter1"].
Definition filterTwice : plan.Node :=
  parallelNode "filter1" (opSpec "filter") [fromOnce] [] 2.
Definition lopsided : plan.Spec := plan.mkSpec [filterTwice] unset 0.

(** A source and a filter both run three times in parallel, merged. *)
Definition fromThrice : plan.Node := parallelNode "from0" fromSpec [] ["filter1"] 3.
Definition filterThrice : plan.Node :=
  parallelNode "filter1" (opSpec "filter") [fromThrice] ["merge2"] 3.
Definition merge2 : plan.Node := mergeNode "merge2" [filterThrice] [] 3.
Definition merged : plan.Spec := plan.mkSpec [merge2] unset 0.

(** Two yields with the same name. *)
Definition fromA : plan.Node := node "fromA" fromSpec [] ["yieldA"].
Definition yieldA : plan.Node := node "yieldA" (yieldSpec "out") [fromA] [].
Definition fromB : plan.Node := node "fromB" fromSpec [] ["yieldB"].
Definition yieldB : plan.Node := node "yieldB" (yieldSpec "out") [fromB] [].
Definition twoYields : plan.Spec := plan.mkSpec [yieldA; yieldB] unset 0.

(** A yield named as the default result, next to a terminal node without
    a yield. *)
Definition yieldDefault : plan.Node :=
  node "yieldA" (yieldSpec plan.DefaultYieldName) [fromA] [].
Definition filterB : plan.Node := node "filterB" (opSpec "filter") [fromB] [].
Definition fromB' : plan.Node := node "fromB" fromSpec [] ["filterB"].
Definition filterB' : plan.Node := node "filterB" (opSpec "filter") [fromB'] [].
Definition yieldAndDefault : plan.Spec := plan.mkSpec [yieldDefault; filterB'] unset 0.

(** A plan without nodes. *)
Definition empty : plan.Spec := plan.mkSpec [] unset 0.

(** A run in which every transport finishes and the dispatcher stops
    cleanly, and one in which the dispatcher reports an error. *)
Definition quietRun : execute.runOracle :=
  execute.mkRunOracle (λ _, execute.TransportFinished) None.
Definition failingRun : execute.runOracle :=
  execute.mkRunOracle
    (λ _, execute.DispatcherErr (Some (errors.New codes.Internal "process failed"))) None.

End samples.

(** ** testing/diff.go: the two-parent diff transformation *)

Module testing.

Definition GroupKey := string.

Record diffParentState := mkDiffParentState {
  mark : Z;
  processing : Z;
  finished : bool;
}.

(** A buffered table: the parent it came from and its number of rows. The
    column arrays play no part in marks and finish signals and are left
    out. *)
Record tableBuffer := mkTableBuffer {
  id : execute.DatasetID;
  sz : Z;
}.

(** [&tableBuffer{}] *)
Definition emptyBuffer : tableBuffer := mkTableBuffer execute.ZeroDatasetID 0.

(** The calls the transformation makes on its own dataset [t.d]. *)
Inductive datasetCall :=
| DUpdateWatermark (t : Z)
| DUpdateProcessingTime (t : Z)
| DFinish (err : option errors.Error).

(** [parentState] is the map from parent to its state; [d] is the dataset,
    seen as the calls made on it so far, oldest first; [inputCache] holds
    the tables waiting for their counterpart, in insertion order. *)
Record DiffTransformation := mkDiffTransformation {
  wantID : execute.DatasetID;
  gotID : execute.DatasetID;
  parentState : gmap execute.DatasetID diffParentState;
  d : list datasetCall;
  inputCache : list (GroupKey * tableBuffer);
}.

Definition NewDiffTransformation (wantID gotID : execute.DatasetID) : DiffTransformation :=
  mkDiffTransformation wantID gotID
    (<[gotID := mkDiffParentState 0 0 false]>
       (<[wantID := mkDiffParentState 0 0 false]> ∅))
    [] [].

Definition setParentState (ps : gmap execute.DatasetID diffParentState)
    (t : DiffTransformation) : DiffTransformation :=
  mkDiffTransformation (wantID t) (gotID t) ps (d t) (inputCache t).

Definition call (c : datasetCall) (t : DiffTransformation) : DiffTransformation :=
  mkDiffTransformation (wantID t) (gotID t) (parentState t) (d t ++ [c]) (inputCache t).

(** The loop that takes the minimum over the parents, starting from
    [math.MaxInt64]. *)
Definition minOver (f : diffParentState → Z)
    (ps : gmap execute.DatasetID diffParentState) : Z :=
  map_fold (λ _ state min, if f state <? min then f state else min) MaxInt64 ps.

(** The loop that asks whether every parent has finished. *)
Definition allFinished (ps : gmap execute.DatasetID diffParentState) : bool :=
  map_fold (λ _ state fin, fin && finished state) true ps.

Section diff.

(** What the dataset answers to a call, and the error [t.diff] returns
    for a pair of buffers. Both depend on the dataset and the table
    builder cache of the execute package, and are left open. *)
Variable datasetAnswer : datasetCall → option errors.Error.
Variable diff : GroupKey → tableBuffer → tableBuffer → option errors.Error.

Definition answer (c : datasetCall) : outcome unit :=
  match datasetAnswer c with
  | Some err => Fail err
  | None => Ok tt
  end.

(** A parent that is not in [parentState] gives a nil state, and writing
    to it panics. *)
Definition UpdateWatermark (id : execute.DatasetID) (mark : Z) (t : DiffTransformation)
  : DiffTransformation * outcome unit :=
  match parentState t !! id with
  | None => (t, Panic)
  | Some state =>
      let t := setParentState
                 (<[id := mkDiffParentState mark (processing state) (finished state)]>
                    (parentState t)) t in
      let min := minOver testing.mark (parentState t) in
      (call (DUpdateWatermark min) t, answer (DUpdateWatermark min))
  end.

Definition UpdateProcessingTime (id : execute.DatasetID) (mark : Z) (t : DiffTransformation)
  : DiffTransformation * outcome unit :=
  match parentState t !! id with
  | None => (t, Panic)
  | Some state =>
      let t := setParentState
                 (<[id := mkDiffParentState (testing.mark state) mark (finished state)]>
                    (parentState t)) t in
      let min := minOver processing (parentState t) in
      (call (DUpdateProcessingTime min) t, answer (DUpdateProcessingTime min))
  end.

(** [t.inputCache.Range]: the function is applied to the entries in
    order, and the first error ends the loop. Here the function is the
    one [Finish] passes: a diff against an empty buffer, on the side the
    table did not come from. *)
Fixpoint flushInputCache (wantID : execute.DatasetID)
    (entries : list (GroupKey * tableBuffer)) : option errors.Error :=
  match entries with
  | [] => None
  | (key, obj) :: rest =>
      let '(want, got) :=
        if decide (id obj = wantID) then (obj, emptyBuffer) else (emptyBuffer, obj) in
      match diff key want got with
      | Some err => Some err
      | None => flushInputCache wantID rest
      end
  end.

Definition Finish (id : execute.DatasetID) (err : option errors.Error)
    (t : DiffTransformation) : DiffTransformation * outcome unit :=
  match parentState t !! id with
  | None => (t, Panic)
  | Some state =>
      let t := setParentState
                 (<[id := mkDiffParentState (mark state) (processing state) true]>
                    (parentState t)) t in
      let t := match err with
               | Some e => call (DFinish (Some e)) t
               | None => t
               end in
      if allFinished (parentState t) then
        let err := flushInputCache (wantID t) (inputCache t) in
        (call (DFinish err) t, Ok tt)
      else (t, Ok tt)
  end.

End diff.

(** Two parents, a dataset that accepts every call, and a diff that finds
    nothing to report. *)
Definition want0 : execute.DatasetID := execute.DatasetIDOf "want" 0.
Definition got0 : execute.DatasetID := execute.DatasetIDOf "got" 0.
Definition quietDataset : datasetCall → option errors.Error := λ _, None.
Definition quietDiff : GroupKey → tableBuffer → tableBuffer → option errors.Error :=
  λ _ _ _, None.
Definition parentFailed : errors.Error := errors.New codes.Internal "parent failed".

(** ** testing/diff.go: tables, [Process], the constructor, [diff] *)

(** [flux.ColType] *)
Inductive ColType :=
| TInvalid
| TBool
| TInt
| TUInt
| TFloat
| TString
| TTime.

#[global] Instance ColType_eq_dec : EqDecision ColType.
Proof. solve_decision. Defined.

Record ColMeta := mkColMeta { Label : string; Type_ : ColType }.

(** A table as [Process] and [copyTable] read it: its group key, the
    labels of the key columns, its columns, and the number of rows it
    hands out through [Do]. *)
Record Table := mkTable {
  Key : GroupKey;
  keyCols : list string;
  Cols : list ColMeta;
  tblLen : Z;
}.

(** [copyTable] makes a builder for every column outside the group key and
    gives up on a column type it does not know; the buffer counts the
    rows. *)
Definition copyTable (id : execute.DatasetID) (tbl : Table) : outcome tableBuffer :=
  if forallb (λ col,
                bool_decide (Label col ∈ keyCols tbl)
                || negb (bool_decide (Type_ col = TInvalid)))
             (Cols tbl)
  then Ok (mkTableBuffer id (tblLen tbl))
  else Fail (errors.New codes.Unimplemented "").

(** Modelled from the spec: [execute.RandomAccessGroupLookup], the input
    cache, defined in the execute package: a lookup by group key that
    keeps the order of insertion. [cacheDelete] takes the entry of a key
    out and hands its value back; [cacheSet] replaces the value of a key
    or adds the key at the end. *)
Fixpoint cacheDelete (key : GroupKey) (entries : list (GroupKey * tableBuffer))
  : option tableBuffer * list (GroupKey * tableBuffer) :=
  match entries with
  | [] => (None, [])
  | (k, v) :: rest =>
      if decide (k = key) then (Some v, rest)
      else let '(found, rest') := cacheDelete key rest in (found, (k, v) :: rest')
  end.

Fixpoint cacheSet (key : GroupKey) (value : tableBuffer)
    (entries : list (GroupKey * tableBuffer)) : list (GroupKey * tableBuffer) :=
  match entries with
  | [] => [(key, value)]
  | (k, v) :: rest =>
      if decide (k = key) then (k, value) :: rest
      else (k, v) :: cacheSet key value rest
  end.

Definition setInputCache (entries : list (GroupKey * tableBuffer))
    (t : DiffTransformation) : DiffTransformation :=
  mkDiffTransformation (wantID t) (gotID t) (parentState t) (d t) entries.

Section process.

Variable datasetAnswer : datasetCall → option errors.Error.
Variable diff : GroupKey → tableBuffer → tableBuffer → option errors.Error.

Definition diffOutcome (key : GroupKey) (want got : tableBuffer) : outcome unit :=
  match diff key want got with
  | Some err => Fail err
  | None => Ok tt
  end.

Definition Process (id : execute.DatasetID) (tbl : Table) (t : DiffTransformation)
  : DiffTransformation * outcome unit :=
  match parentState t !! id with
  | None => (t, Panic)
  | Some state =>
      if finished state then (t, Ok tt)
      else
        match copyTable id tbl with
        | Fail err => (t, Fail err)
        | Panic => (t, Panic)
        | Ok want =>
            let '(found, rest) := cacheDelete (Key tbl) (inputCache t) in
            let t := setInputCache rest t in
            match found with
            | None =>
                if negb (finished state) then
                  (setInputCache (cacheSet (Key tbl) want (inputCache t)) t, Ok tt)
                else
                  let got := emptyBuffer in
                  let '(want, got) :=
                    if decide (testing.id want = wantID t) then (want, got)
                    else (got, want) in
                  (t, diffOutcome (Key tbl) want got)
            | Some got =>
                let '(want, got) :=
                  if decide (testing.id want = wantID t) then (want, got)
                  else (got, want) in
                (t, diffOutcome (Key tbl) want got)
            end
        end
  end.

(** The calls a transport makes on the transformation, and the state they
    leave. *)
Inductive diffCall :=
| CallProcess (id : execute.DatasetID) (tbl : Table)
| CallUpdateWatermark (id : execute.DatasetID) (mark : Z)
| CallUpdateProcessingTime (id : execute.DatasetID) (mark : Z)
| CallFinish (id : execute.DatasetID) (err : option errors.Error).

Definition diffStep (t : DiffTransformation) (c : diffCall) : DiffTransformation :=
  match c with
  | CallProcess id tbl => (Process id tbl t).1
  | CallUpdateWatermark id mark => (UpdateWatermark datasetAnswer id mark t).1
  | CallUpdateProcessingTime id mark => (UpdateProcessingTime datasetAnswer id mark t).1
  | CallFinish id err => (Finish diff id err t).1
  end.

Definition diffCalls (t : DiffTransformation) (cs : list diffCall) : DiffTransformation :=
  foldl diffStep t cs.

End process.

(** *** The constructor *)

Section diff_spec.
Context {float64 : Type}.

Record DiffOpSpec := mkDiffOpSpec {
  Verbose : bool;
  Epsilon : float64;
  NaNsEqual : bool;
}.

Record DiffProcedureSpec := mkDiffProcedureSpec {
  procVerbose : bool;
  procEpsilon : float64;
}.

(** An operation spec or a procedure spec is the one of diff or that of
    another operation. *)
Inductive OperationSpec :=
| DiffOp (spec : DiffOpSpec)
| OtherOp (kind : string).

Inductive ProcedureSpec :=
| DiffProcedure (spec : DiffProcedureSpec)
| OtherProcedure (kind : string).

Definition newDiffProcedure (qs : OperationSpec) : outcome ProcedureSpec :=
  match qs with
  | DiffOp spec => Ok (DiffProcedure (mkDiffProcedureSpec (Verbose spec) (Epsilon spec)))
  | OtherOp kind => Fail (errors.New codes.Internal ("invalid spec type " +:+ kind))
  end.

(** The two fields of the transformation that steer the comparison of
    rows, kept beside [DiffTransformation]. *)
Record comparison := mkComparison {
  epsilon : float64;
  nansEqual : bool;
}.

(** [NewDiffTransformation] sets [epsilon] from the spec; [nansEqual] is
    not among the fields it sets and keeps its zero value. *)
Definition NewDiffTransformation_comparison (spec : DiffProcedureSpec) : comparison :=
  mkComparison (procEpsilon spec) false.

Definition createDiffTransformation (spec : ProcedureSpec)
    (parents : list execute.DatasetID) : outcome (DiffTransformation * comparison) :=
  if negb (length parents =? 2)%nat then
    Fail (errors.New codes.Internal "diff should have exactly 2 parents")
  else
    match spec with
    | DiffProcedure pspec =>
        match parents with
        | wantID :: gotID :: _ =>
            Ok (NewDiffTransformation wantID gotID, NewDiffTransformation_comparison pspec)
        | _ => Panic
        end
    | OtherProcedure _ => Fail (errors.New codes.Internal "invalid spec type <nil>")
    end.

End diff_spec.
Arguments DiffOpSpec : clear implicits.
Arguments DiffProcedureSpec : clear implicits.
Arguments OperationSpec : clear implicits.
Arguments ProcedureSpec : clear implicits.
Arguments comparison : clear implicits.

(** *** [diff] *)

Inductive diffSign := Minus | Plus.

Section diff_rows.

(** [rowEqual want got] for the two buffers given, and the rows appended
    to the output table: the sign and the index of the row taken from
    [want] (for [Minus]) or [got] (for [Plus]). *)
Variable rowEqual : Z → bool.

(** The first loop, over the rows below [sz]: where it stops, at the first
    row that is not equal or at the end. *)
Fixpoint firstUnequal (rows : list Z) (stop : Z) : Z :=
  match rows with
  | [] => stop
  | i :: rest => if rowEqual i then firstUnequal rest stop else i
  end.

(** [created] tells whether the table builder cache had no builder for the
    key yet; [schemaErr] is what [createSchema] returns. *)
Definition diffTable (created : bool) (schemaErr : option errors.Error)
    (wantSz gotSz : Z) : outcome (list (diffSign * Z)) :=
  let sz := if gotSz <? wantSz then gotSz else wantSz in
  let i := if wantSz =? gotSz then firstUnequal (seqZ 0 sz) (Z.max 0 sz) else 0 in
  if (wantSz =? gotSz) && (i =? sz) then Ok []
  else if negb created then
    Fail (errors.New codes.FailedPrecondition "duplicate table key")
  else
    match schemaErr with
    | Some err => Fail err
    | None =>
        Ok (flat_map (λ i, if rowEqual i then [] else [(Minus, i); (Plus, i)])
                     (seqZ i (sz - i))
            ++ ((λ i, (Minus, i)) <$> seqZ sz (wantSz - sz))
            ++ ((λ i, (Plus, i)) <$> seqZ sz (gotSz - sz)))
    end.

End diff_rows.

End testing.

(** ** universe/limit.go *)

Module universe.
Section limit.
Context {V : Type}.

#[local] Abbreviation ColReader := (arrow.TableBuffer V).
#[local] Abbreviation Chunk := (arrow.TableBuffer V).
(** What reaches the downstream writer or dataset: the column arrays. *)
#[local] Abbreviation Emitted := (list (list V)).

Record limitTransformation := mkLimit { n : Z; offset : Z }.

(** The column loop shared by both versions: keep the array when it
    already has [count] elements, slice it otherwise. *)
Definition keepOrSlice (count start stop : Z) (arr : list V) : option (list V) :=
  if Z.of_nat (length arr) =? count then Some arr
  else arrow.Slice arr start stop.

(** Loop state of the closure in [limitTable]: the locals [n] and
    [offset], and what has been written to the stream writer. *)
Record limitLoop := mkLoop {
  loop_n : Z;
  loop_offset : Z;
  written : list Emitted;
}.

Definition limitTable_body (cr : ColReader) (s : limitLoop) : option limitLoop :=
  if loop_n s <=? 0 then Some s
  else
    let l := arrow.Len cr in
    if l <=? loop_offset s then
      Some (mkLoop (loop_n s) (loop_offset s - l) (written s))
    else
      let start := loop_offset s in
      let stop := l in
      let count := stop - start in
      let '(count, stop) :=
        if count >? loop_n s then (loop_n s, start + loop_n s) else (count, stop) in
      vs ← mapM (keepOrSlice count start stop) (arrow.Values cr);
      Some (mkLoop (loop_n s - count) 0 (written s ++ [vs])).

(** [tbl.Do] hands the batches to the closure one after the other. *)
Fixpoint tblDo (tbl : list ColReader) (s : limitLoop) : option limitLoop :=
  match tbl with
  | [] => Some s
  | cr :: rest => s' ← limitTable_body cr s; tblDo rest s'
  end.

Definition limitTable (t : limitTransformation) (tbl : list ColReader)
  : option (list Emitted) :=
  written <$> tblDo tbl (mkLoop (n t) (offset t) []).

(** The narrow version. *)
Record limitState := mkState { st_n : Z; st_offset : Z }.

Definition processChunk (chunk : Chunk) (state : limitState) (dataset : list Emitted)
  : option (limitState * bool * list Emitted) :=
  let chunkLen := arrow.Len chunk in
  if (st_n state <=? 0) || (chunkLen =? 0) then
    vs ← mapM (keepOrSlice 0 0 0) (arrow.Values chunk);
    Some (state, true, dataset ++ [vs])
  else if chunkLen <=? st_offset state then
    Some (mkState (st_n state) (st_offset state - chunkLen), true, dataset)
  else
    let start := st_offset state in
    let stop := chunkLen in
    let count := stop - start in
    let '(count, stop) :=
      if count >? st_n state then (st_n state, start + st_n state) else (count, stop) in
    vs ← mapM (keepOrSlice count start stop) (arrow.Values chunk);
    Some (mkState (st_n state - count) 0, true, dataset ++ [vs]).

Definition Process (t : limitTransformation) (chunk : Chunk)
    (state : option limitState) (dataset : list Emitted)
  : option (limitState * bool * list Emitted) :=
  let state_ :=
    match state with
    | None => mkState (n t) (offset t)
    | Some s => s
    end in
  processChunk chunk state_ dataset.

(** The narrow state transformation feeds the chunks of one table to
    [Process], passing the returned state to the next call. *)
Fixpoint narrowRun (t : limitTransformation) (chunks : list Chunk)
    (state : option limitState) (dataset : list Emitted) : option (list Emitted) :=
  match chunks with
  | [] => Some dataset
  | c :: rest =>
      '(st, _, ds) ← Process t c state dataset;
      narrowRun t rest (Some st) ds
  end.

(** A batch is well formed when every column has [Len] elements. *)
Definition wfBuffer (b : arrow.TableBuffer V) : Prop :=
  0 ≤ arrow.Len b ∧ Forall (λ c, Z.of_nat (length c) = arrow.Len b) (arrow.Values b).

Definition zeroRows (e : Emitted) : Prop := Forall (λ c, c = []) e.

(** [padded l1 l2]: [l1] is [l2] with zero-row chunks put in between. *)
Inductive padded : list Emitted → list Emitted → Prop :=
| padded_nil : padded [] []
| padded_same e l1 l2 : padded l1 l2 → padded (e :: l1) (e :: l2)
| padded_empty e l1 l2 : zeroRows e → padded l1 l2 → padded (e :: l1) l2.

(** Column [j] of a batch, and of a whole stream of batches. *)
Definition column (j : nat) (e : Emitted) : list V := default [] (e !! j).
Definition streamColumn (j : nat) (es : list Emitted) : list V :=
  concat (column j <$> es).

End limit.
Arguments limitTransformation : clear implicits.
Arguments limitLoop : clear implicits.
Arguments limitState : clear implicits.

(** A table of two columns in three batches, the second one empty;
    [limit(n: 2, offset: 1)]. *)
Definition limit_sample : list (arrow.TableBuffer Z) :=
  [ arrow.mkTableBuffer 2 [[1; 2]; [10; 20]];
    arrow.mkTableBuffer 0 [[]; []];
    arrow.mkTableBuffer 3 [[3; 4; 5]; [30; 40; 50]] ].

(** A written batch with between 1 and [n] rows in every column. *)
Definition properBatch {V : Type} (n : Z) (e : list (list V)) : Prop :=
  ∃ c, 1 ≤ c ≤ n ∧ Forall (λ col, Z.of_nat (length col) = c) e.

(** ** universe/quantile.go: the digest free list of [QuantileAgg] *)

Section quantile.
Context {float64 : Type}.

(** [tdigest.ByteSizeForCompression], from the tdigest library. *)
Variable ByteSizeForCompression : float64 → Z.

(** A t-digest as the aggregate sees it: the samples added since it was
    created or last reset. *)
Record TDigest := mkTDigest { samples : list float64 }.

Definition NewWithCompression (comp : float64) : TDigest := mkTDigest [].
Definition Reset (d : TDigest) : TDigest := mkTDigest [].
Definition Add (x : float64) (d : TDigest) : TDigest := mkTDigest (samples d ++ [x]).

(** [freeDigests] is a slice: its elements and its capacity. [mem] is the
    allocator the aggregate accounts against.

    Modelled from the spec: [memory.Allocator.Account] is additive, so
    the allocator is the running sum of what has been accounted. *)
Record QuantileAgg := mkQuantileAgg {
  Quantile : float64;
  Compression : float64;
  freeDigests : list TDigest;
  freeCap : nat;
  mem : Z;
}.

Definition Account (size : Z) (a : QuantileAgg) : QuantileAgg :=
  mkQuantileAgg (Quantile a) (Compression a) (freeDigests a) (freeCap a) (mem a + size).

Definition setFreeDigests (l : list TDigest) (cap : nat) (a : QuantileAgg) : QuantileAgg :=
  mkQuantileAgg (Quantile a) (Compression a) l cap (mem a).

Definition NewQuantileAgg (q comp : float64) (mem : Z) (size : nat) : QuantileAgg :=
  mkQuantileAgg q comp [] size mem.

Definition popFreeDigest (a : QuantileAgg) : option TDigest * QuantileAgg :=
  if (length (freeDigests a) <? 1)%nat then (None, a)
  else
    let i := (length (freeDigests a) - 1)%nat in
    (freeDigests a !! i, setFreeDigests (take i (freeDigests a)) (freeCap a) a).

Definition pushFreeDigest (d : option TDigest) (a : QuantileAgg) : QuantileAgg :=
  match d with
  | Some d =>
      if (length (freeDigests a) <? freeCap a)%nat then
        setFreeDigests (freeDigests a ++ [Reset d]) (freeCap a) a
      else
        Account (ByteSizeForCompression (Compression a) * -1) a
  | None => a
  end.

(** [digest] is a pointer: [None] is nil. The [parent] pointer of every
    state is the one aggregate of the run, kept next to the states in
    [quantileRun]. *)
Record QuantileAggState := mkQuantileAggState {
  digest : option TDigest;
  ok : bool;
}.

Definition NewFloatAgg (a : QuantileAgg) : QuantileAggState * QuantileAgg :=
  if (0 <? length (freeDigests a))%nat then
    let '(d, a') := popFreeDigest a in
    (mkQuantileAggState d false, a')
  else
    (mkQuantileAggState (Some (NewWithCompression (Compression a))) false,
     Account (ByteSizeForCompression (Compression a)) a).

Definition QuantileAgg_Close (a : QuantileAgg) : QuantileAgg :=
  let a' :=
    foldr (λ _ acc, Account (ByteSizeForCompression (Compression a) * -1) acc)
          a (freeDigests a) in
  setFreeDigests [] 0 a'.

(** [DoFloat] over an array with nulls. A nil digest is a nil-pointer
    fault in the source; the calls below never meet one on a live state. *)
Definition DoFloat (vs : list (option float64)) (s : QuantileAggState) : QuantileAggState :=
  foldl (λ s v,
           match v with
           | Some x => mkQuantileAggState (Add x <$> digest s) true
           | None => s
           end) s vs.

Definition QuantileAggState_Close (s : QuantileAggState) (a : QuantileAgg)
  : QuantileAggState * QuantileAgg :=
  (mkQuantileAggState None (ok s), pushFreeDigest (digest s) a).

(** The aggregate together with the states it has handed out, and the
    calls a transformation makes on them. *)
Record quantileRun := mkQuantileRun {
  agg : QuantileAgg;
  states : list QuantileAggState;
}.

Inductive quantileCall :=
| CallNewFloatAgg
| CallDoFloat (k : nat) (vs : list (option float64))
| CallStateClose (k : nat)
| CallAggClose.

(** A call on a state that was never handed out cannot be made; it is
    skipped. *)
Definition quantileStep (w : quantileRun) (c : quantileCall) : quantileRun :=
  match c with
  | CallNewFloatAgg =>
      let '(s, a) := NewFloatAgg (agg w) in mkQuantileRun a (states w ++ [s])
  | CallDoFloat k vs =>
      match states w !! k with
      | Some s => mkQuantileRun (agg w) (<[k := DoFloat vs s]> (states w))
      | None => w
      end
  | CallStateClose k =>
      match states w !! k with
      | Some s =>
          let '(s', a) := QuantileAggState_Close s (agg w) in
          mkQuantileRun a (<[k := s']> (states w))
      | None => w
      end
  | CallAggClose => mkQuantileRun (QuantileAgg_Close (agg w)) (states w)
  end.

Definition quantileCalls (w : quantileRun) (cs : list quantileCall) : quantileRun :=
  foldl quantileStep w cs.

(** The states that still hold a digest, i.e. that have not been closed. *)
Definition openStates (w : quantileRun) : list QuantileAggState :=
  filter (λ s, is_Some (digest s)) (states w).

(** Closing every state handed out so far, in the order they were handed
    out. *)
Definition closeAll (w : quantileRun) : list quantileCall :=
  CallStateClose <$> seq 0 (length (states w)).

(** The bytes one digest is accounted with, and the number of digests
    that exist: those held by open states and those on the free list. *)
Definition digestBytes (w : quantileRun) : Z :=
  ByteSizeForCompression (Compression (agg w)).

Definition holds (s : QuantileAggState) : nat :=
  match digest s with Some _ => 1 | None => 0 end.

Definition digestsHeld (w : quantileRun) : Z :=
  Z.of_nat (length (openStates w)) + Z.of_nat (length (freeDigests (agg w))).

End quantile.
Arguments TDigest : clear implicits.
Arguments QuantileAgg : clear implicits.
Arguments QuantileAggState : clear implicits.
Arguments quantileRun : clear implicits.
Arguments quantileCall : clear implicits.

(** A run with compression 1000 on a one-column aggregate, with a
    stand-in for [ByteSizeForCompression] and an allocator that starts
    at 0. *)
Definition quantile_sample_bytes (comp : Z) : Z := 16 * comp.

Definition quantile_sample : quantileRun Z :=
  mkQuantileRun (NewQuantileAgg 0 1000 0 1) [].

(** ** universe/quantile.go: the exact quantile aggregate *)

Section exact_quantile.
Context {float64 : Type}.

(** [array.Float]: the raw value of every slot and whether the slot is
    valid (not null). *)
Record FloatArray := mkFloatArray { slots : list (float64 * bool) }.

Definition FloatArray_Len (vs : FloatArray) : nat := length (slots vs).
Definition NullN (vs : FloatArray) : nat :=
  length (filter (λ s : float64 * bool, s.2 = false) (slots vs)).
Definition Float64Values (vs : FloatArray) : list float64 := fst <$> slots vs.

(** The values of the valid slots, in order. *)
Definition validValues (vs : FloatArray) : list float64 :=
  fst <$> filter (λ s : float64 * bool, s.2 = true) (slots vs).

Record ExactQuantileAgg := mkExactQuantileAgg {
  exactQuantile : float64;
  data : list float64;
}.

Definition ExactQuantileAgg_Copy (a : ExactQuantileAgg) : ExactQuantileAgg :=
  mkExactQuantileAgg (exactQuantile a) [].

Definition ExactQuantileAgg_NewFloatAgg (a : ExactQuantileAgg) : ExactQuantileAgg :=
  ExactQuantileAgg_Copy a.

(** Without nulls the raw values are appended at once. Otherwise room is
    made first (a copy of [data] with a larger capacity, the same
    elements) and the valid values are appended one by one. *)
Definition ExactQuantileAgg_DoFloat (vs : FloatArray) (a : ExactQuantileAgg)
  : ExactQuantileAgg :=
  if (NullN vs =? 0)%nat then
    mkExactQuantileAgg (exactQuantile a) (data a ++ Float64Values vs)
  else
    foldl (λ (a : ExactQuantileAgg) (s : float64 * bool),
             if s.2 then mkExactQuantileAgg (exactQuantile a) (data a ++ [s.1])
             else a)
          a (slots vs).

Definition ExactQuantileAgg_IsNull (a : ExactQuantileAgg) : bool :=
  (length (data a) =? 0)%nat.

End exact_quantile.
Arguments FloatArray : clear implicits.
Arguments ExactQuantileAgg : clear implicits.

(** [QuantileAggState.IsNull] *)
Definition QuantileAggState_IsNull {float64 : Type} (s : QuantileAggState float64) : bool :=
  negb (ok s).

End universe.

(** ** The executor *)

(** *** Result names *)


(** A terminal node with a side effect is named after itself, one
    without gets the default name. *)
Example getResultName_samples :
  execute.getResultName (samples.node "to1" samples.toSpec [samples.from0] [])
    samples.toSpec false = Ok "to1"
  ∧ execute.getResultName samples.map2 (samples.opSpec "map") false = Ok "_result"
  ∧ execute.getResultName
      (samples.mergeNode "merge2" [samples.node "to1" samples.toSpec [samples.from0] ["merge2"]] [] 2)
      (samples.opSpec "merge") true = Ok "merge2".
Proof. done. Qed.

(** *** Abort *)


(** *** What the visitor does to the results map *)

Section visitor_facts.
Context (procedureToSource :
           plan.ProcedureKind →
           option (plan.ProcedureSpec → execute.DatasetID → execute.executionContext
                   → option errors.Error))
        (procedureToTransformation :
           plan.ProcedureKind →
           option (execute.DatasetID → plan.ProcedureSpec → execute.executionContext
                   → option errors.Error)).

#[local] Abbreviation keepsResults := execute.keepsResults.

Lemma keepsResults_ret {A : Type} (a : A) : keepsResults (mret a).
Proof. by intros v v' o [= <- _]. Qed.

Lemma keepsResults_liftO {A : Type} (o : outcome A) : keepsResults (execute.liftO o).
Proof. by intros v v' o' [= <- _]. Qed.

Lemma keepsResults_bind {A B : Type} (m : execute.M A) (f : A → execute.M B) :
  keepsResults m → (∀ a, keepsResults (f a)) → keepsResults (m ≫= f).
Proof.
  intros Hm Hf v v' o. unfold mbind, execute.M_bind.
  destruct (m v) as [v1 [a|e|]] eqn:Hmv.
  - intros Hfa. rewrite (Hf a _ _ _ Hfa). by eapply Hm.
  - intros [= <- _]. by eapply Hm.
  - intros [= <- _]. by eapply Hm.
Qed.

Lemma keepsResults_modify f :
  (∀ v, execute.results (execute.es (f v)) = execute.results (execute.es v)) →
  keepsResults (execute.modify f).
Proof. intros Hf v v' o [= <- _]. apply Hf. Qed.

Lemma keepsResults_forEach {A : Type} (l : list A) (body : A → execute.M unit) :
  (∀ x, keepsResults (body x)) → keepsResults (execute.forEach l body).
Proof.
  intros Hbody. induction l as [|x l IH]; cbn [execute.forEach].
  - apply keepsResults_ret.
  - apply keepsResults_bind; [apply Hbody|done].
Qed.

Lemma keepsResults_setNode id i n : keepsResults (execute.setNode id i n).
Proof. by apply keepsResults_modify. Qed.

Lemma keepsResults_getNode id k : keepsResults (execute.getNode id k).
Proof.
  intros v v' o. unfold execute.getNode.
  destruct (k <? 0); [by intros [= <- _]|].
  destruct (_ !! _); by intros [= <- _].
Qed.

Lemma keepsResults_AddTransformation id k n c :
  keepsResults (execute.AddTransformation id k n c).
Proof.
  destruct n; [apply keepsResults_setNode|apply keepsResults_liftO].
Qed.

Create HintDb keeps.
#[local] Hint Resolve keepsResults_ret keepsResults_liftO keepsResults_setNode
  keepsResults_getNode keepsResults_AddTransformation : keeps.

Lemma keepsResults_createSources node copies ec :
  keepsResults (execute.createSources procedureToSource node copies ec).
Proof.
  unfold execute.createSources.
  destruct (procedureToSource _) as [createSourceFn|]; [|auto with keeps].
  apply keepsResults_forEach. intros i.
  destruct (ec !! _) as [eci|]; [|auto with keeps].
  destruct (createSourceFn _ _ _); [auto with keeps|].
  apply keepsResults_bind; [by apply keepsResults_modify|auto with keeps].
Qed.

Lemma keepsResults_createTransformations node copies predCopies ec :
  keepsResults
    (execute.createTransformations procedureToTransformation node copies predCopies ec).
Proof.
  unfold execute.createTransformations.
  destruct (procedureToTransformation _) as [createTransformationFn|]; [|auto with keeps].
  apply keepsResults_forEach. intros i.
  destruct (ec !! _) as [eci|]; [|auto with keeps].
  destruct (createTransformationFn _ _ _); [auto with keeps|].
  apply keepsResults_bind; [auto with keeps|]. intros _.
  apply keepsResults_bind; [auto with keeps|]. intros preds.
  apply keepsResults_forEach. intros p.
  apply keepsResults_forEach. intros j.
  apply keepsResults_bind; [auto with keeps|]. intros executionNode.
  apply keepsResults_bind; [by apply keepsResults_modify|auto with keeps].
Qed.

Lemma keepsResults_instantiate node :
  keepsResults
    (execute.instantiate procedureToSource procedureToTransformation node).
Proof.
  unfold execute.instantiate.
  apply keepsResults_bind; [auto with keeps|]. intros ec.
  apply keepsResults_bind; [by apply keepsResults_modify|]. intros _.
  destruct (_ =? _)%nat;
    [apply keepsResults_createSources|apply keepsResults_createTransformations].
Qed.

(** The walk stops at the first visit that fails. *)
Lemma forEach_stops {A : Type} (before : list A) (x : A) (after : list A)
    (body : A → execute.M unit) v v1 v' e :
  execute.forEach before body v = (v1, Ok tt) →
  body x v1 = (v', Fail e) →
  execute.forEach (before ++ x :: after) body v = (v', Fail e).
Proof.
  revert v. induction before as [|y before IH]; intros v; cbn [execute.forEach app].
  - intros [= <-] Hx. unfold mbind, execute.M_bind. by rewrite Hx.
  - unfold mbind, execute.M_bind. destruct (body y v) as [v2 [[]|e2|]]; [|done..].
    apply IH.
Qed.

Lemma generateResult_taken v name node idx :
  is_Some (execute.results (execute.es v) !! name) →
  execute.generateResult name node idx v
  = (v, Fail (errors.New codes.Invalid
                ("tried to produce more than one result with the name " +:+ name))).
Proof. intros [r Hr]. unfold execute.generateResult. by rewrite Hr. Qed.

(** C5. When a name is already in the results map, registering a result
    under it fails with an error classified invalid and changes nothing:
    in [generateResult] itself, in the visit of a yield of that name, and
    in the visit of a terminal node that gets that name (the default
    name, or its own ID), where the sources or transformations have been
    created before but the results map is as it was. A visit that fails
    ends the walk, so graph construction fails with that error and
    [Execute] returns it wrapped. *)
Theorem duplicate_result_name_is_invalid (v : execute.createExecutionNodeVisitor)
    (name : string) :
  is_Some (execute.results (execute.es v) !! name) →
  (∀ node idx, ∃ e,
     execute.generateResult name node idx v = (v, Fail e)
     ∧ errors.Code e = codes.Invalid)
  ∧ (∀ node,
       plan.physical node = true →
       plan.YieldName (plan.ProcedureSpec_ node) = Some name →
       ∃ e, execute.Visit procedureToSource procedureToTransformation node v = (v, Fail e)
            ∧ errors.Code e = codes.Invalid)
  ∧ (∀ node v1,
       plan.physical node = true →
       plan.YieldName (plan.ProcedureSpec_ node) = None →
       plan.Successors node = [] →
       execute.getResultName node (plan.ProcedureSpec_ node)
         (bool_decide (is_Some (plan.ParallelMerge node))) = Ok name →
       execute.instantiate procedureToSource procedureToTransformation node v
         = (v1, Ok tt) →
       ∃ e, execute.Visit procedureToSource procedureToTransformation node v = (v1, Fail e)
            ∧ errors.Code e = codes.Invalid
            ∧ execute.results (execute.es v1) = execute.results (execute.es v))
  ∧ (∀ ambient p before node after v' e,
       plan.BottomUpOrder p = before ++ node :: after →
       execute.forEach before (execute.Visit procedureToSource procedureToTransformation)
         (execute.newVisitor p) = (v, Ok tt) →
       execute.Visit procedureToSource procedureToTransformation node v = (v', Fail e) →
       execute.createExecutionState procedureToSource procedureToTransformation ambient p
         = Fail e
       ∧ ∀ o, execute.Execute procedureToSource procedureToTransformation ambient o p
              = Some (execute.mkExecution
                        (Some (errors.Wrap e codes.Inherit
                                 "failed to initialize execute state"))
                        None None)).
Proof.
  intros Htaken. split_and!; [| | |
    intros ambient p before node after v' e Horder Hbefore Hvisit;
    assert (execute.createExecutionState procedureToSource procedureToTransformation
              ambient p = Fail e) as Hcreate
      by (unfold execute.createExecutionState, execute.BottomUpWalk;
          by rewrite Horder, (forEach_stops _ _ _ _ _ _ _ _ Hbefore Hvisit));
    split; [done|]; intros o; unfold execute.Execute; by rewrite Hcreate ].
  - intros node idx. eexists. by rewrite generateResult_taken.
  - intros node Hphys Hyield. eexists. unfold execute.Visit.
    rewrite Hphys, Hyield. cbn. by rewrite generateResult_taken.
  - intros node v1 Hphys Hyield Hsucc Hname Hinst.
    pose proof (keepsResults_instantiate node _ _ _ Hinst) as Hkeep.
    eexists. unfold execute.Visit. rewrite Hphys, Hyield, Hsucc. cbn.
    unfold mbind, execute.M_bind at 1. rewrite Hinst.
    unfold mbind, execute.M_bind, execute.liftO. rewrite Hname.
    rewrite generateResult_taken by (by rewrite Hkeep). done.
Qed.

End visitor_facts.

Lemma duplicate_result_name_is_invalid_witness :
  let v := execute.mkVisitor
             (execute.mkExecutionState samples.unset
                {[ "out" := execute.newResult "out" ]} [] [] None) ∅ in
  ∃ e, execute.Visit samples.procedureToSource samples.procedureToTransformation
         samples.yieldB v = (v, Fail e)
       ∧ errors.Code e = codes.Invalid.
Proof.
  intros v.
  refine (proj1 (proj2 (duplicate_result_name_is_invalid
            samples.procedureToSource samples.procedureToTransformation v "out" _))
            samples.yieldB _ _); [|reflexivity|reflexivity].
  exists (execute.newResult "out"). reflexivity.
Defined.

(** Two yields of one name, and a yield named as the default result next
    to a terminal node without a yield: both plans are refused, and
    [Execute] hands the error back classified invalid. *)
Example twoYields_refused :
  execute.createExecutionState samples.procedureToSource samples.procedureToTransformation
    None samples.twoYields
  = Fail (errors.New codes.Invalid "tried to produce more than one result with the name out")
  ∧ (execute.returnedErr <$>
       execute.Execute samples.procedureToSource samples.procedureToTransformation None
         samples.quietRun samples.twoYields)
    = Some (Some (errors.Wrap
         (errors.New codes.Invalid "tried to produce more than one result with the name out")
         codes.Inherit "failed to initialize execute state")).
Proof. split; vm_compute; reflexivity. Qed.

Example yieldAndDefault_refused :
  execute.createExecutionState samples.procedureToSource samples.procedureToTransformation
    None samples.yieldAndDefault
  = Fail (errors.New codes.Invalid
            "tried to produce more than one result with the name _result").
Proof. vm_compute. reflexivity. Qed.

(** *** Quota defaulting *)

Lemma wrap64_small z : - 2 ^ 63 ≤ z ≤ MaxInt64 → wrap64 z = z.
Proof.
  unfold wrap64, MaxInt64. intros Hz. rewrite Z.mod_small by lia. lia.
Qed.

Lemma internalNodes_cons n ns :
  execute.internalNodes (n :: ns)
  = if (0 <? length (plan.Predecessors n))%nat
    then n :: execute.internalNodes ns else execute.internalNodes ns.
Proof.
  unfold execute.internalNodes. rewrite filter_cons.
  destruct (plan.Predecessors n) as [|p ps]; cbn; by case_decide.
Qed.

Lemma sumFactors_cons n ns :
  execute.sumFactors (n :: ns)
  = (if (0 <? length (plan.Predecessors n))%nat then execute.parallelFactor n else 0)
    + execute.sumFactors ns.
Proof.
  unfold execute.sumFactors. rewrite internalNodes_cons.
  by destruct (0 <? _)%nat.
Qed.

Lemma sumFactors_nonneg ns :
  Forall (λ n, plan.physical n = true ∧ 0 ≤ execute.parallelFactor n)
         (execute.internalNodes ns) →
  0 ≤ execute.sumFactors ns.
Proof.
  unfold execute.sumFactors.
  induction 1 as [|n l [_ Hn] _ IH]; cbn; lia.
Qed.

(** With factors that are not negative and a total that fits in an [int],
    the walk adds up the factors of the nodes with a predecessor. *)
Lemma TopDownWalk_sum_total ns : ∀ acc,
  Forall (λ n, plan.physical n = true ∧ 0 ≤ execute.parallelFactor n)
         (execute.internalNodes ns) →
  0 ≤ acc → acc + execute.sumFactors ns ≤ MaxInt64 →
  execute.TopDownWalk_sum ns acc = Ok (acc + execute.sumFactors ns).
Proof.
  induction ns as [|n ns IH]; intros acc Hall Hacc Hmax.
  - cbn. f_equal. unfold execute.sumFactors. cbn. lia.
  - rewrite sumFactors_cons in *. rewrite internalNodes_cons in Hall.
    cbn [execute.TopDownWalk_sum]. unfold execute.addParallelFactor.
    destruct (0 <? length (plan.Predecessors n))%nat.
    + apply Forall_cons in Hall as [[Hphys Hf] Hall].
      pose proof (sumFactors_nonneg ns Hall) as Hrest.
      rewrite Hphys. cbn. fold (execute.parallelFactor n).
      rewrite wrap64_small by (unfold MaxInt64 in *; lia).
      rewrite IH by (try done; lia). f_equal. lia.
    + cbn. rewrite IH by (try done; lia). f_equal.
Qed.

(** One root, two transformations, and a context without execution
    dependencies: the quota is resolved to 2, not to the number of
    roots. *)
Lemma quota_without_dependencies_counts_transformations :
  ∃ es',
    execute.chooseDefaultResources None samples.linear
      (execute.mkExecutionState samples.unset ∅ [] [] None) = Ok es'
    ∧ plan.ConcurrencyQuota (execute.resources es') = 2
    ∧ Z.of_nat (length (plan.Roots samples.linear)) = 1.
Proof. eexists. split_and!; reflexivity. Qed.

(** C1, as amended. For a plan whose concurrency quota is unset, let [L]
    be the concurrency limit that [getResourceLimits] finds: that of the
    execution options, and the largest [int] when the context carries no
    execution dependencies. If [L] is not positive the quota is resolved to
    the number of roots. If [L] is positive it is resolved to the sum of
    the parallel-run factors of the nodes with a predecessor (1 where the
    attribute is absent), at most [L] and at least 1. The factors are
    taken not to be negative and their sum to fit in an [int]. *)
Theorem quota_defaulting (ambient : option execute.ExecutionOptions) (p : plan.Spec)
    (es : execute.executionState) :
  plan.ConcurrencyQuota (execute.resources es) = 0 →
  Forall (λ n, plan.physical n = true ∧ 0 ≤ execute.parallelFactor n)
         (execute.internalNodes (plan.TopDownOrder p)) →
  execute.sumFactors (plan.TopDownOrder p) ≤ MaxInt64 →
  let L := match ambient with
           | Some execOptions => execute.ConcurrencyLimit execOptions
           | None => MaxInt64
           end in
  ∃ es',
    execute.chooseDefaultResources ambient p es = Ok es'
    ∧ plan.ConcurrencyQuota (execute.resources es')
      = if 0 <? L
        then Z.min L (Z.max 1 (execute.sumFactors (plan.TopDownOrder p)))
        else Z.of_nat (length (plan.Roots p)).
Proof.
  intros Hunset Hall Hmax L.
  pose proof (sumFactors_nonneg _ Hall) as Hnonneg.
  unfold execute.chooseDefaultResources.
  assert (execute.getResourceLimits ambient
          = ((execute.getResourceLimits ambient).1, L)) as ->.
  { subst L. by destruct ambient. }
  rewrite Hunset. cbn [Z.eqb].
  rewrite Z.gtb_ltb. destruct (Z.ltb_spec 0 L) as [Hpos|Hnpos].
  - rewrite TopDownWalk_sum_total by (try done; lia). cbn.
    eexists. split; [done|]. cbn.
    set (s := execute.sumFactors (plan.TopDownOrder p)) in *.
    rewrite Z.gtb_ltb, !Z.add_0_l. clearbody L.
    destruct (Z.ltb_spec L s); [lia|].
    destruct (Z.eqb_spec s 0); lia.
  - eexists. split; [done|]. done.
Qed.

Lemma quota_defaulting_witness :
  ∃ es',
    execute.chooseDefaultResources (Some (execute.mkExecutionOptions 0 3)) samples.merged
      (execute.mkExecutionState samples.unset ∅ [] [] None) = Ok es'
    ∧ plan.ConcurrencyQuota (execute.resources es')
      = if 0 <? 3
        then Z.min 3 (Z.max 1 (execute.sumFactors (plan.TopDownOrder samples.merged)))
        else Z.of_nat (length (plan.Roots samples.merged)).
Proof.
  apply (quota_defaulting (Some (execute.mkExecutionOptions 0 3)) samples.merged
           (execute.mkExecutionState samples.unset ∅ [] [] None)).
  - reflexivity.
  - vm_compute. repeat constructor; discriminate.
  - vm_compute. discriminate.
Defined.

(** The three ways the limit comes out, on plans with 2 and with 4 as the
    sum of the factors. *)
Example quota_defaulting_samples :
  let quota ambient p :=
    match execute.chooseDefaultResources ambient p
            (execute.mkExecutionState samples.unset ∅ [] [] None) with
    | Ok es' => Some (plan.ConcurrencyQuota (execute.resources es'))
    | _ => None
    end in
  quota (Some (execute.mkExecutionOptions 0 0)) samples.linear = Some 1
  ∧ quota (Some (execute.mkExecutionOptions 0 8)) samples.linear = Some 2
  ∧ quota (Some (execute.mkExecutionOptions 0 3)) samples.merged = Some 3
  ∧ quota None samples.merged = Some 4
  ∧ quota (Some (execute.mkExecutionOptions 0 5)) samples.empty = Some 1.
Proof. cbn zeta. split_and!; reflexivity. Qed.

(** *** Replica wiring *)

(** Writing [g a], [g (a+1)], ... over a run of [n] entries that starts
    at index [base + a]. *)
Lemma fill_block {A : Type} (g : Z → A) (z : A) (base : Z) (n : nat) :
  ∀ a (pre rest : list A),
    0 ≤ base + a → length pre = Z.to_nat (base + a) →
    foldl (λ l j, <[Z.to_nat (base + j) := g j]> l)
          (pre ++ replicate n z ++ rest) (seqZ a (Z.of_nat n))
    = pre ++ (g <$> seqZ a (Z.of_nat n)) ++ rest.
Proof.
  induction n as [|n IH]; intros a pre rest Hpos Hpre; [done|].
  rewrite seqZ_cons by lia.
  replace (Z.pred (Z.of_nat (S n))) with (Z.of_nat n) by lia.
  cbn [foldl replicate fmap list_fmap app].
  rewrite insert_app_r_alt by lia.
  replace (Z.to_nat (base + a) - length pre)%nat with 0%nat by lia.
  cbn [insert list_insert].
  rewrite (cons_middle (g a) pre), (cons_middle (g a) pre (_ ++ rest)).
  rewrite !app_assoc, <- (app_assoc (pre ++ [g a])).
  rewrite IH; [by rewrite <- !app_assoc| lia |].
  rewrite length_app. cbn. lia.
Qed.

(** The two loops over the predecessors and their replicas, started on a
    slice whose first [off] blocks are filled already. *)
Lemma fill_parents (predCopies i : Z) (preds : list plan.Node) :
  0 ≤ predCopies →
  ∀ (off : nat) (pre : list execute.DatasetID),
    length pre = (off * Z.to_nat predCopies)%nat →
    foldl
      (λ parents '(pi, pred),
         foldl (λ parents j,
                  <[Z.to_nat (Z.of_nat pi * predCopies + j) :=
                      execute.datasetIDFromNodeID (plan.ID pred) (i + j)]> parents)
               parents (seqZ 0 predCopies))
      (pre ++ replicate (length preds * Z.to_nat predCopies) execute.ZeroDatasetID)
      (imap (λ k p, ((off + k)%nat, p)) preds)
    = pre ++ execute.wiredParents preds predCopies i.
Proof.
  intros Hpc. induction preds as [|p preds IH]; intros off pre Hpre.
  - done.
  - rewrite imap_cons. cbn [foldl length].
    replace (S (length preds) * Z.to_nat predCopies)%nat
      with (Z.to_nat predCopies + length preds * Z.to_nat predCopies)%nat by lia.
    rewrite replicate_add.
    pose proof (fill_block
                  (λ j, execute.datasetIDFromNodeID (plan.ID p) (i + j))
                  execute.ZeroDatasetID (Z.of_nat (off + 0) * predCopies)
                  (Z.to_nat predCopies) 0 pre
                  (replicate (length preds * Z.to_nat predCopies) execute.ZeroDatasetID))
      as Hblock.
    rewrite Z2Nat.id in Hblock by done. rewrite Hblock by lia. clear Hblock.
    rewrite app_assoc.
    rewrite (imap_ext _ (λ k q, ((S off + k)%nat, q)) preds)
      by (intros; cbn; f_equal; lia).
    rewrite IH.
    + by rewrite <- app_assoc.
    + rewrite length_app, length_fmap, length_seqZ. lia.
Qed.

Lemma buildParents_wired (node : plan.Node) (predCopies i : Z) (preds : list plan.Node) :
  0 ≤ predCopies →
  execute.nonYieldPredecessors node = Ok preds →
  execute.buildParents node predCopies i = Ok (execute.wiredParents preds predCopies i).
Proof.
  intros Hpc Hpreds. unfold execute.buildParents.
  rewrite (proj2 (Z.ltb_ge _ _)) by lia.
  rewrite Hpreds. cbn. f_equal.
  assert (length preds = length (plan.Predecessors node)) as <-.
  { unfold execute.nonYieldPredecessors in Hpreds.
    revert preds Hpreds. induction (plan.Predecessors node) as [|q qs IH]; intros preds.
    - by intros [= <-].
    - cbn. destruct (execute.skipYields q); cbn; [|done..].
      destruct (mapM execute.skipYields qs) eqn:E; cbn; [|done..].
      intros [= <-]. cbn. f_equal. by apply IH. }
  replace (Z.to_nat (Z.of_nat (length preds) * predCopies))
    with (length preds * Z.to_nat predCopies)%nat by lia.
  apply (fill_parents predCopies i preds Hpc 0 []). done.
Qed.

Lemma wiredParents_length preds predCopies i :
  0 ≤ predCopies →
  Z.of_nat (length (execute.wiredParents preds predCopies i))
  = Z.of_nat (length preds) * predCopies.
Proof.
  intros Hpc. unfold execute.wiredParents.
  induction preds as [|p preds IH]; cbn [flat_map length]; [lia|].
  rewrite length_app, length_fmap, length_seqZ. lia.
Qed.

Lemma outcome_mapM_pointwise {A B : Type} (f : A → outcome B) (g : A → B) (l : list A) :
  Forall (λ x, f x = Ok (g x)) l → mapM f l = Ok (g <$> l).
Proof.
  induction 1 as [|x l Hx _ IH]; [done|].
  cbn. rewrite Hx. cbn. rewrite IH. done.
Qed.

(** A filter that runs twice over a source that runs once: the second
    replica is wired to a second replica of the source, not to the one
    instance the source has, and building the graph panics. *)
Lemma parallel_replica_wants_matching_replica :
  ∃ c0 c1,
    execute.executionContexts samples.filterTwice = Ok [c0; c1]
    ∧ execute.parents c1 = [execute.datasetIDFromNodeID "from0" 1]
    ∧ execute.parents c1 ≠ [execute.datasetIDFromNodeID "from0" 0]
    ∧ length <$> execute.executionContexts samples.fromOnce = Ok 1%nat
    ∧ execute.createExecutionState samples.procedureToSource
        samples.procedureToTransformation None samples.lopsided = Panic.
Proof.
  do 2 eexists. split_and!; [reflexivity|reflexivity|discriminate|reflexivity|].
  vm_compute. reflexivity.
Qed.

(** C3, as amended. [Visit] builds one context per copy; replica [i] is
    group [i] of [copies], and its parents are, for every predecessor in
    declaration order (yields skipped), the [predCopies] replicas [i],
    [i+1], ... of that predecessor. So the parent list has (number of
    predecessors) times [predCopies] entries; without a merge attribute
    replica [i] is wired to replica [i] of every predecessor, the
    matching one; and the single replica of a merge node over one
    predecessor is wired to the replicas 0, ..., [predCopies]-1 of that
    predecessor, in this order. *)
Theorem replica_wiring (node : plan.Node) (preds : list plan.Node) :
  let copies := default 1 (plan.ParallelRun node) in
  let predCopies := default 1 (plan.ParallelMerge node) in
  0 ≤ copies → 0 ≤ predCopies →
  execute.nonYieldPredecessors node = Ok preds →
  ∃ ec,
    execute.executionContexts node = Ok ec
    ∧ Z.of_nat (length ec) = copies
    ∧ ∀ (i : nat) c, ec !! i = Some c →
        execute.parallelOpts c = execute.mkParallelOpts (Z.of_nat i) copies
        ∧ execute.parents c = execute.wiredParents preds predCopies (Z.of_nat i)
        ∧ Z.of_nat (length (execute.parents c)) = Z.of_nat (length preds) * predCopies
        ∧ (plan.ParallelMerge node = None →
             execute.parents c
             = (λ pred, execute.datasetIDFromNodeID (plan.ID pred) (Z.of_nat i)) <$> preds)
        ∧ (∀ p, preds = [p] → i = 0%nat →
             execute.parents c
             = execute.datasetIDFromNodeID (plan.ID p) <$> seqZ 0 predCopies).
Proof.
  intros copies predCopies Hc Hpc Hpreds.
  set (mk := λ i : Z, execute.mkExecutionContext
                        (execute.wiredParents preds predCopies i) (plan.Bounds_ node)
                        (execute.mkParallelOpts i copies)).
  exists (mk <$> seqZ 0 copies). split_and!.
  - unfold execute.executionContexts, execute.buildContexts. fold copies predCopies.
    rewrite (proj2 (Z.ltb_ge _ _)) by lia.
    apply outcome_mapM_pointwise, Forall_forall. intros i _.
    by rewrite (buildParents_wired node predCopies i preds Hpc Hpreds).
  - rewrite length_fmap, length_seqZ. lia.
  - intros i c. rewrite list_lookup_fmap.
    destruct (seqZ 0 copies !! i) as [z|] eqn:Hz; [|done].
    apply lookup_seqZ in Hz as [-> Hi]. cbn. intros [= <-]. subst mk. cbn.
    rewrite Z.add_0_l. split_and!; try done.
    + by apply wiredParents_length.
    + intros Hmerge. subst predCopies. rewrite Hmerge. cbn.
      unfold execute.wiredParents. clear.
      induction preds as [|p preds IH]; [done|].
      cbn [flat_map fmap list_fmap]. rewrite IH.
      change (seqZ 0 1) with [0]. cbn. by rewrite Z.add_0_r.
    + intros p -> ->. unfold execute.wiredParents. cbn. rewrite app_nil_r.
      apply list_fmap_ext. intros _ j _. by rewrite Z.add_0_l.
Qed.

Lemma replica_wiring_witness :
  ∃ ec,
    execute.executionContexts samples.merge2 = Ok ec
    ∧ Z.of_nat (length ec) = 1
    ∧ ∀ (i : nat) c, ec !! i = Some c →
        execute.parallelOpts c = execute.mkParallelOpts (Z.of_nat i) 1
        ∧ execute.parents c = execute.wiredParents [samples.filterThrice] 3 (Z.of_nat i)
        ∧ Z.of_nat (length (execute.parents c)) = Z.of_nat 1 * 3
        ∧ (plan.ParallelMerge samples.merge2 = None →
             execute.parents c
             = (λ pred, execute.datasetIDFromNodeID (plan.ID pred) (Z.of_nat i))
                 <$> [samples.filterThrice])
        ∧ (∀ p, [samples.filterThrice] = [p] → i = 0%nat →
             execute.parents c
             = execute.datasetIDFromNodeID (plan.ID p) <$> seqZ 0 3).
Proof.
  apply (replica_wiring samples.merge2 [samples.filterThrice]).
  - cbn. lia.
  - cbn. lia.
  - reflexivity.
Defined.

(** The contexts of the two parallel shapes, computed. *)
Example executionContexts_samples :
  fmap (M:=outcome) (fmap (M:=list) execute.parents) (execute.executionContexts samples.filterThrice)
  = Ok [ [execute.DatasetIDOf "from0" 0];
         [execute.DatasetIDOf "from0" 1];
         [execute.DatasetIDOf "from0" 2] ]
  ∧ fmap (M:=outcome) (fmap (M:=list) execute.parents) (execute.executionContexts samples.merge2)
    = Ok [ [execute.DatasetIDOf "filter1" 0; execute.DatasetIDOf "filter1" 1;
            execute.DatasetIDOf "filter1" 2] ].
Proof. split; reflexivity. Qed.

(** *** Execute *)

Section execute_facts.
Context (procedureToSource :
           plan.ProcedureKind →
           option (plan.ProcedureSpec → execute.DatasetID → execute.executionContext
                   → option errors.Error))
        (procedureToTransformation :
           plan.ProcedureKind →
           option (execute.DatasetID → plan.ProcedureSpec → execute.executionContext
                   → option errors.Error))
        (ambient : option execute.ExecutionOptions).

#[local] Abbreviation walk := (execute.BottomUpWalk procedureToSource procedureToTransformation).
#[local] Abbreviation create :=
  (execute.createExecutionState procedureToSource procedureToTransformation ambient).
#[local] Abbreviation Execute :=
  (execute.Execute procedureToSource procedureToTransformation ambient).

Lemma validate_zero_quota es :
  plan.ConcurrencyQuota (execute.resources es) = 0 →
  execute.validate es
  = Some (errors.New codes.Invalid "execution state must have a non-zero concurrency quota").
Proof. intros H. unfold execute.validate. by rewrite H. Qed.

Lemma validate_Some es e :
  execute.validate es = Some e →
  plan.ConcurrencyQuota (execute.resources es) = 0 ∧ errors.Code e = codes.Invalid.
Proof.
  unfold execute.validate.
  destruct (Z.eqb_spec (plan.ConcurrencyQuota (execute.resources es)) 0); [|done].
  by intros [= <-].
Qed.

(** Construction fails exactly when the walk fails, or the walk goes
    through and validation fails. *)
Lemma createExecutionState_Fail p e :
  create p = Fail e ↔
    (∃ v, walk p (execute.newVisitor p) = (v, Fail e))
    ∨ (∃ v es' e',
         walk p (execute.newVisitor p) = (v, Ok tt)
         ∧ execute.chooseDefaultResources ambient p (execute.es v) = Ok es'
         ∧ execute.validate es' = Some e'
         ∧ e = errors.Wrap e' codes.Invalid "execution state")
    ∨ (∃ v, walk p (execute.newVisitor p) = (v, Ok tt)
            ∧ execute.chooseDefaultResources ambient p (execute.es v) = Fail e).
Proof.
  unfold execute.createExecutionState.
  destruct (walk p _) as [v [[]|e0|]] eqn:Hwalk;
    [destruct (execute.chooseDefaultResources _ _ _) as [es'|e1|] eqn:Hres; cbn;
       [destruct (execute.validate es') as [e'|] eqn:Hval|..]|..];
    (split;
     [ intros ?; simplify_eq; eauto 10
     | intros [(v' & ?)|[(v' & es'' & e'' & ? & ? & ? & ?)|(v' & ? & ?)]];
       subst; congruence ]).
Qed.

Lemma TopDownWalk_sum_never_fails ns : ∀ acc e,
  execute.TopDownWalk_sum ns acc ≠ Fail e.
Proof.
  induction ns as [|n ns IH]; intros acc e; [done|].
  cbn [execute.TopDownWalk_sum]. unfold execute.addParallelFactor.
  destruct (0 <? _)%nat; [destruct (plan.physical n)|]; cbn; try done; apply IH.
Qed.

Lemma chooseDefaultResources_never_fails p es e :
  execute.chooseDefaultResources ambient p es ≠ Fail e.
Proof.
  unfold execute.chooseDefaultResources.
  destruct (execute.getResourceLimits ambient) as [m L].
  destruct (_ =? 0); [|done]. destruct (L >? 0); [|done].
  pose proof (TopDownWalk_sum_never_fails (plan.TopDownOrder p) 0) as Hsum.
  destruct (execute.TopDownWalk_sum _ _); cbn; [done| |done].
  intros [= <-]. by eapply Hsum.
Qed.


End execute_facts.

(** A plan that runs: the result is handed out and nothing is returned as
    an error, also when the run fails; then the result is failed with the
    error of the run. *)
Example Execute_linear :
  let run o :=
    execute.Execute samples.procedureToSource samples.procedureToTransformation None
      o samples.linear in
  execute.returnedErr <$> run samples.quietRun = Some None
  ∧ (execute.returnedResults <$> run samples.quietRun)
    = Some (Some {[ "_result" := execute.mkResult "_result" None ]})
  ∧ execute.started <$> run samples.quietRun
    = Some (Some (execute.mkLaunch [execute.DatasetIDOf "from0" 0] 2))
  ∧ execute.returnedErr <$> run samples.failingRun = Some None
  ∧ (execute.returnedResults <$> run samples.failingRun)
    = Some (Some {[ "_result" :=
                      execute.mkResult "_result"
                        (Some (errors.New codes.Internal "process failed")) ]}).
Proof. cbn zeta. split_and!; vm_compute; reflexivity. Qed.

(** A plan without nodes and a limit of 0: the quota stays 0 and the call
    is refused before anything is started. *)
Example Execute_zero_quota :
  execute.Execute samples.procedureToSource samples.procedureToTransformation
    (Some (execute.mkExecutionOptions 0 0)) samples.failingRun samples.empty
  = Some (execute.mkExecution
            (Some (errors.Wrap
                     (errors.Wrap
                        (errors.New codes.Invalid
                           "execution state must have a non-zero concurrency quota")
                        codes.Invalid "execution state")
                     codes.Inherit "failed to initialize execute state"))
            None None).
Proof. vm_compute. reflexivity. Qed.
(** ** More on the executor *)

(** *** Yields *)

Lemma Node_first_predecessor_ind (P : plan.Node → Prop) :
  (∀ n, match plan.Predecessors n with
        | p :: _ => P p
        | [] => True
        end → P n) →
  ∀ n, P n.
Proof.
  intros Hstep. fix IH 1. intros n. apply Hstep.
  destruct n as [ph id spec bounds preds succs run merge trigger]. cbn.
  destruct preds as [|p rest]; [exact I|apply IH].
Qed.

Lemma skipYields_unfold (n : plan.Node) :
  execute.skipYields n
  = match plan.YieldName (plan.ProcedureSpec_ n) with
    | Some _ =>
        match plan.Predecessors n with
        | [] => Panic
        | p :: _ => execute.skipYields p
        end
    | None => Ok n
    end.
Proof. by destruct n. Qed.

Lemma skipYields_non_yield (n : plan.Node) :
  plan.YieldName (plan.ProcedureSpec_ n) = None → execute.skipYields n = Ok n.
Proof. intros Hn. by rewrite skipYields_unfold, Hn. Qed.

Lemma skipYields_Ok (n m : plan.Node) :
  execute.skipYields n = Ok m →
  plan.YieldName (plan.ProcedureSpec_ m) = None ∧ execute.skipYields m = Ok m.
Proof.
  revert m. induction n as [n IH] using Node_first_predecessor_ind. intros m.
  rewrite skipYields_unfold.
  destruct (plan.YieldName (plan.ProcedureSpec_ n)) as [name|] eqn:Hn.
  - destruct (plan.Predecessors n) as [|p rest]; [done|]. apply IH.
  - intros [= <-]. split; [done|]. by apply skipYields_non_yield.
Qed.

(** X19. [skipYields] leaves a node that is not a yield as it is, and from
    a yield it follows the first predecessors down to the first node that
    is not a yield; what it returns is never a yield, and skipping again
    changes nothing. It never fails with an error: it returns, or it
    panics on a yield without predecessors. *)
Theorem skipYields_reaches_non_yield (n : plan.Node) :
  (plan.YieldName (plan.ProcedureSpec_ n) = None → execute.skipYields n = Ok n)
  ∧ (∀ m, execute.skipYields n = Ok m →
       plan.YieldName (plan.ProcedureSpec_ m) = None ∧ execute.skipYields m = Ok m)
  ∧ (∀ e, execute.skipYields n ≠ Fail e)
  ∧ (∀ name p rest,
       plan.YieldName (plan.ProcedureSpec_ n) = Some name →
       plan.Predecessors n = p :: rest →
       execute.skipYields n = execute.skipYields p).
Proof.
  split_and!.
  - apply skipYields_non_yield.
  - intros m. apply skipYields_Ok.
  - induction n as [n IH] using Node_first_predecessor_ind. intros e.
    rewrite skipYields_unfold.
    destruct (plan.YieldName (plan.ProcedureSpec_ n)); [|done].
    destruct (plan.Predecessors n) as [|p rest]; [done|]. apply IH.
  - intros name p rest Hn Hp. by rewrite skipYields_unfold, Hn, Hp.
Qed.

Lemma outcome_mapM_Ok {A B : Type} (f : A → outcome B) (l : list A) (k : list B) :
  mapM f l = Ok k → Forall2 (λ x y, f x = Ok y) l k.
Proof.
  revert k. induction l as [|x l IH]; intros k; cbn.
  - intros [= <-]. constructor.
  - destruct (f x) as [y| |] eqn:Hx; cbn; [|done..].
    destruct (mapM f l) as [k'| |]; cbn; [|done..].
    intros [= <-]. constructor; [done|]. by apply IH.
Qed.



(** *** What a visit does to the run state *)

Section visit_more.
Context (procedureToSource :
           plan.ProcedureKind →
           option (plan.ProcedureSpec → execute.DatasetID → execute.executionContext
                   → option errors.Error))
        (procedureToTransformation :
           plan.ProcedureKind →
           option (execute.DatasetID → plan.ProcedureSpec → execute.executionContext
                   → option errors.Error)).

#[local] Abbreviation Visit := (execute.Visit procedureToSource procedureToTransformation).
#[local] Abbreviation instantiate :=
  (execute.instantiate procedureToSource procedureToTransformation).
#[local] Abbreviation walk :=
  (execute.BottomUpWalk procedureToSource procedureToTransformation).

Lemma preserves_ret {A : Type} P (a : A) : execute.preserves P (mret a).
Proof. by intros v v' o HP [= <- _]. Qed.

Lemma preserves_liftO {A : Type} P (o : outcome A) : execute.preserves P (execute.liftO o).
Proof. by intros v v' o' HP [= <- _]. Qed.

Lemma preserves_bind {A B : Type} P (m : execute.M A) (f : A → execute.M B) :
  execute.preserves P m → (∀ a, execute.preserves P (f a)) →
  execute.preserves P (m ≫= f).
Proof.
  intros Hm Hf v v' o HP. unfold mbind, execute.M_bind.
  destruct (m v) as [v1 [a|e|]] eqn:Hmv.
  - intros Hfa. eapply Hf; [|exact Hfa]. by eapply Hm.
  - intros [= <- _]. by eapply Hm.
  - intros [= <- _]. by eapply Hm.
Qed.

Lemma preserves_forEach {A : Type} P (l : list A) (body : A → execute.M unit) :
  (∀ x, execute.preserves P (body x)) → execute.preserves P (execute.forEach l body).
Proof.
  intros Hbody. induction l as [|x l IH]; cbn [execute.forEach].
  - apply preserves_ret.
  - apply preserves_bind; [apply Hbody|done].
Qed.

Lemma preserves_modify P f : (∀ v, P v → P (f v)) → execute.preserves P (execute.modify f).
Proof. intros Hf v v' o HP [= <- _]. by apply Hf. Qed.

Lemma preserves_getNode P id k : execute.preserves P (execute.getNode id k).
Proof.
  intros v v' o HP. unfold execute.getNode.
  destruct (k <? 0); [by intros [= <- _]|].
  destruct (_ !! _); by intros [= <- _].
Qed.

(** A property of the results map alone is kept by what keeps the map. *)
Lemma preserves_of_keeps {A : Type} (Q : gmap string execute.result → Prop)
    (m : execute.M A) :
  execute.keepsResults m →
  execute.preserves (λ v, Q (execute.results (execute.es v))) m.
Proof. intros Hkeep v v' o HQ Hm. by rewrite (Hkeep v v' o Hm). Qed.

(** ... and a property of the execution state is kept by what touches
    the [nodes] of the visitor only. *)
Lemma preserves_setNode (Q : execute.executionState → Prop) id i n :
  execute.preserves (λ v, Q (execute.es v)) (execute.setNode id i n).
Proof. by apply preserves_modify. Qed.

Lemma preserves_AddTransformation (Q : execute.executionState → Prop) id k n c :
  execute.preserves (λ v, Q (execute.es v)) (execute.AddTransformation id k n c).
Proof. destruct n; [apply preserves_setNode|apply preserves_liftO]. Qed.

Lemma preserves_modifyEs (Q : execute.executionState → Prop) f :
  (∀ e, Q e → Q (f e)) →
  execute.preserves (λ v, Q (execute.es v)) (execute.modifyEs f).
Proof. intros Hf. apply preserves_modify. intros v. apply Hf. Qed.

(** [generateResult] adds the fresh result of the name, or nothing. *)
Lemma generateResult_results name node idx v v' o :
  execute.generateResult name node idx v = (v', o) →
  execute.results (execute.es v') = execute.results (execute.es v)
  ∨ (execute.results (execute.es v) !! name = None
     ∧ execute.results (execute.es v')
       = <[name := execute.newResult name]> (execute.results (execute.es v))).
Proof.
  unfold execute.generateResult.
  destruct (execute.results (execute.es v) !! name) as [r|] eqn:Hname.
  - intros [= <- _]. by left.
  - intros Hrun. right. split; [done|].
    set (v1 := execute.mkVisitor
                 (execute.setResults
                    (<[name := execute.newResult name]> (execute.results (execute.es v)))
                    (execute.es v)) (execute.nodes v)).
    assert (execute.keepsResults
              (target ← execute.liftO (execute.skipYields node);
               n ← execute.getNode (plan.ID target) idx;
               execute.AddTransformation (plan.ID target) idx n
                 (execute.ConsumerResult name))) as Hkeep.
    { apply keepsResults_bind; [apply keepsResults_liftO|]. intros target.
      apply keepsResults_bind; [apply keepsResults_getNode|]. intros n.
      apply keepsResults_AddTransformation. }
    unfold mbind at 1, execute.M_bind at 1 in Hrun. cbn in Hrun.
    fold v1 in Hrun. by rewrite (Hkeep v1 v' o Hrun).
Qed.

(** The two properties a visit keeps, for a results map [R] to start from:
    the results of [R] are still there, and every other result is the
    fresh result of its name. *)
Lemma generateResult_preserves (R : gmap string execute.result) name node idx :
  execute.preserves
    (λ v, R ⊆ execute.results (execute.es v)
          ∧ ∀ k r, execute.results (execute.es v) !! k = Some r →
                   R !! k = Some r ∨ r = execute.newResult k)
    (execute.generateResult name node idx).
Proof.
  intros v v' o [Hsub Hnew] Hrun.
  destruct (generateResult_results _ _ _ _ _ _ Hrun) as [->|[Hfresh ->]]; [done|].
  split.
  - etrans; [exact Hsub|]. by apply insert_subseteq.
  - intros k r [[<- <-]|[_ Hk]]%lookup_insert_Some; [by right|by apply Hnew].
Qed.

Lemma Visit_preserves (R : gmap string execute.result) node :
  execute.preserves
    (λ v, R ⊆ execute.results (execute.es v)
          ∧ ∀ k r, execute.results (execute.es v) !! k = Some r →
                   R !! k = Some r ∨ r = execute.newResult k)
    (Visit node).
Proof.
  unfold execute.Visit.
  destruct (negb (plan.physical node)); [apply preserves_liftO|].
  destruct (plan.YieldName _); [apply generateResult_preserves|].
  apply preserves_bind.
  - apply (preserves_of_keeps
             (λ rs, R ⊆ rs ∧ ∀ k r, rs !! k = Some r → R !! k = Some r
                                    ∨ r = execute.newResult k)).
    apply keepsResults_instantiate.
  - intros _. destruct (_ =? _)%nat; [|apply preserves_ret].
    apply preserves_bind; [apply preserves_liftO|]. intros name.
    apply generateResult_preserves.
Qed.

(** The results after a walk from the fresh visitor, however it ends. *)
Lemma walk_fresh_results p vp op k r :
  walk p (execute.newVisitor p) = (vp, op) →
  execute.results (execute.es vp) !! k = Some r →
  r = execute.newResult k.
Proof.
  intros Hwalk Hk.
  assert (∅ ⊆ execute.results (execute.es vp)
          ∧ ∀ k r, execute.results (execute.es vp) !! k = Some r →
                   (∅ : gmap string execute.result) !! k = Some r
                   ∨ r = execute.newResult k) as [_ Hnew].
  { eapply (preserves_forEach _ (plan.BottomUpOrder p) Visit
              (λ n, Visit_preserves ∅ n) (execute.newVisitor p) vp op); [|done].
    split; [done|]. cbn. intros k' r'. by rewrite lookup_empty. }
  destruct (Hnew k r Hk) as [Hempty|]; [|done]. by rewrite lookup_empty in Hempty.
Qed.

(** The rest of the execution state: a visit leaves the run context and
    the resources alone, and appends to the sources and transports. *)
Lemma frame_addSource c R S T s e :
  execute.frame c R S T e → execute.frame c R S T (execute.addSource s e).
Proof.
  intros (? & ? & ? & ?). split_and!; [done|done| |done].
  cbn. by apply prefix_app_r.
Qed.

Lemma frame_addTransport c R S T t e :
  execute.frame c R S T e → execute.frame c R S T (execute.addTransport t e).
Proof.
  intros (? & ? & ? & ?). split_and!; [done|done|done|].
  cbn. by apply prefix_app_r.
Qed.

Lemma frame_setResults c R S T rs e :
  execute.frame c R S T e → execute.frame c R S T (execute.setResults rs e).
Proof. by intros (? & ? & ? & ?). Qed.

Lemma createSources_frame c R S T node copies ec :
  execute.preserves (λ v, execute.frame c R S T (execute.es v))
    (execute.createSources procedureToSource node copies ec).
Proof.
  unfold execute.createSources.
  destruct (procedureToSource _) as [createSourceFn|]; [|apply preserves_liftO].
  apply preserves_forEach. intros i.
  destruct (ec !! _) as [eci|]; [|apply preserves_liftO].
  destruct (createSourceFn _ _ _); [apply preserves_liftO|].
  apply preserves_bind.
  - apply (preserves_modifyEs (execute.frame c R S T)). intros e. apply frame_addSource.
  - intros _. apply (preserves_setNode (execute.frame c R S T)).
Qed.

Lemma createTransformations_frame c R S T node copies predCopies ec :
  execute.preserves (λ v, execute.frame c R S T (execute.es v))
    (execute.createTransformations procedureToTransformation node copies predCopies ec).
Proof.
  unfold execute.createTransformations.
  destruct (procedureToTransformation _) as [createTransformationFn|];
    [|apply preserves_liftO].
  apply preserves_forEach. intros i.
  destruct (ec !! _) as [eci|]; [|apply preserves_liftO].
  destruct (createTransformationFn _ _ _); [apply preserves_liftO|].
  apply preserves_bind; [apply (preserves_setNode (execute.frame c R S T))|]. intros _.
  apply preserves_bind; [apply preserves_liftO|]. intros preds.
  apply preserves_forEach. intros p.
  apply preserves_forEach. intros j.
  apply preserves_bind; [apply preserves_getNode|]. intros executionNode.
  apply preserves_bind.
  - apply (preserves_modifyEs (execute.frame c R S T)). intros e. apply frame_addTransport.
  - intros _. apply (preserves_AddTransformation (execute.frame c R S T)).
Qed.

Lemma generateResult_frame c R S T name node idx :
  execute.preserves (λ v, execute.frame c R S T (execute.es v))
    (execute.generateResult name node idx).
Proof.
  intros v v' o HP. unfold execute.generateResult.
  destruct (execute.results (execute.es v) !! name); [by intros [= <- _]|].
  revert HP. generalize (<[name := execute.newResult name]> (execute.results (execute.es v))).
  intros rs HP.
  apply (preserves_bind (λ v, execute.frame c R S T (execute.es v))); [| |done].
  - apply (preserves_modifyEs (execute.frame c R S T)). intros e. apply frame_setResults.
  - intros _. apply preserves_bind; [apply preserves_liftO|]. intros target.
    apply preserves_bind; [apply preserves_getNode|]. intros n.
    apply (preserves_AddTransformation (execute.frame c R S T)).
Qed.

Lemma Visit_frame c R S T node :
  execute.preserves (λ v, execute.frame c R S T (execute.es v)) (Visit node).
Proof.
  unfold execute.Visit.
  destruct (negb (plan.physical node)); [apply preserves_liftO|].
  destruct (plan.YieldName _); [apply generateResult_frame|].
  apply preserves_bind.
  - unfold execute.instantiate.
    apply preserves_bind; [apply preserves_liftO|]. intros ec.
    apply preserves_bind; [by apply preserves_modify|]. intros _.
    destruct (_ =? _)%nat; [apply createSources_frame|apply createTransformations_frame].
  - intros _. destruct (_ =? _)%nat; [|apply preserves_ret].
    apply preserves_bind; [apply preserves_liftO|]. intros name.
    apply generateResult_frame.
Qed.

Lemma frame_refl e :
  execute.frame (execute.ctxErr e) (execute.resources e) (execute.sources e)
    (execute.transports e) e.
Proof. done. Qed.

Lemma walk_frame p vp op :
  walk p (execute.newVisitor p) = (vp, op) →
  execute.ctxErr (execute.es vp) = None
  ∧ execute.resources (execute.es vp) = plan.Resources p.
Proof.
  intros Hwalk.
  destruct (preserves_forEach _ (plan.BottomUpOrder p) Visit
              (λ n, Visit_frame None (plan.Resources p) [] [] n)
              (execute.newVisitor p) vp op) as (? & ? & _); [|done|done].
  apply (frame_refl (execute.es (execute.newVisitor p))).
Qed.

(** X21. However a visit ends, the results registered before it are still
    registered, unchanged, and a result it has added is the fresh result
    of its name: [Visit] never removes, replaces or fails a result. *)
Theorem Visit_only_adds_fresh_results (node : plan.Node)
    (v v' : execute.createExecutionNodeVisitor) (o : outcome unit) :
  Visit node v = (v', o) →
  execute.results (execute.es v) ⊆ execute.results (execute.es v')
  ∧ (∀ k r, execute.results (execute.es v') !! k = Some r →
       execute.results (execute.es v) !! k = Some r ∨ r = execute.newResult k).
Proof.
  intros Hrun.
  eapply (Visit_preserves (execute.results (execute.es v)) node v v' o); [|done].
  split; [done|]. intros. by left.
Qed.

(** X22. However a visit ends, it has left the run context and the
    resources of the execution state as they were, and the sources and
    transports registered before are still there, in their places: new
    ones are appended. *)
Theorem Visit_appends_sources_and_transports (node : plan.Node)
    (v v' : execute.createExecutionNodeVisitor) (o : outcome unit) :
  Visit node v = (v', o) →
  execute.ctxErr (execute.es v') = execute.ctxErr (execute.es v)
  ∧ execute.resources (execute.es v') = execute.resources (execute.es v)
  ∧ execute.sources (execute.es v) `prefix_of` execute.sources (execute.es v')
  ∧ execute.transports (execute.es v) `prefix_of` execute.transports (execute.es v').
Proof.
  intros Hrun.
  by eapply (Visit_frame _ _ _ _ node v v' o (frame_refl (execute.es v))).
Qed.

End visit_more.

Lemma Visit_only_adds_fresh_results_witness :
  let V := execute.Visit samples.procedureToSource samples.procedureToTransformation in
  let v := (V samples.fromA (execute.newVisitor samples.twoYields)).1 in
  let v' := (V samples.yieldA v).1 in
  V samples.yieldA v = (v', Ok tt)
  ∧ execute.results (execute.es v) ⊆ execute.results (execute.es v')
  ∧ (∀ k r, execute.results (execute.es v') !! k = Some r →
       execute.results (execute.es v) !! k = Some r ∨ r = execute.newResult k).
Proof.
  intros V v v'.
  assert (V samples.yieldA v = (v', Ok tt)) as Hrun by (by vm_compute).
  split; [exact Hrun|].
  exact (Visit_only_adds_fresh_results samples.procedureToSource
           samples.procedureToTransformation samples.yieldA v v' (Ok tt) Hrun).
Defined.

Lemma Visit_appends_sources_and_transports_witness :
  let V := execute.Visit samples.procedureToSource samples.procedureToTransformation in
  let v := (V samples.from0 (execute.newVisitor samples.linear)).1 in
  let v' := (V samples.filter1 v).1 in
  V samples.filter1 v = (v', Ok tt)
  ∧ execute.ctxErr (execute.es v') = execute.ctxErr (execute.es v)
  ∧ execute.resources (execute.es v') = execute.resources (execute.es v)
  ∧ execute.sources (execute.es v) `prefix_of` execute.sources (execute.es v')
  ∧ execute.transports (execute.es v) `prefix_of` execute.transports (execute.es v').
Proof.
  intros V v v'.
  assert (V samples.filter1 v = (v', Ok tt)) as Hrun by (by vm_compute).
  split; [exact Hrun|].
  exact (Visit_appends_sources_and_transports samples.procedureToSource
           samples.procedureToTransformation samples.filter1 v v' (Ok tt) Hrun).
Defined.

(** *** Resources, construction and the run *)

Section executor_more.
Context (procedureToSource :
           plan.ProcedureKind →
           option (plan.ProcedureSpec → execute.DatasetID → execute.executionContext
                   → option errors.Error))
        (procedureToTransformation :
           plan.ProcedureKind →
           option (execute.DatasetID → plan.ProcedureSpec → execute.executionContext
                   → option errors.Error))
        (ambient : option execute.ExecutionOptions).

#[local] Abbreviation create :=
  (execute.createExecutionState procedureToSource procedureToTransformation ambient).
#[local] Abbreviation Execute :=
  (execute.Execute procedureToSource procedureToTransformation ambient).

(** [chooseDefaultResources] writes to the resources only. *)
Lemma chooseDefaultResources_resources p es es' :
  execute.chooseDefaultResources ambient p es = Ok es' →
  ∃ R, es' = execute.setResources R es.
Proof.
  unfold execute.chooseDefaultResources.
  destruct (execute.getResourceLimits ambient) as [m L].
  destruct (plan.ConcurrencyQuota (execute.resources es) =? 0); [destruct (L >? 0)|].
  - destruct (execute.TopDownWalk_sum _ _); cbn; [|done..].
    intros [= <-]. eauto.
  - intros [= <-]. eauto.
  - intros [= <-]. eauto.
Qed.

(** X23. [chooseDefaultResources] changes nothing but the resources, and
    of these only a quota that is unset: a memory quota or a concurrency
    quota other than 0 is kept, and a memory quota of 0 becomes the
    default memory limit of the execution options, which is 0 when the
    context has none. *)
Theorem chooseDefaultResources_keeps_set_quotas (p : plan.Spec)
    (es es' : execute.executionState) :
  execute.chooseDefaultResources ambient p es = Ok es' →
  execute.results es' = execute.results es
  ∧ execute.sources es' = execute.sources es
  ∧ execute.transports es' = execute.transports es
  ∧ execute.ctxErr es' = execute.ctxErr es
  ∧ (plan.MemoryBytesQuota (execute.resources es) ≠ 0 →
     plan.MemoryBytesQuota (execute.resources es')
     = plan.MemoryBytesQuota (execute.resources es))
  ∧ (plan.MemoryBytesQuota (execute.resources es) = 0 →
     plan.MemoryBytesQuota (execute.resources es')
     = from_option execute.DefaultMemoryLimit 0 ambient)
  ∧ (plan.ConcurrencyQuota (execute.resources es) ≠ 0 →
     plan.ConcurrencyQuota (execute.resources es')
     = plan.ConcurrencyQuota (execute.resources es)).
Proof.
  intros Hres.
  destruct (chooseDefaultResources_resources _ _ _ Hres) as [R HR].
  split_and!; [by subst..| | |].
  - intros Hmem. revert Hres. unfold execute.chooseDefaultResources.
    destruct (execute.getResourceLimits ambient) as [m L].
    apply Z.eqb_neq in Hmem. rewrite Hmem.
    destruct (plan.ConcurrencyQuota (execute.resources es) =? 0); [destruct (L >? 0)|].
    + destruct (execute.TopDownWalk_sum _ _); cbn; [|done..]. by intros [= <-].
    + by intros [= <-].
    + by intros [= <-].
  - intros Hmem. revert Hres. unfold execute.chooseDefaultResources.
    assert (from_option execute.DefaultMemoryLimit 0 ambient
            = (execute.getResourceLimits ambient).1) as -> by by destruct ambient.
    destruct (execute.getResourceLimits ambient) as [m L].
    rewrite Hmem. cbn [Z.eqb].
    destruct (plan.ConcurrencyQuota (execute.resources es) =? 0); [destruct (L >? 0)|].
    + destruct (execute.TopDownWalk_sum _ _); cbn; [|done..]. by intros [= <-].
    + by intros [= <-].
    + by intros [= <-].
  - intros Hquota. revert Hres. unfold execute.chooseDefaultResources.
    destruct (execute.getResourceLimits ambient) as [m L].
    apply Z.eqb_neq in Hquota. rewrite Hquota. by intros [= <-].
Qed.

(** X24. Choosing the default resources a second time changes nothing:
    the state that [chooseDefaultResources] returns is the state it
    returns when it is called on that state. *)
Theorem chooseDefaultResources_twice (p : plan.Spec) (es es' : execute.executionState) :
  execute.chooseDefaultResources ambient p es = Ok es' →
  execute.chooseDefaultResources ambient p es' = Ok es'.
Proof.
  unfold execute.chooseDefaultResources.
  destruct (execute.getResourceLimits ambient) as [m L].
  destruct es as [[mem quota] rs srcs ts c].
  cbn [execute.resources plan.MemoryBytesQuota plan.ConcurrencyQuota].
  set (mem' := if mem =? 0 then m else mem).
  assert ((if mem' =? 0 then m else mem') = mem') as Hmem.
  { subst mem'. destruct (Z.eqb_spec mem 0) as [->|Hmem].
    - by destruct (m =? 0) eqn:Hm; [apply Z.eqb_eq in Hm|].
    - by destruct (Z.eqb_spec mem 0). }
  destruct (Z.eqb_spec quota 0) as [->|Hquota].
  - destruct (L >? 0) eqn:HL.
    + destruct (execute.TopDownWalk_sum _ _) as [q| |] eqn:Hsum;
        cbn [mbind outcome_mbind outcome_bind]; [|done..].
      intros [= <-].
      cbn [execute.resources plan.MemoryBytesQuota plan.ConcurrencyQuota
           execute.setResources].
      rewrite Hmem.
      by match goal with |- (if ?b then _ else _) = _ => destruct b end.
    + intros [= <-].
      cbn [execute.resources plan.MemoryBytesQuota plan.ConcurrencyQuota
           execute.setResources].
      rewrite Hmem.
      by match goal with |- (if ?b then _ else _) = _ => destruct b end.
  - intros [= <-].
    cbn [execute.resources plan.MemoryBytesQuota plan.ConcurrencyQuota
         execute.setResources].
    rewrite Hmem. by destruct (Z.eqb_spec quota 0).
Qed.

(** What construction hands to the run, when it succeeds. *)
Lemma createExecutionState_Ok p es :
  create p = Ok es →
  plan.ConcurrencyQuota (execute.resources es) ≠ 0
  ∧ execute.ctxErr es = None
  ∧ (∀ k r, execute.results es !! k = Some r → r = execute.newResult k).
Proof.
  unfold execute.createExecutionState.
  destruct (execute.BottomUpWalk _ _ _ _) as [v [[]|e0|]] eqn:Hwalk; [|done..].
  destruct (execute.chooseDefaultResources _ _ _) as [es1|e1|] eqn:Hres; cbn; [|done..].
  destruct (execute.validate es1) as [e'|] eqn:Hval; [done|]. intros [= <-].
  destruct (chooseDefaultResources_resources _ _ _ Hres) as [R ->].
  split_and!.
  - unfold execute.validate in Hval.
    destruct (Z.eqb_spec (plan.ConcurrencyQuota
                            (execute.resources (execute.setResources R (execute.es v)))) 0);
      done.
  - cbn. by destruct (walk_frame _ _ _ _ _ Hwalk).
  - cbn. intros k r. by apply (walk_fresh_results _ _ _ _ _ _ _ Hwalk).
Qed.


End executor_more.

Lemma chooseDefaultResources_keeps_set_quotas_witness :
  let es := execute.mkExecutionState (plan.mkResources 0 7) ∅ [] [] None in
  let es' := execute.mkExecutionState (plan.mkResources 1024 7) ∅ [] [] None in
  let ambient := Some (execute.mkExecutionOptions 1024 4) in
  execute.chooseDefaultResources ambient samples.linear es = Ok es'
  ∧ execute.results es' = execute.results es
  ∧ execute.sources es' = execute.sources es
  ∧ execute.transports es' = execute.transports es
  ∧ execute.ctxErr es' = execute.ctxErr es
  ∧ (plan.MemoryBytesQuota (execute.resources es) ≠ 0 →
     plan.MemoryBytesQuota (execute.resources es')
     = plan.MemoryBytesQuota (execute.resources es))
  ∧ (plan.MemoryBytesQuota (execute.resources es) = 0 →
     plan.MemoryBytesQuota (execute.resources es')
     = from_option execute.DefaultMemoryLimit 0 ambient)
  ∧ (plan.ConcurrencyQuota (execute.resources es) ≠ 0 →
     plan.ConcurrencyQuota (execute.resources es')
     = plan.ConcurrencyQuota (execute.resources es)).
Proof.
  intros es es' ambient.
  split; [reflexivity|].
  apply (chooseDefaultResources_keeps_set_quotas ambient samples.linear es es').
  reflexivity.
Defined.

Lemma chooseDefaultResources_twice_witness :
  let es := execute.mkExecutionState samples.unset ∅ [] [] None in
  let es' := execute.mkExecutionState (plan.mkResources 0 2) ∅ [] [] None in
  execute.chooseDefaultResources None samples.linear es = Ok es'
  ∧ execute.chooseDefaultResources None samples.linear es' = Ok es'.
Proof.
  intros es es'.
  split; [reflexivity|].
  apply (chooseDefaultResources_twice None samples.linear es es').
  reflexivity.
Defined.


(** *** The watcher *)

Lemma watchTransport_quiet o es k :
  execute.aborting (execute.selects o k) = false → execute.watchTransport o es k = es.
Proof.
  unfold execute.watchTransport, execute.aborting.
  by destruct (execute.selects o k) as [|err|[err|]].
Qed.

Lemma watch_quiet o (ks : list nat) : ∀ es,
  Forall (λ k, execute.aborting (execute.selects o k) = false) ks →
  foldl (execute.watchTransport o) es ks = es.
Proof.
  induction ks as [|k ks IH]; intros es Hks; [done|].
  cbn. rewrite watchTransport_quiet by exact (Forall_inv Hks).
  apply IH. exact (Forall_inv_tail Hks).
Qed.

Lemma result_abort_twice e e' (rs : gmap string execute.result) :
  execute.result_abort e' <$> (execute.result_abort e <$> rs)
  = execute.result_abort e' <$> rs.
Proof. rewrite <- map_fmap_compose. by apply map_fmap_ext. Qed.

Lemma abort_aborted es0 es err :
  es = es0 ∨ execute.aborted es0 es → execute.aborted es0 (execute.abort err es).
Proof.
  intros [->|(e & c & -> & Hc)].
  - exists err, (default execute.contextCanceled (execute.ctxErr es0)).
    split; [done|]. by intros c0 ->.
  - exists err, c. split; [|done].
    unfold execute.abort, execute.cancel, execute.setResults. cbn.
    by rewrite result_abort_twice.
Qed.

Lemma contextDone_aborted es0 es err :
  es = es0 ∨ execute.aborted es0 es →
  execute.aborted es0
    (execute.abort (default err (execute.ctxErr (execute.contextDone err es)))
       (execute.contextDone err es)).
Proof.
  intros [->|(e & c & -> & Hc)].
  - exists (default err (execute.ctxErr es0)), (default err (execute.ctxErr es0)).
    split; [done|]. by intros c0 ->.
  - exists c, c. split; [|done].
    unfold execute.abort, execute.cancel, execute.setResults, execute.contextDone. cbn.
    by rewrite result_abort_twice.
Qed.

Lemma watchTransport_step o es0 es k :
  es = es0 ∨ execute.aborted es0 es →
  (execute.aborting (execute.selects o k) = false ∧ execute.watchTransport o es k = es)
  ∨ (execute.aborting (execute.selects o k) = true
     ∧ execute.aborted es0 (execute.watchTransport o es k)).
Proof.
  intros Hes. destruct (execute.aborting (execute.selects o k)) eqn:Hab.
  - right. split; [done|]. revert Hab. unfold execute.watchTransport, execute.aborting.
    destruct (execute.selects o k) as [|err|[err|]]; [done| | |].
    + intros _. by apply contextDone_aborted.
    + intros _. by apply abort_aborted.
    + intros Hab. apply bool_decide_eq_true in Hab. by destruct Hab.
  - left. split; [done|]. by apply watchTransport_quiet.
Qed.

Lemma watch_aborted o es0 (ks : list nat) : ∀ es,
  es = es0 ∨ execute.aborted es0 es →
  Exists (λ k, execute.aborting (execute.selects o k) = true) ks
  ∨ execute.aborted es0 es →
  execute.aborted es0 (foldl (execute.watchTransport o) es ks).
Proof.
  induction ks as [|k ks IH]; intros es Hes Hab; cbn.
  - destruct Hab as [Hab|Hab]; [by apply Exists_nil in Hab|done].
  - destruct (watchTransport_step o es0 es k Hes) as [[Hq Hk]|[Hq Hk]].
    + rewrite Hk. apply IH; [done|].
      destruct Hab as [Hab|Hab]; [|by right]. left.
      apply Exists_cons in Hab as [Hab|Hab]; [congruence|done].
    + apply IH; by right.
Qed.

Lemma watch_inv o es (ks : list nat) :
  foldl (execute.watchTransport o) es ks = es
  ∨ execute.aborted es (foldl (execute.watchTransport o) es ks).
Proof.
  induction ks as [|k ks IH] using rev_ind; [by left|].
  rewrite foldl_app. cbn.
  destruct (watchTransport_step o es _ k IH) as [[_ ->]|[_ ?]]; [done|by right].
Qed.

Lemma watcher_quiet o es :
  (∀ k, execute.aborting (execute.selects o k) = false) →
  execute.stopErr o = None →
  execute.watcher o es = es.
Proof.
  intros Hquiet Hstop. unfold execute.watcher. rewrite Hstop.
  apply watch_quiet, Forall_forall. intros k _. apply Hquiet.
Qed.

Lemma watcher_inv o es :
  execute.watcher o es = es ∨ execute.aborted es (execute.watcher o es).
Proof.
  unfold execute.watcher.
  destruct (execute.stopErr o); [right; apply abort_aborted|]; apply watch_inv.
Qed.

Lemma watcher_stop_aborted o es :
  is_Some (execute.stopErr o) → execute.aborted es (execute.watcher o es).
Proof.
  intros [err Hstop]. unfold execute.watcher. rewrite Hstop.
  apply abort_aborted, watch_inv.
Qed.

(** X26. When no transport meets a done context or a dispatcher error and
    the dispatcher stops without an error, the watcher leaves the
    execution state as it is: no result is failed and the run context is
    not cancelled. *)
Theorem watcher_quiet_run_changes_nothing (o : execute.runOracle)
    (es : execute.executionState) :
  (∀ k, (k < length (execute.transports es))%nat →
        execute.aborting (execute.selects o k) = false) →
  execute.stopErr o = None →
  execute.watcher o es = es.
Proof.
  intros Hquiet Hstop. unfold execute.watcher. rewrite Hstop.
  apply watch_quiet. apply Forall_forall. intros k Hk%elem_of_seq.
  apply Hquiet. lia.
Qed.

Lemma watcher_quiet_run_changes_nothing_witness :
  let es := execute.mkExecutionState (plan.mkResources 0 2)
              {[ "_result" := execute.newResult "_result" ]} []
              [execute.mkTransport (execute.DatasetIDOf "filter1" 0) "filter1"] None in
  execute.watcher samples.quietRun es = es.
Proof.
  intros es. apply (watcher_quiet_run_changes_nothing samples.quietRun es).
  - intros k _. reflexivity.
  - reflexivity.
Defined.



(** *** Sources, unregistered kinds and the whole run *)

Section run_more.
Context (procedureToSource :
           plan.ProcedureKind →
           option (plan.ProcedureSpec → execute.DatasetID → execute.executionContext
                   → option errors.Error))
        (procedureToTransformation :
           plan.ProcedureKind →
           option (execute.DatasetID → plan.ProcedureSpec → execute.executionContext
                   → option errors.Error))
        (ambient : option execute.ExecutionOptions).

#[local] Abbreviation Visit := (execute.Visit procedureToSource procedureToTransformation).
#[local] Abbreviation instantiate :=
  (execute.instantiate procedureToSource procedureToTransformation).
#[local] Abbreviation Execute :=
  (execute.Execute procedureToSource procedureToTransformation ambient).

(** The execution node of replica [i] of a source. *)
#[local] Abbreviation sourceNode node :=
  (λ i : Z, Some (execute.mkNode (execute.datasetIDFromNodeID (plan.ID node) i)
                    (plan.ID node) None [])).

(** A node without predecessors gets one context per copy, without
    parents. *)
Lemma source_contexts node :
  plan.Predecessors node = [] →
  0 ≤ default 1 (plan.ParallelRun node) →
  execute.executionContexts node
  = Ok ((λ i, execute.mkExecutionContext [] (plan.Bounds_ node)
                (execute.mkParallelOpts i (default 1 (plan.ParallelRun node))))
          <$> seqZ 0 (default 1 (plan.ParallelRun node))).
Proof.
  intros Hpreds Hcopies. unfold execute.executionContexts, execute.buildContexts.
  destruct (Z.ltb_spec (default 1 (plan.ParallelRun node)) 0); [lia|].
  apply outcome_mapM_pointwise, Forall_forall. intros i _.
  unfold execute.buildParents, execute.nonYieldPredecessors. by rewrite Hpreds.
Qed.

(** The loop of [createSources] from replica [a] on, when the
    constructor does not fail. *)
Lemma createSources_loop node createSourceFn (ec : list execute.executionContext)
    (n : nat) :
  (∀ id eci, createSourceFn (plan.ProcedureSpec_ node) id eci = None) →
  ∀ a v l,
    0 ≤ a →
    (∀ i, a ≤ i < a + Z.of_nat n → is_Some (ec !! Z.to_nat i)) →
    execute.nodes v !! plan.ID node = Some l →
    execute.forEach (seqZ a (Z.of_nat n))
      (λ i,
         let id := execute.datasetIDFromNodeID (plan.ID node) i in
         match ec !! Z.to_nat i with
         | None => execute.liftO Panic
         | Some eci =>
             match createSourceFn (plan.ProcedureSpec_ node) id eci with
             | Some err => execute.liftO (Fail err)
             | None =>
                 execute.modifyEs (execute.addSource id);;
                 execute.setNode (plan.ID node) i
                   (execute.mkNode id (plan.ID node) None [])
             end
         end) v
    = (execute.mkVisitor
         (execute.mkExecutionState (execute.resources (execute.es v))
            (execute.results (execute.es v))
            (execute.sources (execute.es v)
             ++ (execute.datasetIDFromNodeID (plan.ID node) <$> seqZ a (Z.of_nat n)))
            (execute.transports (execute.es v)) (execute.ctxErr (execute.es v)))
         (<[plan.ID node :=
              foldl (λ l i, <[Z.to_nat (0 + i) := sourceNode node i]> l) l
                (seqZ a (Z.of_nat n))]> (execute.nodes v)),
       Ok tt).
Proof.
  intros Hfn. induction n as [|n IH]; intros a v l Ha Hec Hl.
  - cbn. rewrite app_nil_r, insert_id by done. by destruct v as [[]].
  - rewrite seqZ_cons by lia.
    replace (Z.pred (Z.of_nat (S n))) with (Z.of_nat n) by lia.
    cbn [execute.forEach fmap list_fmap foldl].
    destruct (Hec a ltac:(lia)) as [eci Heci].
    unfold mbind at 1, execute.M_bind at 1. rewrite Heci, Hfn.
    unfold mbind at 1, execute.M_bind at 1. cbn [execute.modifyEs execute.modify].
    unfold execute.setNode at 1, execute.modify at 1.
    cbn [execute.nodes execute.es]. rewrite Hl. cbn [default].
    rewrite (IH (Z.succ a) _ (<[Z.to_nat a := sourceNode node a]> l));
      [| lia | intros i Hi; apply Hec; lia | exact (lookup_insert_eq _ _ _)].
    cbn [execute.es execute.nodes execute.addSource execute.resources execute.results
         execute.sources execute.transports execute.ctxErr].
    by rewrite insert_insert_eq, <- app_assoc.
Qed.

(** X28. Instantiating a node without predecessors whose source
    constructor is registered and does not fail creates one source per
    copy, replica [0] first: the sources are appended to those of the
    state, with the IDs of the replicas, and the node's replicas are the
    execution nodes of these sources. Nothing else of the state
    changes. *)
Theorem source_node_creates_a_source_per_copy (node : plan.Node)
    createSourceFn (v : execute.createExecutionNodeVisitor) :
  plan.Predecessors node = [] →
  0 ≤ default 1 (plan.ParallelRun node) →
  procedureToSource (plan.Kind (plan.ProcedureSpec_ node)) = Some createSourceFn →
  (∀ id eci, createSourceFn (plan.ProcedureSpec_ node) id eci = None) →
  instantiate node v
  = (execute.mkVisitor
       (execute.mkExecutionState (execute.resources (execute.es v))
          (execute.results (execute.es v))
          (execute.sources (execute.es v)
           ++ (execute.datasetIDFromNodeID (plan.ID node)
                 <$> seqZ 0 (default 1 (plan.ParallelRun node))))
          (execute.transports (execute.es v)) (execute.ctxErr (execute.es v)))
       (<[plan.ID node := sourceNode node <$> seqZ 0 (default 1 (plan.ParallelRun node))]>
          (execute.nodes v)),
     Ok tt).
Proof.
  intros Hpreds Hcopies Hreg Hfn. unfold execute.instantiate.
  rewrite (source_contexts node Hpreds Hcopies).
  unfold mbind at 1, execute.M_bind at 1. cbn [execute.liftO].
  unfold mbind at 1, execute.M_bind at 1. cbn [execute.modify].
  rewrite Hpreds. cbn [length Nat.eqb].
  unfold execute.createSources. rewrite Hreg.
  set (copies := default 1 (plan.ParallelRun node)) in *. clearbody copies.
  destruct (Z_of_nat_complete copies Hcopies) as [n ->]. rewrite Nat2Z.id.
  rewrite (createSources_loop node createSourceFn _ n Hfn 0 _ (replicate n None));
    [|done| |exact (lookup_insert_eq _ _ _)].
  - cbn [execute.es execute.nodes]. rewrite insert_insert_eq.
    pose proof (fill_block (sourceNode node) None 0 n 0 [] []
                  ltac:(done) ltac:(done)) as Hfill.
    rewrite !app_nil_r in Hfill. cbn [app] in Hfill. by rewrite Hfill.
  - intros i Hi. apply lookup_lt_is_Some. rewrite length_fmap, length_seqZ. lia.
Qed.

(** X29. A physical node that is not a yield and whose kind has no
    constructor registered (a source constructor for a node without
    predecessors, a transformation constructor otherwise) makes [Visit]
    fail with a plain error that names the kind, once its execution
    contexts have been built: the slice for its replicas has been made,
    and the execution state is as it was. *)
Theorem unregistered_kind_is_refused (node : plan.Node)
    (v : execute.createExecutionNodeVisitor) (ec : list execute.executionContext) :
  plan.physical node = true →
  plan.YieldName (plan.ProcedureSpec_ node) = None →
  execute.executionContexts node = Ok ec →
  (if (length (plan.Predecessors node) =? 0)%nat
   then procedureToSource (plan.Kind (plan.ProcedureSpec_ node)) = None
   else procedureToTransformation (plan.Kind (plan.ProcedureSpec_ node)) = None) →
  ∃ v' e,
    Visit node v = (v', Fail e)
    ∧ execute.es v' = execute.es v
    ∧ errors.Code e = codes.Unknown
    ∧ e = errors.Errorf
            ((if (length (plan.Predecessors node) =? 0)%nat
              then "unsupported source kind " else "unsupported procedure ")
             +:+ plan.Kind (plan.ProcedureSpec_ node)).
Proof.
  intros Hphys Hyield Hec Hreg.
  unfold execute.Visit. rewrite Hphys, Hyield. cbn [negb].
  unfold execute.instantiate. rewrite Hec.
  unfold execute.createSources, execute.createTransformations.
  destruct (length (plan.Predecessors node) =? 0)%nat; rewrite Hreg;
    by eexists _, _.
Qed.


End run_more.

Lemma source_node_creates_a_source_per_copy_witness :
  let v := execute.newVisitor samples.merged in
  execute.instantiate samples.procedureToSource samples.procedureToTransformation
    samples.fromThrice v
  = (execute.mkVisitor
       (execute.mkExecutionState (execute.resources (execute.es v))
          (execute.results (execute.es v))
          (execute.sources (execute.es v)
           ++ (execute.datasetIDFromNodeID (plan.ID samples.fromThrice)
                 <$> seqZ 0 (default 1 (plan.ParallelRun samples.fromThrice))))
          (execute.transports (execute.es v)) (execute.ctxErr (execute.es v)))
       (<[plan.ID samples.fromThrice :=
            (λ i : Z, Some (execute.mkNode
                              (execute.datasetIDFromNodeID (plan.ID samples.fromThrice) i)
                              (plan.ID samples.fromThrice) None []))
              <$> seqZ 0 (default 1 (plan.ParallelRun samples.fromThrice))]>
          (execute.nodes v)),
     Ok tt).
Proof.
  intros v.
  apply (source_node_creates_a_source_per_copy samples.procedureToSource
           samples.procedureToTransformation samples.fromThrice (λ _ _ _, None) v).
  - reflexivity.
  - cbn. lia.
  - reflexivity.
  - reflexivity.
Defined.

Lemma unregistered_kind_is_refused_witness :
  let node := samples.node "window1" (samples.opSpec "window") [samples.from0] [] in
  let v := (execute.Visit samples.procedureToSource samples.procedureToTransformation
              samples.from0 (execute.newVisitor samples.linear)).1 in
  ∃ v' e,
    execute.Visit samples.procedureToSource samples.procedureToTransformation node v
    = (v', Fail e)
    ∧ execute.es v' = execute.es v
    ∧ errors.Code e = codes.Unknown
    ∧ e = errors.Errorf
            ((if (length (plan.Predecessors node) =? 0)%nat
              then "unsupported source kind " else "unsupported procedure ")
             +:+ plan.Kind (plan.ProcedureSpec_ node)).
Proof.
  intros node v.
  apply (unregistered_kind_is_refused samples.procedureToSource
           samples.procedureToTransformation node v
           [execute.mkExecutionContext [execute.DatasetIDOf "from0" 0] None
              (execute.mkParallelOpts 0 1)]).
  - reflexivity.
  - reflexivity.
  - reflexivity.
  - reflexivity.
Defined.

(** ** The diff transformation *)

Section diff_facts.
Context (datasetAnswer : testing.datasetCall → option errors.Error)
        (diff : testing.GroupKey → testing.tableBuffer → testing.tableBuffer
                → option errors.Error).
Implicit Types (ps : gmap execute.DatasetID testing.diffParentState).
Implicit Types (t : testing.DiffTransformation) (id : execute.DatasetID).

(** The loop leaves a lower bound of all the values it met, and one of
    them unless it is still at its start. *)
Lemma minOver_bound (f : testing.diffParentState → Z) ps :
  testing.minOver f ps ≤ MaxInt64
  ∧ (∀ k s, ps !! k = Some s → testing.minOver f ps ≤ f s)
  ∧ (testing.minOver f ps = MaxInt64
     ∨ ∃ k s, ps !! k = Some s ∧ testing.minOver f ps = f s).
Proof.
  unfold testing.minOver.
  apply (map_fold_weak_ind
           (λ r m, r ≤ MaxInt64
                   ∧ (∀ k s, m !! k = Some s → r ≤ f s)
                   ∧ (r = MaxInt64 ∨ ∃ k s, m !! k = Some s ∧ r = f s))).
  - split_and!; [done| |by left]. intros k s. by rewrite lookup_empty.
  - intros i x m r Hi (Hmax & Hlow & Hwit).
    destruct (Z.ltb_spec (f x) r) as [Hlt|Hge].
    + split_and!; [lia| |].
      * intros k s [[-> ->]|[_ Hk]]%lookup_insert_Some; [lia|].
        specialize (Hlow k s Hk). lia.
      * right. exists i, x. by rewrite lookup_insert_eq.
    + split_and!; [done| |].
      * intros k s [[-> ->]|[_ Hk]]%lookup_insert_Some; [lia|exact (Hlow k s Hk)].
      * destruct Hwit as [->|(k & s & Hk & ->)]; [by left|].
        right. exists k, s. split; [|done].
        rewrite lookup_insert_ne; [done|]. intros ->. congruence.
Qed.

(** Over a map that is not empty and holds [int64] values, the loop gives
    the minimum: a lower bound that is met. *)
Lemma minOver_minimum (f : testing.diffParentState → Z) ps k0 s0 :
  ps !! k0 = Some s0 →
  (∀ k s, ps !! k = Some s → f s ≤ MaxInt64) →
  (∀ k s, ps !! k = Some s → testing.minOver f ps ≤ f s)
  ∧ (∃ k s, ps !! k = Some s ∧ testing.minOver f ps = f s).
Proof.
  intros Hk0 Hint. destruct (minOver_bound f ps) as (_ & Hlow & Hwit).
  split; [done|]. destruct Hwit as [Hstart|Hwit]; [|done].
  exists k0, s0. split; [done|].
  specialize (Hlow k0 s0 Hk0). specialize (Hint k0 s0 Hk0). lia.
Qed.

Lemma allFinished_true ps :
  testing.allFinished ps = true ↔ ∀ k s, ps !! k = Some s → testing.finished s = true.
Proof.
  unfold testing.allFinished.
  apply (map_fold_weak_ind
           (λ r m, r = true ↔ ∀ k s, m !! k = Some s → testing.finished s = true)).
  - split; [|done]. intros _ k s. by rewrite lookup_empty.
  - intros i x m r Hi IH. rewrite andb_true_iff, IH. split.
    + intros [Hm Hx] k s [[-> ->]|[_ Hk]]%lookup_insert_Some; [done|exact (Hm k s Hk)].
    + intros Hall. split.
      * intros k s Hk. apply (Hall k s). rewrite lookup_insert_ne; [done|].
        intros ->. congruence.
      * apply (Hall i x). by rewrite lookup_insert_eq.
Qed.

(** C4. After [UpdateWatermark(id, mark)] from a parent the dataset is
    sent one watermark, the minimum of the marks last reported by all
    parents (a lower bound of them that one of them meets); so it is never
    above the last mark of any other parent. With two parents, when [id]
    reports [mark] and then the other one reports a smaller [t2], the
    second watermark sent is [min(mark, t2) = t2]. Marks are [int64]
    values. *)
Theorem watermark_is_minimum_over_parents t id (mark : Z) (state : testing.diffParentState) :
  testing.parentState t !! id = Some state →
  mark ≤ MaxInt64 →
  (∀ k s, testing.parentState t !! k = Some s → testing.mark s ≤ MaxInt64) →
  let t' := (testing.UpdateWatermark datasetAnswer id mark t).1 in
  ∃ w,
    testing.d t' = testing.d t ++ [testing.DUpdateWatermark w]
    ∧ testing.mark <$> testing.parentState t' !! id = Some mark
    ∧ (∀ k, k ≠ id → testing.parentState t' !! k = testing.parentState t !! k)
    ∧ (∀ k s, testing.parentState t' !! k = Some s → w ≤ testing.mark s)
    ∧ (∃ k s, testing.parentState t' !! k = Some s ∧ w = testing.mark s)
    ∧ (∀ k s, k ≠ id → testing.parentState t !! k = Some s → w ≤ testing.mark s)
    ∧ (∀ B (t2 : Z) stateB,
         B ≠ id → testing.parentState t !! B = Some stateB →
         (∀ k, is_Some (testing.parentState t !! k) → k = id ∨ k = B) →
         t2 < mark →
         testing.d (testing.UpdateWatermark datasetAnswer B t2 t').1
         = testing.d t' ++ [testing.DUpdateWatermark (Z.min mark t2)]
         ∧ Z.min mark t2 = t2).
Proof.
  intros Hid Hmark Hint t'.
  set (ps' := <[id := testing.mkDiffParentState mark (testing.processing state)
                        (testing.finished state)]> (testing.parentState t)).
  assert (t' = testing.call (testing.DUpdateWatermark (testing.minOver testing.mark ps'))
                 (testing.setParentState ps' t)) as Ht'.
  { subst t'. unfold testing.UpdateWatermark. by rewrite Hid. }
  assert (testing.parentState t' = ps') as Hps' by (by rewrite Ht').
  assert (∀ k s, ps' !! k = Some s → testing.mark s ≤ MaxInt64) as Hint'.
  { intros k s [[_ <-]|[_ Hk]]%lookup_insert_Some; [done|exact (Hint k s Hk)]. }
  destruct (minOver_minimum testing.mark ps' id _ (lookup_insert_eq _ _ _) Hint')
    as [Hlow Hwit].
  exists (testing.minOver testing.mark ps'). rewrite Hps'. split_and!.
  - by rewrite Ht'.
  - subst ps'. by rewrite lookup_insert_eq.
  - intros k Hk. subst ps'. by rewrite lookup_insert_ne.
  - done.
  - done.
  - intros k s Hk Hs. apply (Hlow k s). subst ps'. by rewrite lookup_insert_ne.
  - intros B t2 stateB HB HsB Honly Hlt.
    assert (ps' !! B = Some stateB) as HB' by (subst ps'; by rewrite lookup_insert_ne).
    set (ps'' := <[B := testing.mkDiffParentState t2 (testing.processing stateB)
                          (testing.finished stateB)]> ps').
    assert ((testing.UpdateWatermark datasetAnswer B t2 t').1
            = testing.call (testing.DUpdateWatermark (testing.minOver testing.mark ps''))
                (testing.setParentState ps'' t')) as ->.
    { unfold testing.UpdateWatermark. by rewrite Hps', HB'. }
    assert (∀ k s, ps'' !! k = Some s → testing.mark s ≤ MaxInt64) as Hint''.
    { intros k s [[_ <-]|[_ Hk]]%lookup_insert_Some; [cbn; lia|exact (Hint' k s Hk)]. }
    destruct (minOver_minimum testing.mark ps'' B _ (lookup_insert_eq _ _ _) Hint'')
      as [Hlow2 (k & s & Hk & Hw)].
    pose proof (Hlow2 B _ (lookup_insert_eq _ _ _)) as HleB. cbn in HleB.
    assert (testing.minOver testing.mark ps'' = t2) as ->.
    { apply lookup_insert_Some in Hk as [[_ <-]|[HkB Hk]]; [by rewrite Hw|].
      apply lookup_insert_Some in Hk as [[_ <-]|[Hkid Hk]].
      - rewrite Hw in HleB. cbn in HleB. lia.
      - destruct (Honly k) as [->| ->]; [by eexists|done..]. }
    split; [|lia]. cbn. do 3 f_equal. lia.
Qed.

(** C2, as amended. [Finish(id, err)] marks the parent as finished. When
    [err] is not nil it sends [Finish(err)] to the dataset at once,
    whether or not the other parents have reported. When all parents have
    finished it flushes the input cache and sends a [Finish] that carries
    the outcome of the flush. So with two parents, after [Finish(A, nil)]
    nothing has been sent, and [Finish(B, err)] then sends [Finish(err)]
    followed by the [Finish] of the flush: the first [Finish] the dataset
    gets carries [err] and comes after both parents have reported. *)
Theorem Finish_forwarding t id (err : option errors.Error) (state : testing.diffParentState) :
  testing.parentState t !! id = Some state →
  let ps' := <[id := testing.mkDiffParentState (testing.mark state)
                       (testing.processing state) true]> (testing.parentState t) in
  let flush := testing.flushInputCache diff (testing.wantID t) (testing.inputCache t) in
  let t' := (testing.Finish diff id err t).1 in
  (testing.Finish diff id err t).2 = Ok tt
  ∧ testing.parentState t' = ps'
  ∧ testing.d t'
    = testing.d t
      ++ match err with Some e => [testing.DFinish (Some e)] | None => [] end
      ++ (if testing.allFinished ps' then [testing.DFinish flush] else [])
  ∧ (testing.allFinished ps' = true ↔
       ∀ k s, k ≠ id → testing.parentState t !! k = Some s → testing.finished s = true)
  ∧ (∀ B stateB (errB : errors.Error),
       err = None → B ≠ id →
       testing.parentState t !! B = Some stateB → testing.finished stateB = false →
       (∀ k, is_Some (testing.parentState t !! k) → k = id ∨ k = B) →
       testing.d t' = testing.d t
       ∧ testing.d (testing.Finish diff B (Some errB) t').1
         = testing.d t ++ [testing.DFinish (Some errB); testing.DFinish flush]).
Proof.
  intros Hid ps' flush t'.
  assert (testing.allFinished ps' = true ↔
            ∀ k s, k ≠ id → testing.parentState t !! k = Some s
                   → testing.finished s = true) as Hall.
  { rewrite allFinished_true. subst ps'. split.
    - intros H k s Hk Hs. apply (H k s). by rewrite lookup_insert_ne.
    - intros H k s [[_ <-]|[Hk Hs]]%lookup_insert_Some; [done|exact (H k s (not_eq_sym Hk) Hs)]. }
  assert (testing.Finish diff id err t
          = (let t1 := testing.setParentState ps' t in
             let t2 := match err with
                       | Some e => testing.call (testing.DFinish (Some e)) t1
                       | None => t1
                       end in
             if testing.allFinished ps'
             then (testing.call (testing.DFinish flush) t2, Ok tt)
             else (t2, Ok tt))) as HF.
  { unfold testing.Finish. rewrite Hid. by destruct err. }
  assert (testing.parentState t' = ps'
          ∧ testing.d t'
            = testing.d t
              ++ match err with Some e => [testing.DFinish (Some e)] | None => [] end
              ++ (if testing.allFinished ps' then [testing.DFinish flush] else []))
    as [Hps' Hd].
  { subst t'. rewrite HF. cbn zeta.
    destruct err, (testing.allFinished ps'); cbn; rewrite <- ?app_assoc, ?app_nil_r; done. }
  split_and!; try done.
  - rewrite HF. cbn zeta. by destruct (testing.allFinished ps').
  - intros B stateB errB -> HB HsB HfB Honly.
    assert (testing.allFinished ps' = false) as Hnot.
    { apply not_true_is_false. rewrite Hall. intros H.
      specialize (H B stateB HB HsB). congruence. }
    rewrite Hnot in Hd. cbn in Hd. rewrite app_nil_r in Hd. split; [done|].
    assert (ps' !! B = Some stateB) as HB' by (subst ps'; by rewrite lookup_insert_ne).
    set (ps'' := <[B := testing.mkDiffParentState (testing.mark stateB)
                          (testing.processing stateB) true]> ps').
    assert (testing.allFinished ps'' = true) as Hall''.
    { apply allFinished_true. subst ps''.
      intros k s [[_ <-]|[HkB Hk]]%lookup_insert_Some; [done|].
      subst ps'. apply lookup_insert_Some in Hk as [[_ <-]|[Hkid Hk]]; [done|].
      destruct (Honly k) as [->| ->]; [by eexists|done..]. }
    unfold testing.Finish. rewrite Hps', HB'. cbn. fold ps''. rewrite Hall''. cbn.
    rewrite Hd.
    assert (testing.wantID t' = testing.wantID t ∧ testing.inputCache t' = testing.inputCache t)
      as [-> ->].
    { subst t'. rewrite HF. cbn zeta. by rewrite Hnot. }
    by rewrite <- app_assoc.
Qed.

End diff_facts.

Lemma watermark_is_minimum_over_parents_witness :
  let t := testing.NewDiffTransformation testing.want0 testing.got0 in
  let t' := (testing.UpdateWatermark testing.quietDataset testing.want0 10 t).1 in
  ∃ w,
    testing.d t' = testing.d t ++ [testing.DUpdateWatermark w]
    ∧ testing.mark <$> testing.parentState t' !! testing.want0 = Some 10
    ∧ (∀ k, k ≠ testing.want0 → testing.parentState t' !! k = testing.parentState t !! k)
    ∧ (∀ k s, testing.parentState t' !! k = Some s → w ≤ testing.mark s)
    ∧ (∃ k s, testing.parentState t' !! k = Some s ∧ w = testing.mark s)
    ∧ (∀ k s, k ≠ testing.want0 → testing.parentState t !! k = Some s → w ≤ testing.mark s)
    ∧ (∀ B (t2 : Z) stateB,
         B ≠ testing.want0 → testing.parentState t !! B = Some stateB →
         (∀ k, is_Some (testing.parentState t !! k) → k = testing.want0 ∨ k = B) →
         t2 < 10 →
         testing.d (testing.UpdateWatermark testing.quietDataset B t2 t').1
         = testing.d t' ++ [testing.DUpdateWatermark (Z.min 10 t2)]
         ∧ Z.min 10 t2 = t2).
Proof.
  intros t.
  apply (watermark_is_minimum_over_parents testing.quietDataset t testing.want0 10
           (testing.mkDiffParentState 0 0 false)).
  - reflexivity.
  - vm_compute. discriminate.
  - intros k s. unfold t, testing.NewDiffTransformation. cbn.
    intros [[_ <-]|[_ [[_ <-]|[_ H]]%lookup_insert_Some]]%lookup_insert_Some;
      [vm_compute; discriminate..|by rewrite lookup_empty in H].
Defined.

(** Two parents report 10 and then 7; then the first one moves on to 20
    and the watermark stays at 7. *)
Example UpdateWatermark_trace :
  let t0 := testing.NewDiffTransformation testing.want0 testing.got0 in
  let t1 := (testing.UpdateWatermark testing.quietDataset testing.want0 10 t0).1 in
  let t2 := (testing.UpdateWatermark testing.quietDataset testing.got0 7 t1).1 in
  let t3 := (testing.UpdateWatermark testing.quietDataset testing.want0 20 t2).1 in
  testing.d t3
  = [testing.DUpdateWatermark 0; testing.DUpdateWatermark 7; testing.DUpdateWatermark 7].
Proof. vm_compute. reflexivity. Qed.

(** [Finish(want, nil)] then [Finish(got, err)]: the dataset is sent two
    [Finish] calls, the second one without the error. *)
Lemma Finish_is_forwarded_twice :
  let t0 := testing.NewDiffTransformation testing.want0 testing.got0 in
  let t1 := (testing.Finish testing.quietDiff testing.want0 None t0).1 in
  let t2 := (testing.Finish testing.quietDiff testing.got0
               (Some testing.parentFailed) t1).1 in
  testing.d t1 = []
  ∧ testing.d t2
    = [testing.DFinish (Some testing.parentFailed); testing.DFinish None].
Proof. vm_compute. split; reflexivity. Qed.

(** [Finish(want, err)] alone: the error is sent on although the other
    parent has not reported. *)
Example Finish_error_is_forwarded_at_once :
  testing.d (testing.Finish testing.quietDiff testing.want0 (Some testing.parentFailed)
               (testing.NewDiffTransformation testing.want0 testing.got0)).1
  = [testing.DFinish (Some testing.parentFailed)].
Proof. vm_compute. reflexivity. Qed.

Lemma Finish_forwarding_witness :
  let t := testing.NewDiffTransformation testing.want0 testing.got0 in
  let ps' := <[testing.want0 := testing.mkDiffParentState 0 0 true]> (testing.parentState t) in
  let flush := testing.flushInputCache testing.quietDiff (testing.wantID t)
                 (testing.inputCache t) in
  let t' := (testing.Finish testing.quietDiff testing.want0 None t).1 in
  (testing.Finish testing.quietDiff testing.want0 None t).2 = Ok tt
  ∧ testing.parentState t' = ps'
  ∧ testing.d t'
    = testing.d t ++ [] ++ (if testing.allFinished ps' then [testing.DFinish flush] else [])
  ∧ (testing.allFinished ps' = true ↔
       ∀ k s, k ≠ testing.want0 → testing.parentState t !! k = Some s
              → testing.finished s = true)
  ∧ (∀ B stateB (errB : errors.Error),
       @None errors.Error = None → B ≠ testing.want0 →
       testing.parentState t !! B = Some stateB → testing.finished stateB = false →
       (∀ k, is_Some (testing.parentState t !! k) → k = testing.want0 ∨ k = B) →
       testing.d t' = testing.d t
       ∧ testing.d (testing.Finish testing.quietDiff B (Some errB) t').1
         = testing.d t ++ [testing.DFinish (Some errB); testing.DFinish flush]).
Proof.
  intros t.
  apply (Finish_forwarding testing.quietDiff t testing.want0 None
           (testing.mkDiffParentState 0 0 false)).
  reflexivity.
Defined.
(** ** More on the diff transformation *)

Section diff_more.
Context (datasetAnswer : testing.datasetCall → option errors.Error)
        (diff : testing.GroupKey → testing.tableBuffer → testing.tableBuffer
                → option errors.Error).
Implicit Types (t : testing.DiffTransformation) (id : execute.DatasetID).
Implicit Types (tbl : testing.Table).

#[local] Abbreviation dstep := (testing.diffStep datasetAnswer diff).
#[local] Abbreviation dcalls := (testing.diffCalls datasetAnswer diff).


(** *** [Process] *)

Lemma Process_keeps t id tbl :
  let t' := (testing.Process diff id tbl t).1 in
  testing.parentState t' = testing.parentState t
  ∧ testing.d t' = testing.d t
  ∧ testing.wantID t' = testing.wantID t
  ∧ testing.gotID t' = testing.gotID t.
Proof.
  unfold testing.Process.
  destruct (testing.parentState t !! id) as [state|]; [|done].
  destruct (testing.finished state); [done|].
  destruct (testing.copyTable id tbl) as [want| |]; [|done..].
  destruct (testing.cacheDelete _ _) as [[got|] rest]; cbn.
  - by destruct (decide _).
  - done.
Qed.

Lemma cacheDelete_absent key (entries : list (testing.GroupKey * testing.tableBuffer)) :
  key ∉ entries.*1 → testing.cacheDelete key entries = (None, entries).
Proof.
  induction entries as [|[k v] rest IH]; [done|]. cbn.
  intros Hnotin. apply not_elem_of_cons in Hnotin as [Hne Hrest].
  destruct (decide (k = key)) as [->|_]; [done|]. by rewrite IH.
Qed.

Lemma cacheSet_absent key value (entries : list (testing.GroupKey * testing.tableBuffer)) :
  key ∉ entries.*1 → testing.cacheSet key value entries = entries ++ [(key, value)].
Proof.
  induction entries as [|[k v] rest IH]; [done|]. cbn.
  intros Hnotin. apply not_elem_of_cons in Hnotin as [Hne Hrest].
  destruct (decide (k = key)) as [->|_]; [done|]. by rewrite IH.
Qed.

Lemma cacheDelete_last key value (entries : list (testing.GroupKey * testing.tableBuffer)) :
  key ∉ entries.*1 →
  testing.cacheDelete key (entries ++ [(key, value)]) = (Some value, entries).
Proof.
  induction entries as [|[k v] rest IH]; cbn.
  - intros _. by rewrite decide_True.
  - intros Hnotin. apply not_elem_of_cons in Hnotin as [Hne Hrest].
    destruct (decide (k = key)) as [->|_]; [done|]. by rewrite IH.
Qed.

(** X11. [Process] never reaches the dataset and never changes the state
    of a parent. A table from a parent that has finished is dropped, and a
    table with a column of a type that [copyTable] does not know, outside
    the group key, is refused as unimplemented; both leave the
    transformation as it was. *)
Theorem Process_leaves_dataset_alone t id tbl :
  (let t' := (testing.Process diff id tbl t).1 in
   testing.parentState t' = testing.parentState t ∧ testing.d t' = testing.d t)
  ∧ (∀ state, testing.parentState t !! id = Some state →
       testing.finished state = true →
       testing.Process diff id tbl t = (t, Ok tt))
  ∧ (∀ state col, testing.parentState t !! id = Some state →
       testing.finished state = false →
       col ∈ testing.Cols tbl → testing.Label col ∉ testing.keyCols tbl →
       testing.Type_ col = testing.TInvalid →
       testing.Process diff id tbl t = (t, Fail (errors.New codes.Unimplemented ""))).
Proof.
  split_and!.
  - destruct (Process_keeps t id tbl) as (? & ? & _). done.
  - intros state Hid Hfin. unfold testing.Process. by rewrite Hid, Hfin.
  - intros state col Hid Hfin Hcol Hkey Htype. unfold testing.Process.
    rewrite Hid, Hfin. unfold testing.copyTable.
    destruct (forallb _ _) eqn:Hall; [|done].
    rewrite forallb_forall in Hall. specialize (Hall col).
    rewrite <- list_elem_of_In in Hall. specialize (Hall Hcol).
    rewrite Htype in Hall.
    rewrite bool_decide_eq_false_2 in Hall by done. done.
Qed.

Lemma copyTable_Ok id tbl (buf : testing.tableBuffer) :
  testing.copyTable id tbl = Ok buf → buf = testing.mkTableBuffer id (testing.tblLen tbl).
Proof. unfold testing.copyTable. destruct (forallb _ _); by inversion 1. Qed.

Lemma Process_first_table t id tbl (state : testing.diffParentState)
    (want : testing.tableBuffer) :
  testing.parentState t !! id = Some state →
  testing.finished state = false →
  testing.copyTable id tbl = Ok want →
  testing.Key tbl ∉ (testing.inputCache t).*1 →
  testing.Process diff id tbl t
  = (testing.setInputCache (testing.inputCache t ++ [(testing.Key tbl, want)]) t, Ok tt).
Proof.
  intros Hid Hfin Hcopy Hkey.
  unfold testing.Process. rewrite Hid, Hfin, Hcopy.
  rewrite cacheDelete_absent by done. cbn.
  rewrite cacheSet_absent by done. by destruct t.
Qed.


(** X13. Two tables of one group key, [tblA] from parent [A] and then
    [tblB] from parent [B], neither of which has finished: the second
    call takes the first table out of the input cache again, so that the
    cache is as it was, and compares the pair once. The buffer of the
    second table is the wanted side exactly when [B] is the want parent;
    the ID of the first table is not looked at. *)
Theorem Process_pairs_tables t (A B : execute.DatasetID) (tblA tblB : testing.Table)
    (stateA stateB : testing.diffParentState) (bufA bufB : testing.tableBuffer) :
  testing.parentState t !! A = Some stateA → testing.finished stateA = false →
  testing.parentState t !! B = Some stateB → testing.finished stateB = false →
  testing.copyTable A tblA = Ok bufA → testing.copyTable B tblB = Ok bufB →
  testing.Key tblB = testing.Key tblA →
  testing.Key tblA ∉ (testing.inputCache t).*1 →
  let t1 := (testing.Process diff A tblA t).1 in
  testing.Process diff B tblB t1
  = (t, if decide (B = testing.wantID t)
        then testing.diffOutcome diff (testing.Key tblA) bufB bufA
        else testing.diffOutcome diff (testing.Key tblA) bufA bufB).
Proof.
  intros HA HfA HB HfB HcA HcB Hkey Hnotin t1.
  subst t1. rewrite (Process_first_table t A tblA stateA bufA HA HfA HcA Hnotin).
  cbn [fst].
  unfold testing.Process. cbn [testing.setInputCache testing.parentState testing.inputCache
                                testing.wantID].
  rewrite HB, HfB, HcB, Hkey. rewrite cacheDelete_last by done. cbn.
  rewrite (copyTable_Ok B tblB bufB HcB). cbn [testing.id].
  destruct (decide (B = testing.wantID t)); by destruct t.
Qed.

(** *** What the calls keep *)

Lemma is_Some_insert_present (ps : gmap execute.DatasetID testing.diffParentState)
    i x k :
  is_Some (ps !! i) → is_Some (<[i := x]> ps !! k) ↔ is_Some (ps !! k).
Proof.
  intros Hi. destruct (decide (i = k)) as [->|Hne].
  - rewrite lookup_insert_eq. split; [done|by eexists].
  - by rewrite lookup_insert_ne.
Qed.

Lemma diffStep_parents t (c : testing.diffCall) k :
  is_Some (testing.parentState (dstep t c) !! k) ↔ is_Some (testing.parentState t !! k).
Proof.
  destruct c as [id tbl|id mark|id mark|id err]; cbn [testing.diffStep].
  - by destruct (Process_keeps t id tbl) as (-> & _).
  - unfold testing.UpdateWatermark.
    destruct (testing.parentState t !! id) as [state|] eqn:Hid; [|done]. cbn.
    by apply is_Some_insert_present.
  - unfold testing.UpdateProcessingTime.
    destruct (testing.parentState t !! id) as [state|] eqn:Hid; [|done]. cbn.
    by apply is_Some_insert_present.
  - unfold testing.Finish.
    destruct (testing.parentState t !! id) as [state|] eqn:Hid; [|done].
    assert (∀ t0 : testing.DiffTransformation * outcome unit,
              testing.parentState t0.1
              = <[id := testing.mkDiffParentState (testing.mark state)
                          (testing.processing state) true]> (testing.parentState t) →
              is_Some (testing.parentState t0.1 !! k)
              ↔ is_Some (testing.parentState t !! k)) as Hgen.
    { intros t0 ->. by apply is_Some_insert_present. }
    apply Hgen. destruct err; cbn; by destruct (testing.allFinished _).
Qed.

Lemma diffStep_ids t (c : testing.diffCall) :
  testing.wantID (dstep t c) = testing.wantID t
  ∧ testing.gotID (dstep t c) = testing.gotID t.
Proof.
  destruct c as [id tbl|id mark|id mark|id err]; cbn [testing.diffStep].
  - by destruct (Process_keeps t id tbl) as (_ & _ & -> & ->).
  - unfold testing.UpdateWatermark. by destruct (testing.parentState t !! id).
  - unfold testing.UpdateProcessingTime. by destruct (testing.parentState t !! id).
  - unfold testing.Finish. destruct (testing.parentState t !! id); [|done].
    destruct err; cbn; by destruct (testing.allFinished _).
Qed.

Lemma diffCalls_invariant (P : testing.DiffTransformation → Prop) :
  (∀ t c, P t → P (dstep t c)) → ∀ cs t, P t → P (dcalls t cs).
Proof.
  intros Hstep cs. unfold testing.diffCalls.
  induction cs as [|c cs IH]; intros t Ht; [done|]. cbn. by apply IH, Hstep.
Qed.


Lemma diffStep_finished t (c : testing.diffCall) k (s : testing.diffParentState) :
  testing.parentState t !! k = Some s → testing.finished s = true →
  ∃ s', testing.parentState (dstep t c) !! k = Some s' ∧ testing.finished s' = true.
Proof.
  intros Hk Hfin.
  assert (∀ id (x : testing.diffParentState),
            (id = k → testing.finished x = true) →
            ∃ s', <[id := x]> (testing.parentState t) !! k = Some s'
                  ∧ testing.finished s' = true) as Hins.
  { intros id x Hx. destruct (decide (id = k)) as [->|Hne].
    - exists x. rewrite lookup_insert_eq. auto.
    - exists s. by rewrite lookup_insert_ne. }
  destruct c as [id tbl|id mark|id mark|id err]; cbn [testing.diffStep].
  - destruct (Process_keeps t id tbl) as (-> & _). eauto.
  - unfold testing.UpdateWatermark.
    destruct (testing.parentState t !! id) as [state|] eqn:Hid; [|eauto]. cbn.
    apply Hins. intros ->. rewrite Hk in Hid. by injection Hid as <-.
  - unfold testing.UpdateProcessingTime.
    destruct (testing.parentState t !! id) as [state|] eqn:Hid; [|eauto]. cbn.
    apply Hins. intros ->. rewrite Hk in Hid. by injection Hid as <-.
  - unfold testing.Finish.
    destruct (testing.parentState t !! id) as [state|] eqn:Hid; [|eauto].
    destruct (Hins id (testing.mkDiffParentState (testing.mark state)
                         (testing.processing state) true) ltac:(done)) as (s' & Hs' & Hf').
    exists s'. split; [|done].
    destruct err; cbn; by destruct (testing.allFinished _).
Qed.

Lemma diffStep_appends t (c : testing.diffCall) :
  ∃ l, testing.d (dstep t c) = testing.d t ++ l.
Proof.
  destruct c as [id tbl|id mark|id mark|id err]; cbn [testing.diffStep].
  - destruct (Process_keeps t id tbl) as (_ & -> & _). exists []. by rewrite app_nil_r.
  - unfold testing.UpdateWatermark.
    destruct (testing.parentState t !! id); cbn; [eauto|].
    exists []. by rewrite app_nil_r.
  - unfold testing.UpdateProcessingTime.
    destruct (testing.parentState t !! id); cbn; [eauto|].
    exists []. by rewrite app_nil_r.
  - unfold testing.Finish.
    destruct (testing.parentState t !! id); [|exists []; by rewrite app_nil_r].
    destruct err, (testing.allFinished _); cbn;
      rewrite <- ?app_assoc; eauto. exists []. by rewrite app_nil_r.
Qed.

(** X15. No call takes anything back: a parent that has finished stays
    finished, and the calls made on the dataset so far stay, in order, at
    the head of the calls made on it later. *)
Theorem diff_calls_never_undo t (cs : list testing.diffCall) :
  (∀ k s, testing.parentState t !! k = Some s → testing.finished s = true →
     ∃ s', testing.parentState (dcalls t cs) !! k = Some s'
           ∧ testing.finished s' = true)
  ∧ (∃ l, testing.d (dcalls t cs) = testing.d t ++ l).
Proof.
  unfold testing.diffCalls. revert t.
  induction cs as [|c cs IH]; intros t; cbn [foldl].
  - split; [eauto|]. exists []. by rewrite app_nil_r.
  - destruct (IH (dstep t c)) as [Hfin [l Hl]]. split.
    + intros k s Hk Hs. destruct (diffStep_finished t c k s Hk Hs) as (s' & Hk' & Hs').
      by apply (Hfin k s').
    + destruct (diffStep_appends t c) as [l0 Hl0].
      exists (l0 ++ l). by rewrite Hl, Hl0, app_assoc.
Qed.

End diff_more.



Lemma Process_pairs_tables_witness :
  let t := testing.NewDiffTransformation testing.want0 testing.got0 in
  let cols := [testing.mkColMeta "host" testing.TString;
               testing.mkColMeta "_value" testing.TFloat] in
  let tblA := testing.mkTable "host=a" ["host"] cols 3 in
  let tblB := testing.mkTable "host=a" ["host"] cols 4 in
  let bufA := testing.mkTableBuffer testing.got0 3 in
  let bufB := testing.mkTableBuffer testing.want0 4 in
  let t1 := (testing.Process testing.quietDiff testing.got0 tblA t).1 in
  testing.Process testing.quietDiff testing.want0 tblB t1
  = (t, if decide (testing.want0 = testing.wantID t)
        then testing.diffOutcome testing.quietDiff (testing.Key tblA) bufB bufA
        else testing.diffOutcome testing.quietDiff (testing.Key tblA) bufA bufB).
Proof.
  intros t cols tblA tblB bufA bufB.
  apply (Process_pairs_tables testing.quietDiff t testing.got0 testing.want0 tblA tblB
           (testing.mkDiffParentState 0 0 false) (testing.mkDiffParentState 0 0 false)
           bufA bufB).
  - reflexivity.
  - reflexivity.
  - reflexivity.
  - reflexivity.
  - reflexivity.
  - reflexivity.
  - reflexivity.
  - cbn. apply not_elem_of_nil.
Defined.

Section diff_spec_facts.
Context {float64 : Type}.

(** X16. [createDiffTransformation] asks for exactly two parents and for
    the procedure spec of diff, and fails with an internal error
    otherwise. The first parent becomes the want side and the second the
    got side; the transformation starts with both parents unfinished, at
    mark 0, with nothing sent to the dataset and nothing in the input
    cache. *)
Theorem createDiffTransformation_two_parents (spec : testing.ProcedureSpec float64)
    (parents : list execute.DatasetID) :
  (∀ pspec wantID gotID,
     spec = testing.DiffProcedure pspec → parents = [wantID; gotID] →
     ∃ t c,
       testing.createDiffTransformation spec parents = Ok (t, c)
       ∧ testing.wantID t = wantID ∧ testing.gotID t = gotID
       ∧ testing.parentState t !! wantID = Some (testing.mkDiffParentState 0 0 false)
       ∧ testing.parentState t !! gotID = Some (testing.mkDiffParentState 0 0 false)
       ∧ testing.d t = [] ∧ testing.inputCache t = []
       ∧ testing.epsilon c = testing.procEpsilon pspec)
  ∧ ((length parents ≠ 2%nat ∨ ∃ kind, spec = testing.OtherProcedure kind) →
       ∃ e, testing.createDiffTransformation spec parents = Fail e
            ∧ errors.Code e = codes.Internal).
Proof.
  split.
  - intros pspec wantID gotID -> ->. do 2 eexists. split; [done|]. cbn.
    split_and!; try done.
    + destruct (decide (gotID = wantID)) as [->|Hne].
      * by rewrite lookup_insert_eq.
      * by rewrite lookup_insert_ne, lookup_insert_eq.
    + by rewrite lookup_insert_eq.
  - intros Hbad. unfold testing.createDiffTransformation.
    destruct (Nat.eqb_spec (length parents) 2) as [Hlen|Hlen]; cbn.
    + destruct Hbad as [?|[kind ->]]; [done|]. by eexists.
    + by eexists.
Qed.

(** X17. Of the options of the operation spec only [epsilon] reaches the
    transformation: whatever [nansEqual] (and [verbose]) the operation
    spec carries, the transformation built from it has [nansEqual] false,
    so two operation specs with the same [epsilon] build the same
    transformation. *)
Theorem diff_nansEqual_never_set (spec : testing.DiffOpSpec float64)
    (wantID gotID : execute.DatasetID) :
  ∃ pspec t c,
    testing.newDiffProcedure (testing.DiffOp spec) = Ok pspec
    ∧ testing.createDiffTransformation pspec [wantID; gotID] = Ok (t, c)
    ∧ testing.nansEqual c = false
    ∧ testing.epsilon c = testing.Epsilon spec
    ∧ ∀ spec', testing.Epsilon spec' = testing.Epsilon spec →
        ∃ pspec',
          testing.newDiffProcedure (testing.DiffOp spec') = Ok pspec'
          ∧ testing.createDiffTransformation pspec' [wantID; gotID] = Ok (t, c).
Proof.
  do 3 eexists. split_and!; try done.
  intros spec' Heps. eexists. split; [done|]. cbn. by rewrite Heps.
Qed.

End diff_spec_facts.

Section diff_rows_facts.
Context (rowEqual : Z → bool).

Lemma firstUnequal_seqZ (n : nat) : ∀ (a stop : Z),
  stop = a + Z.of_nat n →
  let i := testing.firstUnequal rowEqual (seqZ a (Z.of_nat n)) stop in
  a ≤ i ≤ stop
  ∧ (∀ j, a ≤ j < i → rowEqual j = true)
  ∧ (i < stop → rowEqual i = false).
Proof.
  induction n as [|n IH]; intros a stop Hstop.
  - rewrite seqZ_nil by lia. cbn. repeat split; intros; try lia; exfalso; lia.
  - rewrite seqZ_cons by lia.
    replace (Z.pred (Z.of_nat (S n))) with (Z.of_nat n) by lia.
    cbn [testing.firstUnequal]. destruct (rowEqual a) eqn:Ha.
    + destruct (IH (Z.succ a) stop ltac:(lia)) as (Hi & Heq & Hne).
      split; [lia|]. split; [|done].
      intros j Hj. destruct (decide (j = a)) as [->|Hja]; [done|].
      apply Heq. lia.
    + cbn. split; [lia|]. split; [intros; exfalso; lia|done].
Qed.

Lemma flat_map_all_nil {A B : Type} (f : A → list B) (l : list A) :
  Forall (λ x, f x = []) l → flat_map f l = [].
Proof. induction 1 as [|x l Hx _ IH]; cbn; [done|]. by rewrite Hx, IH. Qed.


End diff_rows_facts.

(** ** The two implementations of limit *)

Section limit_facts.
Context {V : Type}.
Implicit Types (arr c : list V) (cols e : list (list V)).
Implicit Types (b cr : arrow.TableBuffer V).

Lemma mapM_pointwise {A B : Type} (f : A → option B) (g : A → B) (l : list A) :
  Forall (λ x, f x = Some (g x)) l → mapM f l = Some (g <$> l).
Proof.
  induction 1 as [|x l Hx _ IH]; [done|].
  cbn. rewrite Hx. cbn. rewrite IH. done.
Qed.

Lemma keepOrSlice_window arr l count start stop :
  Z.of_nat (length arr) = l → 0 ≤ start → 0 ≤ count →
  stop = start + count → stop ≤ l →
  universe.keepOrSlice count start stop arr
  = Some (take (Z.to_nat count) (drop (Z.to_nat start) arr)).
Proof.
  intros Hl Hs Hc -> Hle. unfold universe.keepOrSlice.
  destruct (Z.eqb_spec (Z.of_nat (length arr)) count) as [Heq|Hne].
  - assert (start = 0) as -> by lia.
    rewrite drop_0, take_ge; [done|lia].
  - unfold arrow.Slice. rewrite bool_decide_eq_true_2 by lia.
    do 3 f_equal. lia.
Qed.

Lemma keepOrSlice_empty arr : universe.keepOrSlice 0 0 0 arr = Some [].
Proof.
  unfold universe.keepOrSlice.
  destruct (Z.eqb_spec (Z.of_nat (length arr)) 0) as [Heq|Hne].
  - destruct arr; [done|simpl in Heq; lia].
  - unfold arrow.Slice. rewrite bool_decide_eq_true_2 by lia. done.
Qed.

Lemma mapM_window b count start stop :
  universe.wfBuffer b → 0 ≤ start → 0 ≤ count →
  stop = start + count → stop ≤ arrow.Len b →
  mapM (universe.keepOrSlice count start stop) (arrow.Values b)
  = Some ((λ arr, take (Z.to_nat count) (drop (Z.to_nat start) arr)) <$> arrow.Values b).
Proof.
  intros [_ Hwf] ????. apply mapM_pointwise.
  eapply Forall_impl; [exact Hwf|]. intros arr Harr. cbn beta.
  by apply keepOrSlice_window with (l := arrow.Len b).
Qed.

Lemma mapM_empty cols :
  mapM (universe.keepOrSlice 0 0 0) cols = Some ((λ _, @nil V) <$> cols).
Proof. apply mapM_pointwise, Forall_forall. intros. apply keepOrSlice_empty. Qed.

Lemma zeroRows_const cols : universe.zeroRows ((λ _, @nil V) <$> cols).
Proof. unfold universe.zeroRows. apply Forall_fmap, Forall_forall. done. Qed.

Lemma padded_refl (l : list (list (list V))) : universe.padded l l.
Proof. induction l; constructor; done. Qed.

Lemma padded_app (l1 l2 k1 k2 : list (list (list V))) :
  universe.padded l1 l2 → universe.padded k1 k2 → universe.padded (l1 ++ k1) (l2 ++ k2).
Proof. induction 1; intros; simpl; [done|constructor; auto ..]. Qed.

Lemma column_window j cols c (f : list V → list V) :
  cols !! j = Some c → universe.column j (f <$> cols) = f c.
Proof. intros H. unfold universe.column. rewrite list_lookup_fmap, H. done. Qed.


(** One batch: both versions move [(n, offset)] the same way; the legacy
    one writes [dl], the narrow one [dn]. *)
Lemma limit_step cr n off (w ds : list (list (list V))) :
  universe.wfBuffer cr → 0 ≤ off →
  ∃ n' off' dl dn,
    universe.limitTable_body cr (universe.mkLoop n off w)
      = Some (universe.mkLoop n' off' (w ++ dl)) ∧
    universe.processChunk cr (universe.mkState n off) ds
      = Some (universe.mkState n' off', true, ds ++ dn) ∧
    0 ≤ off' ∧ universe.padded dn dl ∧
    ∀ j c rest, arrow.Values cr !! j = Some c →
      universe.streamColumn j dl ++ take (Z.to_nat n') (drop (Z.to_nat off') rest)
      = take (Z.to_nat n) (drop (Z.to_nat off) (c ++ rest)).
Proof.
  intros Hwf Hoff. pose proof Hwf as [Hlen Hcols].
  unfold universe.limitTable_body, universe.processChunk. cbn.
  destruct (Z.leb_spec n 0) as [Hn|Hn].
  { (* nothing left to keep *)
    exists n, off, [], [(λ _, @nil V) <$> arrow.Values cr].
    rewrite mapM_empty, app_nil_r. cbn. split_and!; try done.
    - apply universe.padded_empty; [apply zeroRows_const|constructor].
    - intros j c rest _. by replace (Z.to_nat n) with 0%nat by lia. }
  destruct (Z.eqb_spec (arrow.Len cr) 0) as [Hz|Hz]; cbn.
  { (* an empty batch *)
    exists n, off, [], [(λ _, @nil V) <$> arrow.Values cr].
    rewrite mapM_empty, app_nil_r. cbn.
    rewrite (proj2 (Z.leb_le _ _)) by lia. split_and!; try done.
    - do 2 f_equal. lia.
    - apply universe.padded_empty; [apply zeroRows_const|constructor].
    - intros j c rest Hc. cbn.
      assert (Z.of_nat (length c) = arrow.Len cr) as Hlc.
      { eapply (proj1 (Forall_forall _ _) Hcols), list_elem_of_lookup_2, Hc. }
      destruct c; [done|simpl in Hlc; lia]. }
  destruct (Z.leb_spec (arrow.Len cr) off) as [Hskip|Hemit].
  { (* the whole batch is skipped *)
    exists n, (off - arrow.Len cr), [], []. rewrite !app_nil_r.
    split_and!; try done; [lia|constructor|].
    intros j c rest Hc. cbn.
    assert (Z.of_nat (length c) = arrow.Len cr) as Hlc.
    { eapply (proj1 (Forall_forall _ _) Hcols), list_elem_of_lookup_2, Hc. }
    rewrite drop_app_ge by lia. do 2 f_equal. lia. }
  (* rows [off, off + count) are written *)
  set (count := if arrow.Len cr - off >? n then n else arrow.Len cr - off).
  set (stop := if arrow.Len cr - off >? n then off + n else arrow.Len cr).
  assert (0 ≤ count ∧ stop = off + count ∧ stop ≤ arrow.Len cr
          ∧ count ≤ n ∧ (count < n → stop = arrow.Len cr)) as (Hc0 & Hstop & Hsl & Hcn & Hfull).
  { subst count stop. destruct (Z.gtb_spec (arrow.Len cr - off) n); lia. }
  set (vs := (λ arr, take (Z.to_nat count) (drop (Z.to_nat off) arr)) <$> arrow.Values cr).
  exists (n - count), 0, [vs], [vs].
  assert (mapM (universe.keepOrSlice count off stop) (arrow.Values cr) = Some vs) as Hvs
    by (by apply mapM_window).
  split_and!; [| |done|apply padded_refl|].
  - subst count stop. destruct (arrow.Len cr - off >? n); rewrite Hvs; done.
  - subst count stop. destruct (arrow.Len cr - off >? n); rewrite Hvs; done.
  - intros j c rest Hc. unfold universe.streamColumn. cbn.
    subst vs. rewrite (column_window _ _ _ _ Hc), app_nil_r.
    assert (Z.of_nat (length c) = arrow.Len cr) as Hlc.
    { eapply (proj1 (Forall_forall _ _) Hcols), list_elem_of_lookup_2, Hc. }
    rewrite drop_app_le by lia. cbn.
    destruct (decide (count < n)) as [Hlt|Hge].
    + (* the batch ends before [n] rows are reached *)
      specialize (Hfull Hlt).
      rewrite take_app_ge by (rewrite length_drop; lia).
      rewrite length_drop. rewrite (take_ge (drop _ c)) by (rewrite length_drop; lia).
      do 2 f_equal. lia.
    + assert (count = n) as -> by lia.
      rewrite Z.sub_diag. cbn. rewrite app_nil_r.
      rewrite take_app_le by (rewrite length_drop; lia). done.
Qed.

Lemma narrowRun_initial (t : universe.limitTransformation) tbl (ds : list (list (list V))) :
  universe.narrowRun t tbl None ds
  = universe.narrowRun t tbl (Some (universe.mkState (universe.n t) (universe.offset t))) ds.
Proof. by destruct tbl. Qed.

Lemma limit_sync (t : universe.limitTransformation) tbl :
  Forall universe.wfBuffer tbl →
  ∀ n off (w ds : list (list (list V))), 0 ≤ off →
  ∃ n' off' dl dn,
    universe.tblDo tbl (universe.mkLoop n off w)
      = Some (universe.mkLoop n' off' (w ++ dl)) ∧
    universe.narrowRun t tbl (Some (universe.mkState n off)) ds = Some (ds ++ dn) ∧
    universe.padded dn dl ∧
    ∀ j, Forall (λ b, is_Some (arrow.Values b !! j)) tbl →
      universe.streamColumn j dl
      = take (Z.to_nat n) (drop (Z.to_nat off)
          (universe.streamColumn j (arrow.Values <$> tbl))).
Proof.
  induction 1 as [|cr tbl Hcr _ IH]; intros n off w ds Hoff.
  - exists n, off, [], []. rewrite !app_nil_r. split_and!; try done; [constructor|].
    intros j _. unfold universe.streamColumn. cbn. by rewrite drop_nil, take_nil.
  - destruct (limit_step cr n off w ds Hcr Hoff)
      as (n1 & off1 & dl1 & dn1 & Hl1 & Hn1 & Hoff1 & Hp1 & Hcol1).
    destruct (IH n1 off1 (w ++ dl1) (ds ++ dn1) Hoff1)
      as (n2 & off2 & dl2 & dn2 & Hl2 & Hn2 & Hp2 & Hcol2).
    exists n2, off2, (dl1 ++ dl2), (dn1 ++ dn2).
    split_and!.
    + cbn [universe.tblDo]. rewrite Hl1. cbn. rewrite Hl2. by rewrite app_assoc.
    + cbn [universe.narrowRun]. unfold universe.Process. rewrite Hn1. cbn.
      rewrite Hn2. by rewrite app_assoc.
    + by apply padded_app.
    + intros j Hj. apply Forall_cons in Hj as [[c Hc] Hj].
      unfold universe.streamColumn in *. rewrite fmap_app, concat_app.
      rewrite (Hcol2 j Hj). cbn.
      assert (universe.column j (arrow.Values cr) = c) as ->
        by (unfold universe.column; by rewrite Hc).
      by rewrite <- (Hcol1 j c _ Hc).
Qed.

End limit_facts.

Lemma padded_streamColumn {V : Type} j (dn dl : list (list (list V))) :
  universe.padded dn dl → universe.streamColumn j dn = universe.streamColumn j dl.
Proof.
  unfold universe.streamColumn.
  induction 1 as [|e l1 l2 _ IH|e l1 l2 He _ IH]; cbn; [done|by rewrite IH|].
  rewrite IH. unfold universe.column.
  destruct (e !! j) as [c|] eqn:Hc; [|done]. cbn.
  by rewrite (proj1 (Forall_forall _ _) He c (list_elem_of_lookup_2 _ _ _ Hc)).
Qed.

Example limitTable_sample :
  universe.limitTable (universe.mkLimit 2 1) universe.limit_sample
  = Some [ [[2]; [20]]; [[3]; [30]] ].
Proof. reflexivity. Qed.

Example narrowRun_sample :
  universe.narrowRun (universe.mkLimit 2 1) universe.limit_sample None []
  = Some [ [[2]; [20]]; [[]; []]; [[3]; [30]] ].
Proof. reflexivity. Qed.


(** ** More on limit *)

Section limit_more.
Context {V : Type}.
Implicit Types (cr : arrow.TableBuffer V) (tbl : list (arrow.TableBuffer V)).

Lemma tblDo_nothing_left tbl (n off : Z) (w : list (list (list V))) :
  n ≤ 0 → universe.tblDo tbl (universe.mkLoop n off w) = Some (universe.mkLoop n off w).
Proof.
  intros Hn. induction tbl as [|cr tbl IH]; [done|].
  cbn [universe.tblDo]. unfold universe.limitTable_body. cbn.
  rewrite (proj2 (Z.leb_le _ _) Hn). cbn. apply IH.
Qed.

Lemma narrowRun_nothing_left (t : universe.limitTransformation) tbl (n off : Z)
    (ds : list (list (list V))) :
  n ≤ 0 →
  universe.narrowRun t tbl (Some (universe.mkState n off)) ds
  = Some (ds ++ ((λ b, (λ _, @nil V) <$> arrow.Values b) <$> tbl)).
Proof.
  intros Hn. revert ds. induction tbl as [|cr tbl IH]; intros ds.
  - cbn. by rewrite app_nil_r.
  - cbn [universe.narrowRun]. unfold universe.Process, universe.processChunk. cbn.
    rewrite (proj2 (Z.leb_le _ _) Hn). cbn. rewrite mapM_empty. cbn.
    rewrite IH. by rewrite <- app_assoc.
Qed.

(** X8. With [n] at or below 0 the legacy version writes nothing at all,
    and the narrow version passes on one empty chunk, with the columns of
    the input, for every chunk it is given; this holds for any offset and
    any batches. *)
Theorem limit_of_nothing (t : universe.limitTransformation) tbl :
  universe.n t ≤ 0 →
  universe.limitTable t tbl = Some []
  ∧ universe.narrowRun t tbl None []
    = Some ((λ b, (λ _, @nil V) <$> arrow.Values b) <$> tbl).
Proof.
  intros Hn. split.
  - unfold universe.limitTable. by rewrite tblDo_nothing_left.
  - rewrite narrowRun_initial. by rewrite narrowRun_nothing_left.
Qed.

Lemma properBatch_mono (n n' : Z) (e : list (list V)) : n' ≤ n → universe.properBatch n' e → universe.properBatch n e.
Proof. intros Hle (c & Hc & Hall). exists c. split; [lia|done]. Qed.

Lemma limitTable_body_proper cr (n off : Z) (w : list (list (list V))) :
  universe.wfBuffer cr → 0 ≤ off →
  ∃ n' off' dl,
    universe.limitTable_body cr (universe.mkLoop n off w)
      = Some (universe.mkLoop n' off' (w ++ dl))
    ∧ 0 ≤ off' ∧ n' ≤ n
    ∧ Forall (universe.properBatch n) dl ∧ (length dl ≤ 1)%nat.
Proof.
  intros [Hlen Hcols] Hoff. unfold universe.limitTable_body. cbn.
  destruct (Z.leb_spec n 0) as [Hn|Hn].
  { exists n, off, []. rewrite app_nil_r. split_and!; [done|done|lia|constructor|cbn; lia]. }
  destruct (Z.leb_spec (arrow.Len cr) off) as [Hskip|Hemit].
  { exists n, (off - arrow.Len cr), []. rewrite app_nil_r.
    split_and!; [done|lia|lia|constructor|cbn; lia]. }
  set (count := if arrow.Len cr - off >? n then n else arrow.Len cr - off).
  set (stop := if arrow.Len cr - off >? n then off + n else arrow.Len cr).
  assert (1 ≤ count ∧ stop = off + count ∧ stop ≤ arrow.Len cr ∧ count ≤ n)
    as (Hc1 & Hstop & Hsl & Hcn).
  { subst count stop. destruct (Z.gtb_spec (arrow.Len cr - off) n); lia. }
  set (vs := (λ arr, take (Z.to_nat count) (drop (Z.to_nat off) arr)) <$> arrow.Values cr).
  assert (mapM (universe.keepOrSlice count off stop) (arrow.Values cr) = Some vs) as Hvs.
  { apply mapM_window; [done|lia..]. }
  exists (n - count), 0, [vs]. split_and!; [|done|lia| |done].
  - subst count stop. destruct (arrow.Len cr - off >? n); rewrite Hvs; done.
  - constructor; [|done]. exists count. split; [lia|]. subst vs.
    apply Forall_fmap. eapply Forall_impl; [exact Hcols|]. intros col Hcol. cbn in *.
    rewrite length_take, length_drop. lia.
Qed.

(** X9. For an offset that is not negative and well-formed batches, every
    batch the legacy version writes has the same number of rows in every
    column, at least 1 and at most [n]; it never writes an empty batch,
    and never more batches than it was given. *)
Theorem limitTable_writes_proper_batches (t : universe.limitTransformation) tbl :
  0 ≤ universe.offset t →
  Forall universe.wfBuffer tbl →
  ∃ legacy,
    universe.limitTable t tbl = Some legacy
    ∧ Forall (universe.properBatch (universe.n t)) legacy
    ∧ (length legacy ≤ length tbl)%nat.
Proof.
  intros Hoff Hwf. unfold universe.limitTable.
  assert (∀ n off w, 0 ≤ off →
            ∃ n' off' dl,
              universe.tblDo tbl (universe.mkLoop n off w)
                = Some (universe.mkLoop n' off' (w ++ dl))
              ∧ Forall (universe.properBatch n) dl ∧ (length dl ≤ length tbl)%nat) as Hgen.
  { induction Hwf as [|cr tbl Hcr _ IH]; intros n off w Hoff'.
    - exists n, off, []. rewrite app_nil_r. split_and!; [done|constructor|done].
    - destruct (limitTable_body_proper cr n off w Hcr Hoff')
        as (n1 & off1 & dl1 & Hb & Hoff1 & Hn1 & Hp1 & Hl1).
      destruct (IH n1 off1 (w ++ dl1) Hoff1) as (n2 & off2 & dl2 & Hd & Hp2 & Hl2).
      exists n2, off2, (dl1 ++ dl2). split_and!.
      + cbn [universe.tblDo]. rewrite Hb. cbn. rewrite Hd. by rewrite app_assoc.
      + apply Forall_app. split; [done|].
        eapply Forall_impl; [exact Hp2|]. intros e. by apply properBatch_mono.
      + rewrite length_app. cbn. lia. }
  destruct (Hgen (universe.n t) (universe.offset t) [] Hoff)
    as (n' & off' & dl & Hd & Hp & Hl).
  exists dl. rewrite Hd. done.
Qed.

End limit_more.

Lemma limit_of_nothing_witness :
  universe.limitTable (universe.mkLimit 0 1) universe.limit_sample = Some []
  ∧ universe.narrowRun (universe.mkLimit 0 1) universe.limit_sample None []
    = Some ((λ b, (λ _, @nil Z) <$> arrow.Values b) <$> universe.limit_sample).
Proof.
  apply (limit_of_nothing (universe.mkLimit 0 1) universe.limit_sample).
  cbn. lia.
Defined.

Lemma limitTable_writes_proper_batches_witness :
  ∃ legacy,
    universe.limitTable (universe.mkLimit 2 1) universe.limit_sample = Some legacy
    ∧ Forall (universe.properBatch 2) legacy
    ∧ (length legacy ≤ length universe.limit_sample)%nat.
Proof.
  apply (limitTable_writes_proper_batches (universe.mkLimit 2 1) universe.limit_sample).
  - cbn. lia.
  - unfold universe.limit_sample, universe.wfBuffer. repeat constructor; cbn; lia.
Defined.
(** ** The digest free list of the quantile aggregate *)

Section quantile_facts.
Context {float64 : Type} (ByteSizeForCompression : float64 → Z).

#[local] Abbreviation run := (universe.quantileRun float64).
#[local] Abbreviation step := (universe.quantileStep ByteSizeForCompression).
#[local] Abbreviation calls := (universe.quantileCalls ByteSizeForCompression).

#[local] Abbreviation digestBytes := (universe.digestBytes ByteSizeForCompression).
#[local] Abbreviation digestsHeld := (@universe.digestsHeld float64).
#[local] Abbreviation holds := (@universe.holds float64).

Lemma openStates_snoc (a a' : universe.QuantileAgg float64) l s :
  length (universe.openStates (universe.mkQuantileRun a' (l ++ [s])))
  = (length (universe.openStates (universe.mkQuantileRun a l)) + holds s)%nat.
Proof.
  unfold universe.openStates, universe.holds. cbn.
  rewrite filter_app, length_app. f_equal.
  rewrite filter_cons, filter_nil.
  destruct (universe.digest s) eqn:E; case_decide as H; cbn; try done.
  destruct H. eauto.
Qed.

Lemma openStates_insert (a a' : universe.QuantileAgg float64) l k s s' :
  l !! k = Some s →
  Z.of_nat (length (universe.openStates (universe.mkQuantileRun a' (<[k := s']> l))))
  = Z.of_nat (length (universe.openStates (universe.mkQuantileRun a l)))
    - Z.of_nat (holds s) + Z.of_nat (holds s').
Proof.
  intros Hk. unfold universe.openStates, universe.holds. cbn.
  rewrite insert_take_drop by (by eapply lookup_lt_Some).
  rewrite <- (take_drop_middle l k s Hk) at 3.
  rewrite !filter_app, !filter_cons, !length_app.
  destruct (universe.digest s) eqn:E, (universe.digest s') eqn:E';
    repeat case_decide; cbn [length]; try lia;
    repeat match goal with
           | H : ¬ is_Some (Some _) |- _ => destruct H; eauto
           | H : is_Some None |- _ => by destruct H
           end.
Qed.

Lemma DoFloat_digest vs (s : universe.QuantileAggState float64) :
  is_Some (universe.digest (universe.DoFloat vs s)) ↔ is_Some (universe.digest s).
Proof.
  unfold universe.DoFloat. revert s.
  induction vs as [|[x|] vs IH]; intros s; cbn; [done| |apply IH].
  rewrite IH. cbn. apply fmap_is_Some.
Qed.

Lemma QuantileAgg_Close_mem (a : universe.QuantileAgg float64) :
  let a' := universe.QuantileAgg_Close ByteSizeForCompression a in
  universe.Compression a' = universe.Compression a ∧
  universe.freeDigests a' = [] ∧
  universe.mem a' = universe.mem a
    - ByteSizeForCompression (universe.Compression a)
      * Z.of_nat (length (universe.freeDigests a)).
Proof.
  unfold universe.QuantileAgg_Close. cbn.
  generalize (ByteSizeForCompression (universe.Compression a)). intros B.
  induction (universe.freeDigests a) as [|d l IH]; cbn.
  - split_and!; try done. lia.
  - destruct IH as (IH1 & _ & IH3). split_and!; try done. rewrite IH3. lia.
Qed.

Lemma NewFloatAgg_balance (a : universe.QuantileAgg float64) :
  let B := ByteSizeForCompression (universe.Compression a) in
  let '(s, a') := universe.NewFloatAgg ByteSizeForCompression a in
  holds s = 1%nat ∧
  universe.Compression a' = universe.Compression a ∧
  universe.mem a' - B * (1 + Z.of_nat (length (universe.freeDigests a')))
  = universe.mem a - B * Z.of_nat (length (universe.freeDigests a)).
Proof.
  unfold universe.NewFloatAgg, universe.popFreeDigest, universe.holds.
  destruct (universe.freeDigests a) as [|d0 free _] eqn:Hfree using rev_ind.
  - cbn. rewrite Hfree. cbn. split_and!; try done. lia.
  - assert (length (free ++ [d0]) = (length free + 1)%nat) as Hlen by (rewrite length_app; done).
    rewrite !Hlen.
    replace (0 <? length free + 1)%nat with true by (symmetry; apply Nat.ltb_lt; lia).
    replace (length free + 1 <? 1)%nat with false by (symmetry; apply Nat.ltb_ge; lia).
    replace (length free + 1 - 1)%nat with (length free) by lia.
    rewrite lookup_app_r, Nat.sub_diag by lia.
    rewrite take_app_length. cbn. split_and!; try done. lia.
Qed.

Lemma pushFreeDigest_balance (a : universe.QuantileAgg float64) d :
  let B := ByteSizeForCompression (universe.Compression a) in
  let a' := universe.pushFreeDigest ByteSizeForCompression d a in
  universe.Compression a' = universe.Compression a ∧
  universe.mem a' - B * Z.of_nat (length (universe.freeDigests a'))
  = universe.mem a
    - B * (Z.of_nat (length (universe.freeDigests a))
           + match d with Some _ => 1 | None => 0 end).
Proof.
  unfold universe.pushFreeDigest. destruct d as [d|]; [|cbn; split; [done|lia]].
  destruct (length (universe.freeDigests a) <? universe.freeCap a)%nat; cbn.
  - rewrite length_app. cbn. split; [done|lia].
  - split; [done|lia].
Qed.

(** Every call keeps the compression, and keeps the allocator ahead of
    its start by the bytes of the digests that exist. *)
Lemma quantileStep_balance (w : run) c :
  digestBytes (step w c) = digestBytes w ∧
  universe.mem (universe.agg (step w c)) - digestBytes w * digestsHeld (step w c)
  = universe.mem (universe.agg w) - digestBytes w * digestsHeld w.
Proof.
  destruct w as [a l]. unfold universe.digestBytes, universe.digestsHeld.
  destruct c as [|k vs|k|]; cbn [universe.quantileStep universe.agg universe.states].
  - (* NewFloatAgg *)
    pose proof (NewFloatAgg_balance a) as Hnew. cbn zeta in Hnew.
    destruct (universe.NewFloatAgg ByteSizeForCompression a) as [s a'].
    destruct Hnew as (Hs & Hc & Hm).
    cbn [universe.agg]. rewrite (openStates_snoc a a' l s), Hs, Hc.
    split; [done|lia].
  - (* DoFloat *)
    destruct (l !! k) as [s|] eqn:Hk; cbn [universe.agg]; [|done]. split; [done|].
    rewrite (openStates_insert a a l k s _ Hk).
    pose proof (DoFloat_digest vs s) as Hd. unfold universe.holds.
    destruct (universe.digest s) eqn:E, (universe.digest (universe.DoFloat vs s)) eqn:E';
      try lia.
    + destruct (proj2 Hd) as [? [=]]; eauto.
    + destruct (proj1 Hd) as [? [=]]; eauto.
  - (* QuantileAggState.Close *)
    destruct (l !! k) as [s|] eqn:Hk; [|done].
    cbn [universe.QuantileAggState_Close universe.agg].
    rewrite (openStates_insert a _ l k s _ Hk).
    destruct (pushFreeDigest_balance a (universe.digest s)) as [Hc Hm].
    rewrite Hc. split; [done|]. unfold universe.holds. cbn [universe.digest].
    destruct (universe.digest s); lia.
  - (* QuantileAgg.Close *)
    destruct (QuantileAgg_Close_mem a) as (Hc & Hf & Hm).
    rewrite Hc, Hm, Hf. unfold universe.openStates. cbn [universe.states length].
    split; [done|lia].
Qed.

Lemma quantileCalls_balance cs : ∀ w : run,
  digestBytes (calls w cs) = digestBytes w ∧
  universe.mem (universe.agg (calls w cs)) - digestBytes w * digestsHeld (calls w cs)
  = universe.mem (universe.agg w) - digestBytes w * digestsHeld w.
Proof.
  unfold universe.quantileCalls.
  induction cs as [|c cs IH]; intros w; cbn [foldl]; [done|].
  destruct (quantileStep_balance w c) as [Hb Hm].
  destruct (IH (step w c)) as [Hb' Hm'].
  rewrite Hb in Hb', Hm'. split; [done|]. by rewrite Hm'.
Qed.

(** Closing the first [n] states leaves them without a digest and the
    others as they were. *)
Lemma close_prefix (w : run) (n : nat) :
  (n ≤ length (universe.states w))%nat →
  universe.states (calls w (universe.CallStateClose <$> seq 0 n))
  = ((λ s, universe.mkQuantileAggState None (universe.ok s)) <$> take n (universe.states w))
    ++ drop n (universe.states w).
Proof.
  unfold universe.quantileCalls.
  induction n as [|n IH]; intros Hn; [by rewrite take_0, drop_0|].
  rewrite seq_S, fmap_app, foldl_app. cbn [fmap list_fmap foldl plus].
  specialize (IH ltac:(lia)).
  destruct (lookup_lt_is_Some_2 (universe.states w) n ltac:(lia)) as [s Hs].
  set (w' := foldl _ w _) in *.
  assert (universe.states w' !! n = Some s) as Hs'.
  { rewrite IH, lookup_app_r; rewrite length_fmap, length_take; [|lia].
    replace (n - n `min` length (universe.states w))%nat with 0%nat by lia.
    by rewrite lookup_drop, Nat.add_0_r. }
  cbn [universe.quantileStep]. rewrite Hs'. cbn. rewrite IH.
  rewrite insert_app_r_alt; rewrite length_fmap, length_take; [|lia].
  replace (n - n `min` length (universe.states w))%nat with 0%nat by lia.
  rewrite (take_S_r _ _ _ Hs), (drop_S _ _ _ Hs), fmap_app. cbn.
  by rewrite <- app_assoc.
Qed.

Lemma closeAll_leaves_none_open (w : run) :
  universe.openStates (calls w (universe.closeAll w)) = [].
Proof.
  unfold universe.openStates, universe.closeAll.
  rewrite close_prefix by done. rewrite firstn_all, drop_all, app_nil_r.
  induction (universe.states w) as [|s l IH]; [done|].
  cbn [fmap list_fmap]. rewrite filter_cons_False; [done|].
  cbn. by intros [? [=]].
Qed.

(** After [QuantileAgg.Close] a fresh aggregate is ahead of its start by
    the digests of the open states. *)
Lemma net_after_aggregate_close (q comp : float64) (m0 : Z) (size : nat)
    (cs : list (universe.quantileCall float64)) :
  let w := calls (universe.mkQuantileRun (universe.NewQuantileAgg q comp m0 size) [])
             (cs ++ [universe.CallAggClose]) in
  universe.mem (universe.agg w) - m0
  = ByteSizeForCompression comp * Z.of_nat (length (universe.openStates w)).
Proof.
  intros w. subst w. unfold universe.quantileCalls. rewrite foldl_app. cbn [foldl].
  set (w0 := universe.mkQuantileRun _ _).
  set (w1 := foldl _ w0 cs).
  destruct (quantileCalls_balance cs w0) as [Hb Hm].
  unfold universe.quantileCalls in Hb, Hm. fold w1 in Hb, Hm.
  destruct (quantileStep_balance w1 universe.CallAggClose) as [Hb' Hm'].
  rewrite Hb in Hb', Hm'. rewrite Hm in Hm'.
  destruct (QuantileAgg_Close_mem (universe.agg w1)) as (_ & Hf & _).
  unfold universe.digestsHeld in Hm'.
  cbn [universe.quantileStep universe.agg universe.states] in *.
  rewrite Hf in Hm'. subst w0. unfold universe.digestBytes, universe.openStates in *.
  cbn in Hm'. cbn. lia.
Qed.

End quantile_facts.


(** Two states on a free list of capacity one: the first close keeps the
    digest, the second has no room and gives the bytes back, the third
    state takes the kept digest. *)
Example quantile_free_list_trace :
  universe.mem <$> (universe.agg <$>
    [ universe.quantileCalls universe.quantile_sample_bytes universe.quantile_sample
        [universe.CallNewFloatAgg; universe.CallNewFloatAgg];
      universe.quantileCalls universe.quantile_sample_bytes universe.quantile_sample
        [universe.CallNewFloatAgg; universe.CallNewFloatAgg; universe.CallStateClose 0];
      universe.quantileCalls universe.quantile_sample_bytes universe.quantile_sample
        [universe.CallNewFloatAgg; universe.CallNewFloatAgg; universe.CallStateClose 0;
         universe.CallStateClose 1];
      universe.quantileCalls universe.quantile_sample_bytes universe.quantile_sample
        [universe.CallNewFloatAgg; universe.CallNewFloatAgg; universe.CallStateClose 0;
         universe.CallStateClose 1; universe.CallNewFloatAgg; universe.CallStateClose 2;
         universe.CallAggClose] ])
  = [32000; 32000; 16000; 0].
Proof. reflexivity. Qed.

(** ** More on the quantile aggregates *)

Section quantile_more.
Context {float64 : Type} (ByteSizeForCompression : float64 → Z).

#[local] Abbreviation qrun := (universe.quantileRun float64).
#[local] Abbreviation qstep := (universe.quantileStep ByteSizeForCompression).
#[local] Abbreviation qcalls := (universe.quantileCalls ByteSizeForCompression).

Lemma quantileCalls_snoc (w : qrun) cs c :
  qcalls w (cs ++ [c]) = qstep (qcalls w cs) c.
Proof. unfold universe.quantileCalls. by rewrite foldl_app. Qed.

(** An invariant of the steps holds after any calls. *)
Lemma quantileCalls_invariant (P : qrun → Prop) :
  (∀ w c, P w → P (qstep w c)) → ∀ cs w, P w → P (qcalls w cs).
Proof.
  intros Hstep cs. unfold universe.quantileCalls.
  induction cs as [|c cs IH]; intros w Hw; [done|]. cbn. by apply IH, Hstep.
Qed.

Lemma QuantileAgg_Close_free (a : universe.QuantileAgg float64) :
  universe.freeDigests (universe.QuantileAgg_Close ByteSizeForCompression a) = []
  ∧ universe.freeCap (universe.QuantileAgg_Close ByteSizeForCompression a) = 0%nat.
Proof. done. Qed.

(** The free list stays within its capacity, and the capacity within the
    size the aggregate was made with. *)
Lemma free_list_step_bounded (size : nat) (w : qrun) c :
  (length (universe.freeDigests (universe.agg w)) ≤ universe.freeCap (universe.agg w)
   ∧ universe.freeCap (universe.agg w) ≤ size)%nat →
  (length (universe.freeDigests (universe.agg (qstep w c)))
     ≤ universe.freeCap (universe.agg (qstep w c))
   ∧ universe.freeCap (universe.agg (qstep w c)) ≤ size)%nat.
Proof.
  destruct w as [a l]. intros [Hlen Hcap]. cbn in Hlen, Hcap.
  destruct c as [|k vs|k|]; cbn [universe.quantileStep universe.agg universe.states].
  - unfold universe.NewFloatAgg, universe.popFreeDigest.
    destruct (0 <? length (universe.freeDigests a))%nat; [|cbn; lia].
    destruct (length (universe.freeDigests a) <? 1)%nat; cbn; [lia|].
    rewrite length_take. lia.
  - destruct (l !! k); cbn; lia.
  - destruct (l !! k) as [s|]; [|cbn; lia].
    cbn [universe.QuantileAggState_Close universe.agg]. unfold universe.pushFreeDigest.
    destruct (universe.digest s); [|lia].
    destruct (Nat.ltb_spec (length (universe.freeDigests a)) (universe.freeCap a)); cbn;
      [|lia]. rewrite length_app. cbn. lia.
  - cbn. lia.
Qed.

(** Every digest on the free list has been reset. *)
Lemma free_list_step_reset (w : qrun) c :
  Forall (λ d, universe.samples d = []) (universe.freeDigests (universe.agg w)) →
  Forall (λ d, universe.samples d = [])
         (universe.freeDigests (universe.agg (qstep w c))).
Proof.
  destruct w as [a l]. intros Hfree. cbn in Hfree.
  destruct c as [|k vs|k|]; cbn [universe.quantileStep universe.agg universe.states].
  - unfold universe.NewFloatAgg, universe.popFreeDigest.
    destruct (0 <? length (universe.freeDigests a))%nat; [|done].
    destruct (length (universe.freeDigests a) <? 1)%nat; cbn; [done|].
    by apply Forall_take.
  - by destruct (l !! k).
  - destruct (l !! k) as [s|]; [|done].
    cbn [universe.QuantileAggState_Close universe.agg]. unfold universe.pushFreeDigest.
    destruct (universe.digest s); [|done].
    destruct (length (universe.freeDigests a) <? universe.freeCap a)%nat; cbn; [|done].
    apply Forall_app. split; [done|]. by repeat constructor.
  - constructor.
Qed.

(** X1. Whatever calls are made on a fresh aggregate, the free list never
    holds more digests than its capacity, and the capacity never exceeds
    the size the aggregate was made with. *)
Theorem free_list_within_capacity (q comp : float64) (m0 : Z) (size : nat)
    (cs : list (universe.quantileCall float64)) :
  let w := qcalls (universe.mkQuantileRun (universe.NewQuantileAgg q comp m0 size) []) cs in
  (length (universe.freeDigests (universe.agg w)) ≤ universe.freeCap (universe.agg w)
   ∧ universe.freeCap (universe.agg w) ≤ size)%nat.
Proof.
  apply (quantileCalls_invariant
           (λ w, (length (universe.freeDigests (universe.agg w))
                    ≤ universe.freeCap (universe.agg w)
                  ∧ universe.freeCap (universe.agg w) ≤ size)%nat)).
  - intros w c. apply free_list_step_bounded.
  - cbn. lia.
Qed.


(** X3. Closing a state a second time changes nothing: the digest is not
    put on the free list twice and its bytes are not given back twice. *)
Theorem state_Close_twice (w : universe.quantileRun float64) (k : nat) :
  universe.quantileStep ByteSizeForCompression
    (universe.quantileStep ByteSizeForCompression w (universe.CallStateClose k))
    (universe.CallStateClose k)
  = universe.quantileStep ByteSizeForCompression w (universe.CallStateClose k).
Proof.
  destruct w as [a l]. cbn [universe.quantileStep universe.agg universe.states].
  destruct (l !! k) as [s|] eqn:Hk; cbn [universe.QuantileAggState_Close].
  - cbn [universe.quantileStep universe.agg universe.states].
    rewrite list_lookup_insert_eq by (by eapply lookup_lt_Some).
    cbn. by rewrite list_insert_insert_eq.
  - cbn [universe.quantileStep universe.agg universe.states]. by rewrite Hk.
Qed.

(** X4. Once the aggregate has been closed the free list stays empty:
    whatever calls follow, no digest is kept for reuse any more. *)
Theorem free_list_empty_after_Close (w : qrun)
    (cs : list (universe.quantileCall float64)) :
  let w' := qcalls (qstep w universe.CallAggClose) cs in
  universe.freeDigests (universe.agg w') = []
  ∧ universe.freeCap (universe.agg w') = 0%nat.
Proof.
  apply (quantileCalls_invariant
           (λ w, universe.freeDigests (universe.agg w) = []
                 ∧ universe.freeCap (universe.agg w) = 0%nat)); [|done].
  clear w cs. intros [a l] c [Hfree Hcap]. cbn in Hfree, Hcap.
  destruct c as [|k vs|k|]; cbn [universe.quantileStep universe.agg universe.states].
  - unfold universe.NewFloatAgg. rewrite Hfree. done.
  - by destruct (l !! k).
  - destruct (l !! k) as [s|]; [|done].
    cbn [universe.QuantileAggState_Close universe.agg]. unfold universe.pushFreeDigest.
    destruct (universe.digest s); [|done]. rewrite Hfree, Hcap. done.
  - done.
Qed.

(** X5. The free list is a stack: a digest pushed while there is room is
    the next one popped, reset, and the aggregate is back as it was;
    popping from an empty free list gives nil and changes nothing. *)
Theorem free_list_push_pop (a : universe.QuantileAgg float64) (d : universe.TDigest float64) :
  ((length (universe.freeDigests a) < universe.freeCap a)%nat →
     universe.popFreeDigest
       (universe.pushFreeDigest ByteSizeForCompression (Some d) a)
     = (Some (universe.Reset d), a))
  ∧ (universe.freeDigests a = [] → universe.popFreeDigest a = (None, a)).
Proof.
  split.
  - intros Hroom. unfold universe.pushFreeDigest.
    rewrite (proj2 (Nat.ltb_lt _ _) Hroom).
    unfold universe.popFreeDigest, universe.setFreeDigests. cbn.
    assert (length (universe.freeDigests a ++ [universe.Reset d])
            = (length (universe.freeDigests a) + 1)%nat) as Hlen
      by (rewrite length_app; done).
    rewrite !Hlen.
    replace (length (universe.freeDigests a) + 1 <? 1)%nat with false
      by (symmetry; apply Nat.ltb_ge; lia).
    replace (length (universe.freeDigests a) + 1 - 1)%nat
      with (length (universe.freeDigests a)) by lia.
    rewrite lookup_app_r, Nat.sub_diag, take_app_length by lia.
    replace (length (universe.freeDigests a) + 1 <=? 0)%nat with false
      by (symmetry; apply Nat.leb_gt; lia).
    by destruct a.
  - intros Hempty. unfold universe.popFreeDigest. by rewrite Hempty.
Qed.


End quantile_more.

Section exact_quantile_facts.
Context {float64 : Type}.

Lemma NullN_zero_all_valid (vs : universe.FloatArray float64) :
  universe.NullN vs = 0%nat →
  universe.Float64Values vs = universe.validValues vs.
Proof.
  unfold universe.NullN, universe.Float64Values, universe.validValues.
  induction (universe.slots vs) as [|[v b] l IH]; [done|].
  rewrite !filter_cons. cbn. destruct b; repeat case_decide; try done; cbn.
  intros Hn. f_equal. by apply IH.
Qed.

Lemma ExactQuantileAgg_append_valid (l : list (float64 * bool))
    (a : universe.ExactQuantileAgg float64) :
  foldl (λ (a : universe.ExactQuantileAgg float64) (s : float64 * bool),
           if s.2
           then universe.mkExactQuantileAgg (universe.exactQuantile a)
                  (universe.data a ++ [s.1])
           else a) a l
  = universe.mkExactQuantileAgg (universe.exactQuantile a)
      (universe.data a ++ (fst <$> filter (λ s : float64 * bool, s.2 = true) l)).
Proof.
  revert a. induction l as [|[v b] l IH]; intros a; cbn [foldl].
  - rewrite filter_nil. cbn. rewrite app_nil_r. by destruct a.
  - rewrite IH, filter_cons. destruct b; cbn; case_decide; try done.
    cbn. by rewrite <- app_assoc.
Qed.

(** X7. [ExactQuantileAgg.DoFloat] appends exactly the valid values of the
    array to the data, in order, on the path for arrays without nulls as on
    the other one; so the aggregate is null exactly when it was null before
    and the array has no valid value. A copy made by [NewFloatAgg] starts
    without data. *)
Theorem ExactQuantileAgg_DoFloat_appends_valid (vs : universe.FloatArray float64)
    (a : universe.ExactQuantileAgg float64) :
  universe.ExactQuantileAgg_DoFloat vs a
  = universe.mkExactQuantileAgg (universe.exactQuantile a)
      (universe.data a ++ universe.validValues vs)
  ∧ universe.ExactQuantileAgg_IsNull (universe.ExactQuantileAgg_DoFloat vs a)
    = universe.ExactQuantileAgg_IsNull a
      && (length (universe.validValues vs) =? 0)%nat
  ∧ universe.ExactQuantileAgg_IsNull (universe.ExactQuantileAgg_NewFloatAgg a) = true.
Proof.
  assert (universe.ExactQuantileAgg_DoFloat vs a
          = universe.mkExactQuantileAgg (universe.exactQuantile a)
              (universe.data a ++ universe.validValues vs)) as Hdo.
  { unfold universe.ExactQuantileAgg_DoFloat.
    destruct (Nat.eqb_spec (universe.NullN vs) 0) as [Hnull|_].
    - by rewrite NullN_zero_all_valid.
    - apply ExactQuantileAgg_append_valid. }
  split_and!; [done| |done].
  rewrite Hdo. unfold universe.ExactQuantileAgg_IsNull. cbn. rewrite length_app.
  destruct (universe.data a), (universe.validValues vs); done.
Qed.

End exact_quantile_facts.
